(** * A shallow embedding of the sandboxed filesystem server

    The development follows the Go sources: package [security] (the path
    validator), package [filesystem] (the operation engine) and package
    [handlers] (the tool handlers that call both).  Go strings are byte
    strings and are modelled by [string]; the operating system is modelled
    by a finite map from physical paths to nodes. *)

From Stdlib Require Import Ascii String.
From stdpp Require Import gmap strings list fin_maps pretty.

Open Scope string_scope.
Open Scope list_scope.

(** ** Package [unicode/utf8] of the Go library *)

Module Utf8.

Definition RuneError : N := 65533.

Definition byteOf (a : ascii) : N := N_of_ascii a.

Definition between (lo hi b : N) : bool := ((lo <=? b) && (b <=? hi))%N.

(** [utf8.DecodeRuneInString]: the first rune of [s] and what follows it;
    [None] for the empty string.  A byte that does not start a well-formed
    shortest encoding is the rune [RuneError], of width one. *)
Definition DecodeRune (s : string) : option (N * string) :=
  match s with
  | EmptyString => None
  | String a s1 =>
      let b0 := byteOf a in
      let bad := Some (RuneError, s1) in
      if (b0 <? 128)%N then Some (b0, s1)
      else if ((b0 <? 194) || (244 <? b0))%N then bad
      else if (b0 <? 224)%N then
        match s1 with
        | String c1 s2 =>
            let b1 := byteOf c1 in
            if between 128 191 b1
            then Some (((b0 - 192) * 64 + (b1 - 128))%N, s2)
            else bad
        | EmptyString => bad
        end
      else if (b0 <? 240)%N then
        match s1 with
        | String c1 (String c2 s3) =>
            let b1 := byteOf c1 in
            let b2 := byteOf c2 in
            if between (if (b0 =? 224)%N then 160 else 128)
                 (if (b0 =? 237)%N then 159 else 191) b1
               && between 128 191 b2
            then Some (((b0 - 224) * 4096 + (b1 - 128) * 64 + (b2 - 128))%N, s3)
            else bad
        | _ => bad
        end
      else
        match s1 with
        | String c1 (String c2 (String c3 s4)) =>
            let b1 := byteOf c1 in
            let b2 := byteOf c2 in
            let b3 := byteOf c3 in
            if between (if (b0 =? 240)%N then 144 else 128)
                 (if (b0 =? 244)%N then 143 else 191) b1
               && between 128 191 b2 && between 128 191 b3
            then Some (((b0 - 240) * 262144 + (b1 - 128) * 4096
                        + (b2 - 128) * 64 + (b3 - 128))%N, s4)
            else bad
        | _ => bad
        end
  end.

(** The runes of [s], as [for _, r := range s] yields them.  Every rune
    takes at least one byte, so the length of [s] is fuel enough. *)
Fixpoint runesFrom (fuel : nat) (s : string) : list N :=
  match fuel with
  | O => []
  | S fuel' =>
      match DecodeRune s with
      | None => []
      | Some (r, rest) => r :: runesFrom fuel' rest
      end
  end.

Definition runes (s : string) : list N := runesFrom (String.length s) s.

Definition bytes (l : list N) : string :=
  fold_right (fun b s => String (ascii_of_N b) s) EmptyString l.

(** [utf8.AppendRune]: surrogates and values above U+10FFFF are written as
    U+FFFD. *)
Definition EncodeRune (r : N) : string :=
  if (r <? 128)%N then bytes [r]
  else if (r <? 2048)%N then bytes [192 + r / 64; 128 + r mod 64]%N
  else
    let r := if ((1114111 <? r) || between 55296 57343 r)%N then RuneError else r in
    if (r <? 65536)%N
    then bytes [224 + r / 4096; 128 + (r / 64) mod 64; 128 + r mod 64]%N
    else bytes [240 + r / 262144; 128 + (r / 4096) mod 64;
                128 + (r / 64) mod 64; 128 + r mod 64]%N.

End Utf8.

(** ** Package [strings] of the Go library *)

Module Strings.

Definition HasPrefix (s pre : string) : bool := String.prefix pre s.

Fixpoint Contains (s sub : string) : bool :=
  HasPrefix s sub ||
  match s with
  | EmptyString => false
  | String _ s' => Contains s' sub
  end.

(** [dropN n s] is [s[n:]]. *)
Fixpoint dropN (n : nat) (s : string) : string :=
  match n, s with
  | O, _ => s
  | S k, String _ s' => dropN k s'
  | S _, EmptyString => EmptyString
  end.

(** [strings.Replace(s, old, new, 1)]: the first occurrence only; an empty
    [old] matches at the beginning of the string. *)
Fixpoint Replace1 (s old new : string) : string :=
  if HasPrefix s old then new +:+ dropN (String.length old) s
  else match s with
       | EmptyString => EmptyString
       | String a s' => String a (Replace1 s' old new)
       end.

(** [strings.ReplaceAll(text, "\r\n", "\n")]. *)
Definition CR : ascii := Eval vm_compute in ascii_of_nat 13.
Definition LF : ascii := Eval vm_compute in ascii_of_nat 10.
Definition TAB : ascii := Eval vm_compute in ascii_of_nat 9.
Definition nl : string := String LF EmptyString.

Fixpoint ReplaceAllCRLF (text : string) : string :=
  match text with
  | EmptyString => EmptyString
  | String a rest =>
      match rest with
      | String b rest' =>
          if Ascii.eqb a CR && Ascii.eqb b LF
          then String LF (ReplaceAllCRLF rest')
          else String a (ReplaceAllCRLF rest)
      | EmptyString => String a EmptyString
      end
  end.

(** [strings.Split(s, sep)] for a one-byte separator: never empty, and
    [Split("", sep)] is the list holding one empty string. *)
Fixpoint Split (s : string) (sep : ascii) : list string :=
  match s with
  | EmptyString => [EmptyString]
  | String a s' =>
      if Ascii.eqb a sep then EmptyString :: Split s' sep
      else match Split s' sep with
           | [] => [String a EmptyString]
           | x :: xs => String a x :: xs
           end
  end.

Fixpoint Join (elems : list string) (sep : string) : string :=
  match elems with
  | [] => EmptyString
  | [x] => x
  | x :: xs => x +:+ sep +:+ Join xs sep
  end.

(** The white space of [unicode.IsSpace] below U+0080: tab, line feed,
    vertical tab, form feed, carriage return and space. *)
Definition isSpace (a : ascii) : bool :=
  let n := nat_of_ascii a in
  ((9 <=? n)%nat && (n <=? 13)%nat) || (n =? 32)%nat.

(** The white space above, as UTF-8 encodes it: U+0085 and U+00A0 in two
    bytes; U+1680, U+2000 to U+200A, U+2028, U+2029, U+202F, U+205F and
    U+3000 in three. *)
Definition isSpace2 (a b : ascii) : bool :=
  let x := nat_of_ascii a in
  let y := nat_of_ascii b in
  ((x =? 194) && ((y =? 133) || (y =? 160)))%nat.

Definition isSpace3 (a b c : ascii) : bool :=
  let x := nat_of_ascii a in
  let y := nat_of_ascii b in
  let z := nat_of_ascii c in
  (((x =? 225) && (y =? 154) && (z =? 128)) ||
   ((x =? 226) && (y =? 128) &&
    (((128 <=? z) && (z <=? 138)) || (z =? 168) || (z =? 169) || (z =? 175))) ||
   ((x =? 226) && (y =? 129) && (z =? 159)) ||
   ((x =? 227) && (y =? 128) && (z =? 128)))%nat.

(** [s] is the encoding of one white space rune. *)
Definition isSpaceRune (s : string) : bool :=
  match s with
  | String a EmptyString => isSpace a
  | String a (String b EmptyString) => isSpace2 a b
  | String a (String b (String c EmptyString)) => isSpace3 a b c
  | _ => false
  end.

Fixpoint TrimLeftFunc (f : ascii -> bool) (s : string) : string :=
  match s with
  | EmptyString => EmptyString
  | String a s' => if f a then TrimLeftFunc f s' else s
  end.

(** [strings.TrimLeftFunc(s, unicode.IsSpace)]: the runes are decoded from
    the left, and the encodings above are the only byte sequences that
    decode to white space. *)
Fixpoint trimLeftSpace (s : string) : string :=
  match s with
  | EmptyString => EmptyString
  | String a s1 =>
      if isSpace a then trimLeftSpace s1
      else
        match s1 with
        | String b s2 =>
            if isSpace2 a b then trimLeftSpace s2
            else
              match s2 with
              | String c s3 => if isSpace3 a b c then trimLeftSpace s3 else s
              | EmptyString => s
              end
        | EmptyString => s
        end
  end.

(** [strings.TrimRightFunc(s, unicode.IsSpace)]: the runes are decoded from
    the right ([utf8.DecodeLastRuneInString] goes back to the nearest byte
    that can start a rune, which for the encodings above is their first
    byte), so white space is cut off the end as long as the string ends in
    one of these encodings.  What is left of [String a s'] is [a] before
    what is left of [s'], unless that is one white space rune. *)
Fixpoint trimRightSpace (s : string) : string :=
  match s with
  | EmptyString => EmptyString
  | String a s' =>
      let r := String a (trimRightSpace s') in
      if isSpaceRune r then EmptyString else r
  end.

(** [strings.TrimSpace]: all leading and trailing white space, as Unicode
    defines it, removed. *)
Definition TrimSpace (s : string) : string :=
  trimRightSpace (trimLeftSpace s).

Definition isBlank (a : ascii) : bool :=
  Ascii.eqb a " "%char || Ascii.eqb a TAB.

(** [strings.TrimLeft(s, " \t")]. *)
Definition TrimLeftBlank (s : string) : string := TrimLeftFunc isBlank s.

Definition lowerByte (a : ascii) : ascii :=
  let n := nat_of_ascii a in
  if ((65 <=? n)%nat && (n <=? 90)%nat)%bool then ascii_of_nat (n + 32) else a.

Fixpoint lowerBytes (s : string) : string :=
  match s with
  | EmptyString => EmptyString
  | String a s' => String (lowerByte a) (lowerBytes s')
  end.

Fixpoint isASCII (s : string) : bool :=
  match s with
  | EmptyString => true
  | String a s' => (nat_of_ascii a <? 128)%nat && isASCII s'
  end.

Fixpoint concat (l : list string) : string :=
  match l with
  | [] => EmptyString
  | x :: l' => x +:+ concat l'
  end.

Section Lower.

(** [unicode.ToLower] above U+007F, where it is read off the case tables of
    the Go library. *)
Variable unicodeLower : N -> N.

(** [unicode.ToLower]. *)
Definition toLowerRune (r : N) : N :=
  if (r <? 128)%N then
    if Utf8.between 65 90 r then (r + 32)%N else r
  else unicodeLower r.

(** [strings.ToLower]: byte by byte when every byte is ASCII; otherwise
    [strings.Map(unicode.ToLower, s)], which decodes the runes, maps each
    one and encodes it again, so that a byte that is no valid UTF-8 comes
    out as the encoding of U+FFFD. *)
Definition ToLower (s : string) : string :=
  if isASCII s then lowerBytes s
  else concat (map (fun r => Utf8.EncodeRune (toLowerRune r)) (Utf8.runes s)).

End Lower.

Fixpoint Repeat (s : string) (n : nat) : string :=
  match n with
  | O => EmptyString
  | S k => s +:+ Repeat s k
  end.

(** [len(s)] as a Go [int]. *)
Fixpoint lenAcc (s : string) (acc : N) : N :=
  match s with
  | EmptyString => acc
  | String _ s' => lenAcc s' (N.succ acc)
  end.

Definition len (s : string) : Z := Z.of_N (lenAcc s 0%N).

End Strings.

(** ** Package [path/filepath] of the Go library, Unix flavour *)

Module Filepath.
Import Strings.

Definition Separator : ascii := "/"%char.
Definition sep : string := "/".

Definition IsAbs (path : string) : bool := HasPrefix path sep.

Definition nonEmpty (e : string) : bool := negb (String.eqb e "").

(** The path name elements that [Clean] keeps: neither empty nor [.]. *)
Definition keptElem (e : string) : bool :=
  negb (String.eqb e "") && negb (String.eqb e ".").

(** One pass over the elements with the output kept as a stack (last
    element first): [..] removes the element before it, is dropped at the
    root, and is kept in front of a relative path. *)
Fixpoint cleanElems (rooted : bool) (out : list string) (elems : list string)
  : list string :=
  match elems with
  | [] => rev out
  | e :: rest =>
      if String.eqb e ".." then
        match out with
        | top :: out' =>
            if String.eqb top ".." then cleanElems rooted (e :: out) rest
            else cleanElems rooted out' rest
        | [] =>
            if rooted then cleanElems rooted [] rest
            else cleanElems rooted [e] rest
        end
      else cleanElems rooted (e :: out) rest
  end.

Definition Clean (path : string) : string :=
  if String.eqb path "" then "."
  else
    let rooted := IsAbs path in
    let elems := cleanElems rooted [] (List.filter keptElem (Split path Separator)) in
    if rooted then sep +:+ Join elems sep
    else match elems with
         | [] => "."
         | _ => Join elems sep
         end.

(** [filepath.Join]: empty elements are ignored, the rest is joined with
    the separator and cleaned; all elements empty gives the empty string. *)
Definition JoinPath (elem : list string) : string :=
  match List.filter nonEmpty elem with
  | [] => ""
  | es => Clean (Join es sep)
  end.

(** [path[:i+1]] for [i] the index of the last separator. *)
Fixpoint uptoLastSep (path : string) : string :=
  match path with
  | EmptyString => EmptyString
  | String a rest =>
      if Contains rest sep then String a (uptoLastSep rest)
      else if Ascii.eqb a Separator then sep else EmptyString
  end.

Definition Dir (path : string) : string := Clean (uptoLastSep path).

(** [filepath.Base]: the last element, trailing separators removed. *)
Definition Base (path : string) : string :=
  if String.eqb path "" then "."
  else match rev (List.filter nonEmpty (Split path Separator)) with
       | [] => sep
       | e :: _ => e
       end.

(** The elements the scanning loop of [Rel] sees: the pieces between
    separators; an empty piece after a final separator (only the root has
    one) is not looked at. *)
Fixpoint trimTail (rest : list string) : list string :=
  match rest with
  | [] => []
  | [e] => if String.eqb e "" then [] else [e]
  | x :: rest' => x :: trimTail rest'
  end.

Definition relElems (p : string) : list string :=
  if String.eqb p "" then []
  else match Split p Separator with
       | [] => []
       | x :: rest => x :: trimTail rest
       end.

(** Drop the common leading elements. *)
Fixpoint dropCommon (bs ts : list string) : list string * list string :=
  match bs, ts with
  | b :: bs', t :: ts' =>
      if String.eqb t b then dropCommon bs' ts' else (bs, ts)
  | _, _ => (bs, ts)
  end.

(** [filepath.Rel(basepath, targpath)]; [None] is its error. *)
Definition Rel (basepath targpath : string) : option string :=
  let base := Clean basepath in
  let targ := Clean targpath in
  if String.eqb targ base then Some "."
  else
    let base := if String.eqb base "." then "" else base in
    if negb (Bool.eqb (HasPrefix base sep) (HasPrefix targ sep)) then None
    else
      let '(brem, trem) := dropCommon (relElems base) (relElems targ) in
      match brem, trem with
      | b :: _, _ :: _ =>
          if String.eqb b ".." then None
          else Some (Join (map (fun _ => "..") brem ++ trem) sep)
      | _ :: _, [] => Some (Join (map (fun _ => "..") brem) sep)
      | [], _ => Some (Join trem sep)
      end.

End Filepath.

Import Strings Filepath.

(** ** Errors

    A Go [error] is kept structured where the program inspects it
    ([os.IsNotExist], [errors.Is(linkErr.Err, syscall.EXDEV)]) and is a
    message otherwise; [Wrap msg err] is [fmt.Errorf(msg + "%w", err)]. *)

Inductive errno := ENOENT | ENOTDIR | EISDIR | EEXIST | EXDEV | ELOOP | ENOTEMPTY | EINVAL.

Inductive error :=
  | PathError (op path : string) (e : errno)
  | LinkError (op old new : string) (e : errno)
  | ErrorString (msg : string)
  | Wrap (msg : string) (inner : error).

Inductive result (A : Type) :=
  | Ok (a : A)
  | Err (e : error).
Arguments Ok {A} a.
Arguments Err {A} e.

Definition errnoText (e : errno) : string :=
  match e with
  | ENOENT => "no such file or directory"
  | ENOTDIR => "not a directory"
  | EISDIR => "is a directory"
  | EEXIST => "file exists"
  | EXDEV => "invalid cross-device link"
  | ELOOP => "too many links"
  | ENOTEMPTY => "directory not empty"
  | EINVAL => "invalid argument"
  end.

(** [err.Error()]. *)
Fixpoint errorText (e : error) : string :=
  match e with
  | PathError op path en => op +:+ " " +:+ path +:+ ": " +:+ errnoText en
  | LinkError op old new en => op +:+ " " +:+ old +:+ " " +:+ new +:+ ": " +:+ errnoText en
  | ErrorString msg => msg
  | Wrap msg inner => msg +:+ errorText inner
  end.

Definition errnoOf (e : error) : option errno :=
  match e with
  | PathError _ _ en | LinkError _ _ _ en => Some en
  | _ => None
  end.

(** [os.IsNotExist(err)] (it does not unwrap [fmt.Errorf] wrappers). *)
Definition IsNotExist (e : error) : bool :=
  match errnoOf e with
  | Some ENOENT => true
  | _ => false
  end.

(** ** The operating system

    A node is stored under the physical path that names it: an absolute,
    cleaned path none of whose proper prefixes is a symbolic link.  The root
    directory always exists.  Permissions and timestamps are not part of the
    model. *)

Inductive node :=
  | File (data : string)
  | Directory
  | Symlink (target : string).

Definition isDirNode (n : node) : bool :=
  match n with Directory => true | _ => false end.

Definition keyOf (elems : list string) : string := sep +:+ Join elems sep.

Definition nodeAt (files : gmap string node) (key : string) : option node :=
  if String.eqb key sep then Some Directory else files !! key.

(** The walk of [filepath.EvalSymlinks] (and of the kernel when it opens a
    path): [cur] holds the elements resolved so far, [rest] those still to
    come; at most 255 links are followed.  With [create] the last element
    may be missing, as for a file about to be created. *)
Fixpoint walkLinks (files : gmap string node) (create : bool) (links : nat)
    (cur rest : list string) {struct links} : errno + list string :=
  (fix go (cur rest : list string) {struct rest} : errno + list string :=
     match rest with
     | [] => inr cur
     | e :: rest' =>
         if negb (keptElem e) then go cur rest'
         else if String.eqb e ".." then go (removelast cur) rest'
         else
           let cur' := cur ++ [e] in
           match nodeAt files (keyOf cur') with
           | None =>
               match rest' with
               | [] => if create then inr cur' else inl ENOENT
               | _ => inl ENOENT
               end
           | Some (Symlink t) =>
               match links with
               | O => inl ELOOP
               | S l =>
                   walkLinks files create l (if IsAbs t then [] else cur)
                     (Split t Separator ++ rest')
               end
           | Some Directory => go cur' rest'
           | Some (File _) =>
               match rest' with
               | [] => inr cur'
               | _ => inl ENOTDIR
               end
           end
     end) cur rest.

Definition maxLinks : nat := 255.

Record World := mkWorld {
  files : gmap string node;
  cwd : option string;      (* [os.Getwd], when it succeeds *)
  home : option string;     (* [os.UserHomeDir], when it succeeds *)
  mounts : list string      (* the physical paths other devices are mounted on *)
}.

Definition withFiles (w : World) (fs : gmap string node) : World :=
  mkWorld fs (cwd w) (home w) (mounts w).

(** Resolution starts at the root for an absolute path and at the working
    directory otherwise.  The program only passes absolute paths. *)
Definition startOf (w : World) (path : string) : list string :=
  if IsAbs path then []
  else match cwd w with
       | Some d => List.filter keptElem (Split d Separator)
       | None => []
       end.

Definition resolve (w : World) (create : bool) (path : string) : errno + string :=
  if String.eqb path "" then inl ENOENT else
  match walkLinks (files w) create maxLinks (startOf w path) (Split path Separator) with
  | inl en => inl en
  | inr elems => inr (keyOf elems)
  end.

(** [filepath.EvalSymlinks]. *)
Definition EvalSymlinks (w : World) (path : string) : result string :=
  match resolve w false path with
  | inl en => Err (PathError "lstat" path en)
  | inr key => Ok key
  end.

(** The physical path of the link itself: the directory is resolved, the
    last element is not followed. *)
Definition childKey (dir name : string) : string :=
  if String.eqb dir sep then sep +:+ name else dir +:+ sep +:+ name.

Definition resolveNoFollow (w : World) (path : string) : errno + string :=
  let c := Clean path in
  if String.eqb c sep then inr sep
  else match resolve w false (Dir c) with
       | inl en => inl en
       | inr d =>
           match nodeAt (files w) d with
           | Some Directory => inr (childKey d (Base c))
           | _ => inl ENOTDIR
           end
       end.

Record OsInfo := mkOsInfo {
  Name : string;
  Size : Z;
  IsDir : bool;
  IsRegular : bool
}.

Definition infoOf (name : string) (n : node) : OsInfo :=
  match n with
  | File data => mkOsInfo name (len data) false true
  | Directory => mkOsInfo name 0 true false
  | Symlink t => mkOsInfo name (len t) false false
  end.

Definition Stat (w : World) (path : string) : result OsInfo :=
  match resolve w false path with
  | inl en => Err (PathError "stat" path en)
  | inr key =>
      match nodeAt (files w) key with
      | Some n => Ok (infoOf (Base path) n)
      | None => Err (PathError "stat" path ENOENT)
      end
  end.

Definition Lstat (w : World) (path : string) : result OsInfo :=
  match resolveNoFollow w path with
  | inl en => Err (PathError "lstat" path en)
  | inr key =>
      match nodeAt (files w) key with
      | Some n => Ok (infoOf (Base path) n)
      | None => Err (PathError "lstat" path ENOENT)
      end
  end.

Definition ReadFileSys (w : World) (path : string) : result string :=
  match resolve w false path with
  | inl en => Err (PathError "open" path en)
  | inr key =>
      match nodeAt (files w) key with
      | Some (File data) => Ok data
      | Some Directory => Err (PathError "read" path EISDIR)
      | _ => Err (PathError "open" path ENOENT)
      end
  end.

(** [os.WriteFile]: open with create and truncate, then write. *)
Definition WriteFileSys (w : World) (path data : string) : option error * World :=
  match resolve w true path with
  | inl en => (Some (PathError "open" path en), w)
  | inr key =>
      match nodeAt (files w) key with
      | Some Directory => (Some (PathError "open" path EISDIR), w)
      | _ => (None, withFiles w (<[key := File data]> (files w)))
      end
  end.

(** A directory entry is what [lstat] says of it: a link to a directory is
    not a directory. *)
Fixpoint insertByName (e : OsInfo) (l : list OsInfo) : list OsInfo :=
  match l with
  | [] => [e]
  | x :: l' => if String.leb (Name e) (Name x) then e :: l else x :: insertByName e l'
  end.

Definition sortByName (l : list OsInfo) : list OsInfo :=
  foldr insertByName [] l.

Definition entriesOf (fs : gmap string node) (dir : string) : list OsInfo :=
  sortByName
    (omap (fun kn : string * node =>
             let name := Base kn.1 in
             if String.eqb kn.1 (childKey dir name) then Some (infoOf name kn.2) else None)
          (map_to_list fs)).

(** [os.ReadDir]: the entries sorted by file name. *)
Definition ReadDir (w : World) (path : string) : result (list OsInfo) :=
  match resolve w false path with
  | inl en => Err (PathError "open" path en)
  | inr key =>
      match nodeAt (files w) key with
      | Some Directory => Ok (entriesOf (files w) key)
      | Some _ => Err (PathError "readdirent" path ENOTDIR)
      | None => Err (PathError "open" path ENOENT)
      end
  end.

(** [os.MkdirAll], walking down from the start of the path: what exists
    must be a directory (links are followed), what is missing is made. *)
Fixpoint mkdirAllFrom (w : World) (path : string) (cur : string) (rest : list string)
  : option error * World :=
  match rest with
  | [] => (None, w)
  | e :: rest' =>
      if String.eqb e ".." then mkdirAllFrom w path (Dir cur) rest'
      else
        match resolve w false (childKey cur e) with
        | inr key =>
            match nodeAt (files w) key with
            | Some Directory => mkdirAllFrom w path key rest'
            | _ => (Some (PathError "mkdir" path ENOTDIR), w)
            end
        | inl ENOENT =>
            match nodeAt (files w) (childKey cur e) with
            | None =>
                mkdirAllFrom (withFiles w (<[childKey cur e := Directory]> (files w)))
                  path (childKey cur e) rest'
            | Some _ => (Some (PathError "mkdir" path EEXIST), w)
            end
        | inl en => (Some (PathError "mkdir" path en), w)
        end
  end.

Definition MkdirAll (w : World) (path : string) : option error * World :=
  mkdirAllFrom w path (keyOf (startOf w path))
    (List.filter keptElem (Split (Clean path) Separator)).

(** [key] names [top] or something below it. *)
Definition isUnder (key top : string) : bool :=
  String.eqb key top || HasPrefix key (childKey top "").

Definition deviceOf (w : World) (key : string) : list string :=
  List.filter (isUnder key) (mounts w).

Definition hasEntries (fs : gmap string node) (dir : string) : bool :=
  match entriesOf fs dir with [] => false | _ => true end.

Definition rekey (old new key : string) : string :=
  if isUnder key old then new +:+ dropN (String.length old) key else key.

Definition moveTree (fs : gmap string node) (old new : string) : gmap string node :=
  list_to_map
    (map (fun kn : string * node => (rekey old new kn.1, kn.2))
       (List.filter (fun kn : string * node => negb (isUnder kn.1 new)) (map_to_list fs))).

(** [os.Rename]: the link itself is moved, with all that is below it. *)
Definition Rename (w : World) (oldpath newpath : string) : option error * World :=
  let fail en := (Some (LinkError "rename" oldpath newpath en), w) in
  match resolveNoFollow w oldpath, resolveNoFollow w newpath with
  | inl en, _ => fail en
  | _, inl en => fail en
  | inr ok, inr nk =>
      match nodeAt (files w) ok with
      | None => fail ENOENT
      | Some on =>
          if String.eqb ok sep then fail EINVAL
          else if negb (bool_decide (deviceOf w ok = deviceOf w nk)) then fail EXDEV
          else if String.eqb ok nk then (None, w)
          else if isUnder nk ok then fail EINVAL
          else
            match nodeAt (files w) nk with
            | Some Directory =>
                if negb (isDirNode on) then fail EISDIR
                else if hasEntries (files w) nk then fail ENOTEMPTY
                else (None, withFiles w (moveTree (files w) ok nk))
            | Some _ =>
                if isDirNode on then fail ENOTDIR
                else (None, withFiles w (moveTree (files w) ok nk))
            | None => (None, withFiles w (moveTree (files w) ok nk))
            end
      end
  end.

(** [os.RemoveAll]: no error when there is nothing to remove. *)
Definition RemoveAll (w : World) (path : string) : option error * World :=
  match resolveNoFollow w path with
  | inl ENOENT => (None, w)
  | inl en => (Some (PathError "unlinkat" path en), w)
  | inr key =>
      if String.eqb key sep then (Some (PathError "unlinkat" path EINVAL), w)
      else (None, withFiles w (filter (fun kn : string * node => ¬ Is_true (isUnder kn.1 key)) (files w)))
  end.

(** [os.Open] for reading: directories open too, reading them fails. *)
Definition Open (w : World) (path : string) : result node :=
  match resolve w false path with
  | inl en => Err (PathError "open" path en)
  | inr key =>
      match nodeAt (files w) key with
      | Some n => Ok n
      | None => Err (PathError "open" path ENOENT)
      end
  end.

(** ** Package [security]: the path validator *)

Module Security.

Record PathValidator := mkPathValidator {
  allowedDirectories : list string
}.

(** Every allowed directory is cleaned once, at construction. *)
Definition NewPathValidator (allowedDirs : list string) : PathValidator :=
  mkPathValidator (map Clean allowedDirs).

Definition ExpandHomePath (w : World) (path : string) : string :=
  if String.eqb path "~" then
    match home w with
    | Some homeDir => homeDir
    | None => path
    end
  else if HasPrefix path "~/" then
    match home w with
    | Some homeDir => JoinPath [homeDir; dropN 2 path]
    | None => path
    end
  else path.

Definition isPathUnderDirectory (path dir : string) : bool :=
  match Rel dir path with
  | Some rel => negb (HasPrefix rel "..")
  | None => false
  end.

Definition isPathAllowed (pv : PathValidator) (absolutePath : string) : bool :=
  let normalizedPath := Clean absolutePath in
  existsb (fun allowedDir => isPathUnderDirectory normalizedPath allowedDir)
    (allowedDirectories pv).

Definition validateRealPath (pv : PathValidator) (w : World) (absolutePath : string)
  : result string :=
  match EvalSymlinks w absolutePath with
  | Err _ =>
      let parentDir := Dir absolutePath in
      match EvalSymlinks w parentDir with
      | Err _ => Err (ErrorString ("parent directory does not exist: " +:+ parentDir))
      | Ok realParentPath =>
          if negb (isPathAllowed pv realParentPath)
          then Err (ErrorString "access denied - parent directory outside allowed directories")
          else Ok absolutePath
      end
  | Ok realPath =>
      if negb (isPathAllowed pv realPath)
      then Err (ErrorString "access denied - symlink target outside allowed directories")
      else Ok realPath
  end.

Definition errOutside (absolutePath : string) : error :=
  ErrorString ("access denied - path outside allowed directories: " +:+ absolutePath).

Definition ValidatePath (pv : PathValidator) (w : World) (requestedPath : string)
  : result string :=
  if String.eqb requestedPath "" then Err (ErrorString "path cannot be empty")
  else
    let expandedPath := ExpandHomePath w requestedPath in
    let absolute :=
      if IsAbs expandedPath then Ok (Clean expandedPath)
      else match cwd w with
           | None => Err (Wrap "failed to get working directory: "
                            (PathError "getwd" "." ENOENT))
           | Some workDir => Ok (Clean (JoinPath [workDir; expandedPath]))
           end in
    match absolute with
    | Err e => Err e
    | Ok absolutePath =>
        if negb (isPathAllowed pv absolutePath) then Err (errOutside absolutePath)
        else validateRealPath pv w absolutePath
    end.

Definition GetAllowedDirectories (pv : PathValidator) : list string :=
  allowedDirectories pv.

End Security.

Import Security.

(** ** Effects

    An operation runs on the operating system and leaves a trace: the
    validator calls with their outcome, the engine methods entered, and the
    system calls the engine makes.  [None] means that the run left what is
    modelled (a library construct that is not modelled, or a walk that ran
    out of steps); it is no behaviour of the program. *)

Inductive Event :=
  | EvValidate (requested : string) (res : result string)
  | EvCall (method : string) (paths : list string)
  | EvSys (call : string) (path : string).

Record State := mkState {
  world : World;
  trace : list Event
}.

Definition M (A : Type) : Type := State -> option (A * State).

Definition ret {A : Type} (a : A) : M A := fun s => Some (a, s).

Definition bind {A B : Type} (m : M A) (k : A -> M B) : M B :=
  fun s => match m s with
           | Some (a, s') => k a s'
           | None => None
           end.

Notation "x <- m ;; k" := (bind m (fun x => k))
  (at level 100, m at next level, right associativity).
Notation "m ;;; k" := (bind m (fun _ => k))
  (at level 100, right associativity).

Definition stuck {A : Type} : M A := fun _ => None.

Definition getWorld : M World := fun s => Some (world s, s).

Definition liftOpt {A : Type} (o : option A) : M A :=
  fun s => match o with
           | Some a => Some (a, s)
           | None => None
           end.

Definition emit (e : Event) : M unit :=
  fun s => Some (tt, mkState (world s) (trace s ++ [e])).

(** A system call that only looks. *)
Definition sysRead {A : Type} (call path : string) (f : World -> A) : M A :=
  emit (EvSys call path) ;;;
  fun s => Some (f (world s), s).

(** A system call that may change the file system. *)
Definition sysWrite (call path : string) (f : World -> option error * World)
  : M (option error) :=
  emit (EvSys call path) ;;;
  fun s => let '(r, w') := f (world s) in Some (r, mkState w' (trace s)).

Definition validate (pv : PathValidator) (path : string) : M (result string) :=
  fun s =>
    let r := ValidatePath pv (world s) path in
    Some (r, mkState (world s) (trace s ++ [EvValidate path r])).

(** ** Package [doublestar]

    The library is not part of the repository.  What is written out here
    is its matching of plain patterns: ASCII patterns without character
    classes, alternatives and escapes, in which [?] stands for one rune,
    [*] for any runes within a path element, and [**] as a whole element
    for any number of elements.  Its answer for every other pattern is a
    parameter. *)

Module Doublestar.

Definition star : N := 42.
Definition question : N := 63.

(** One path element, rune by rune. *)
Fixpoint globElem (pat name : list N) : bool :=
  match pat with
  | [] => match name with [] => true | _ => false end
  | p :: pat' =>
      if (p =? star)%N then
        (fix rest (name : list N) : bool :=
           globElem pat' name ||
           match name with
           | [] => false
           | _ :: name' => rest name'
           end) name
      else
        match name with
        | [] => false
        | c :: name' => ((p =? question)%N || (p =? c)%N) && globElem pat' name'
        end
  end.

Fixpoint matchElems (pats names : list string) : bool :=
  match pats with
  | [] => match names with [] => true | _ => false end
  | p :: pats' =>
      if String.eqb p "**" then
        (fix skip (names : list string) : bool :=
           matchElems pats' names ||
           match names with
           | [] => false
           | _ :: names' => skip names'
           end) names
      else
        match names with
        | [] => false
        | n :: names' => globElem (Utf8.runes p) (Utf8.runes n) && matchElems pats' names'
        end
  end.

Definition plain (pattern : string) : bool :=
  isASCII pattern &&
  negb (Contains pattern "[" || Contains pattern "{" || Contains pattern "\").

Section Match.

(** [doublestar.Match] on the patterns that are not plain; [None] is its
    error. *)
Variable otherMatch : string -> string -> option bool.

(** [doublestar.Match(pattern, name)]; [None] is its error. *)
Definition Match (pattern name : string) : option bool :=
  if plain pattern
  then Some (matchElems (Split pattern Separator) (Split name Separator))
  else otherMatch pattern name.

End Match.

End Doublestar.

(** ** Package [filesystem]: the operation engine

    Logging is left out.  The text of a patch comes from the library
    [diffmatchpatch] and is a parameter. *)

Definition maxReadSize : Z := 1 * 1024 * 1024.

Definition maxTreeDepth : Z := 20.

Set Warnings "-register-all".

Inductive TreeEntry :=
  | mkTreeEntry (EntryName EntryType : string) (Children : option (list TreeEntry)).

Record EditOperation := mkEdit {
  OldText : string;
  NewText : string
}.

Record Operations := mkOperations {
  pathValidator : PathValidator
}.

Definition NewOperations (validator : PathValidator) : Operations :=
  mkOperations validator.

Definition errorf (msg : string) : error := ErrorString msg.

Definition ReadFile (ops : Operations) (filePath : string) : M (result string) :=
  emit (EvCall "ReadFile" [filePath]) ;;;
  if String.eqb filePath "" then ret (Err (errorf "file path cannot be empty"))
  else
    info <- sysRead "stat" filePath (fun w => Stat w filePath) ;;
    match info with
    | Err err => ret (Err (Wrap "failed to stat file: " err))
    | Ok info =>
        if (maxReadSize <? Size info)%Z
        then ret (Err (errorf "file exceeds maximum allowed size"))
        else
          data <- sysRead "readfile" filePath (fun w => ReadFileSys w filePath) ;;
          match data with
          | Err err => ret (Err (Wrap "failed to read file: " err))
          | Ok data => ret (Ok data)
          end
    end.

Fixpoint readEach (ops : Operations) (filePaths : list string) (results : list string)
  : M (list string) :=
  match filePaths with
  | [] => ret results
  | filePath :: rest =>
      r <- ReadFile ops filePath ;;
      match r with
      | Err err =>
          readEach ops rest (results ++ [filePath +:+ ": Error - " +:+ errorText err])
      | Ok content =>
          readEach ops rest (results ++ [filePath +:+ ":" +:+ nl +:+ content +:+ nl])
      end
  end.

Definition ReadMultipleFiles (ops : Operations) (filePaths : list string)
  : M (result string) :=
  emit (EvCall "ReadMultipleFiles" filePaths) ;;;
  match filePaths with
  | [] => ret (Err (errorf "no file paths provided"))
  | _ =>
      results <- readEach ops filePaths [] ;;
      ret (Ok (Join results (nl +:+ "---" +:+ nl)))
  end.

Definition WriteFile (ops : Operations) (filePath content : string) : M (option error) :=
  emit (EvCall "WriteFile" [filePath]) ;;;
  if String.eqb filePath "" then ret (Some (errorf "file path cannot be empty"))
  else
    err <- sysWrite "writefile" filePath (fun w => WriteFileSys w filePath content) ;;
    match err with
    | Some err => ret (Some (Wrap "failed to write file: " err))
    | None => ret None
    end.

Definition normalizeLineEndings (text : string) : string := ReplaceAllCRLF text.

(** The leftmost match of [^[ \t]*]. *)
Fixpoint extractIndentation (line : string) : string :=
  match line with
  | String a rest => if isBlank a then String a (extractIndentation rest) else EmptyString
  | EmptyString => EmptyString
  end.

Fixpoint linesMatchFrom (contentLines oldLines : list string) : bool :=
  match contentLines, oldLines with
  | c :: cs, o :: os =>
      if String.eqb (TrimSpace c) (TrimSpace o) then linesMatchFrom cs os else false
  | _, _ => true
  end.

Definition linesMatch (contentLines oldLines : list string) : bool :=
  if negb (length contentLines =? length oldLines)%nat then false
  else linesMatchFrom contentLines oldLines.

Definition setFirstLine (newLines : list string) (originalIndent : string) : list string :=
  match newLines with
  | first :: rest => (originalIndent +:+ TrimLeftBlank first) :: rest
  | [] => []
  end.

(** The search loop of [applyLineBasedEdit]: [i] is the loop index and
    [steps] the number of indices still to try. *)
Fixpoint searchLines (contentLines oldLines : list string) (newText : string)
    (i steps : nat) : option string :=
  match steps with
  | O => None
  | S steps' =>
      if linesMatch (take (length oldLines) (drop i contentLines)) oldLines then
        let newLines := Split newText LF in
        let newLines :=
          match contentLines !! i with
          | Some line => setFirstLine newLines (extractIndentation line)
          | None => newLines
          end in
        Some (Join (take i contentLines ++ newLines ++ drop (i + length oldLines) contentLines) nl)
      else searchLines contentLines oldLines newText (S i) steps'
  end.

Definition errNoMatchingLines : error :=
  errorf "could not find matching lines for edit".

Definition applyLineBasedEdit (content oldText newText : string) : result string :=
  let oldLines := Split oldText LF in
  let contentLines := Split content LF in
  match searchLines contentLines oldLines newText 0
          (S (length contentLines) - length oldLines) with
  | Some content' => Ok content'
  | None => Err errNoMatchingLines
  end.

(** The loop of [applyEdits]; [i] is the index of the first edit of [edits]. *)
Fixpoint applyEditsFrom (modifiedContent : string) (i : nat) (edits : list EditOperation)
  : result string :=
  match edits with
  | [] => Ok modifiedContent
  | edit :: rest =>
      let oldText := normalizeLineEndings (OldText edit) in
      let newText := normalizeLineEndings (NewText edit) in
      if Contains modifiedContent oldText
      then applyEditsFrom (Replace1 modifiedContent oldText newText) (S i) rest
      else
        match applyLineBasedEdit modifiedContent oldText newText with
        | Err err => Err (Wrap ("could not apply edit " +:+ pretty (i + 1)%nat +:+ ": ") err)
        | Ok content' => applyEditsFrom content' (S i) rest
        end
  end.

Definition applyEdits (content : string) (edits : list EditOperation) : result string :=
  applyEditsFrom (normalizeLineEndings content) 0 edits.

Definition backtick : string := "`".

(** The loop that looks for a fence longer than any run of backticks in the
    patch; it gives up above ten. *)
Fixpoint fenceFrom (patch : string) (steps numBackticks : nat) : nat :=
  match steps with
  | O => numBackticks
  | S steps' =>
      if Contains patch (Repeat backtick numBackticks) then
        if (10 <? S numBackticks)%nat then S numBackticks
        else fenceFrom patch steps' (S numBackticks)
      else numBackticks
  end.

Section Engine.

(** [dmp.PatchToText(dmp.PatchMake(original, dmp.DiffMain(original, modified, false)))] *)
Variable PatchText : string -> string -> string.

Definition createUnifiedDiff (original modified filename : string) : string :=
  let patch := PatchText original modified in
  let backticks := Repeat backtick (fenceFrom patch 8 3) in
  backticks +:+ "diff" +:+ nl +:+ patch +:+ backticks +:+ nl +:+ nl.

Definition EditFile (ops : Operations) (filePath : string) (edits : list EditOperation)
    (dryRun : bool) : M (result string) :=
  emit (EvCall "EditFile" [filePath]) ;;;
  if String.eqb filePath "" then ret (Err (errorf "file path cannot be empty"))
  else
    match edits with
    | [] => ret (Err (errorf "no edits provided"))
    | _ =>
        original <- ReadFile ops filePath ;;
        match original with
        | Err err => ret (Err err)
        | Ok originalContent =>
            match applyEdits originalContent edits with
            | Err err => ret (Err err)
            | Ok modifiedContent =>
                let diff := createUnifiedDiff originalContent modifiedContent filePath in
                if negb dryRun then
                  err <- WriteFile ops filePath modifiedContent ;;
                  match err with
                  | Some err => ret (Err err)
                  | None => ret (Ok diff)
                  end
                else ret (Ok diff)
            end
        end
    end.

End Engine.

Definition CreateDirectory (ops : Operations) (dirPath : string) : M (option error) :=
  emit (EvCall "CreateDirectory" [dirPath]) ;;;
  if String.eqb dirPath "" then ret (Some (errorf "directory path cannot be empty"))
  else
    err <- sysWrite "mkdirall" dirPath (fun w => MkdirAll w dirPath) ;;
    match err with
    | Some err => ret (Some (Wrap "failed to create directory: " err))
    | None => ret None
    end.

Definition listEntry (entry : OsInfo) : string :=
  (if IsDir entry then "[DIR]" else "[FILE]") +:+ " " +:+ Name entry.

Definition ListDirectory (ops : Operations) (dirPath : string) : M (result string) :=
  emit (EvCall "ListDirectory" [dirPath]) ;;;
  if String.eqb dirPath "" then ret (Err (errorf "directory path cannot be empty"))
  else
    entries <- sysRead "readdir" dirPath (fun w => ReadDir w dirPath) ;;
    match entries with
    | Err err => ret (Err (Wrap "failed to read directory: " err))
    | Ok entries => ret (Ok (Join (map listEntry entries) nl))
    end.

(** [filepath.Abs]. *)
Definition Abs (w : World) (path : string) : result string :=
  if IsAbs path then Ok (Clean path)
  else match cwd w with
       | Some wd => Ok (JoinPath [wd; path])
       | None => Err (PathError "getwd" "." ENOENT)
       end.

(** The loop over the entries of one directory; [recur] is the call of
    [buildTree] one level down. *)
Fixpoint treeEntries
    (recur : string -> gset string -> M (result (list TreeEntry) * gset string))
    (ops : Operations) (dirPath : string) (entries : list OsInfo)
    (acc : list TreeEntry) (visited : gset string)
  : M (result (list TreeEntry) * gset string) :=
  match entries with
  | [] => ret (Ok acc, visited)
  | entry :: rest =>
      if IsDir entry then
        let subPath := JoinPath [dirPath; Name entry] in
        v <- validate (pathValidator ops) subPath ;;
        match v with
        | Err _ => treeEntries recur ops dirPath rest acc visited
        | Ok validPath =>
            p <- recur validPath visited ;;
            let '(sub, visited') := p in
            let children := match sub with
                            | Err _ => []
                            | Ok children => children
                            end in
            treeEntries recur ops dirPath rest
              (acc ++ [mkTreeEntry (Name entry) "directory" (Some children)]) visited'
        end
      else
        treeEntries recur ops dirPath rest
          (acc ++ [mkTreeEntry (Name entry) "file" None]) visited
  end.

Definition errMaxDepth : error := errorf "maximum directory depth exceeded".

(** The key [buildTree] files a directory under: its path with the links
    resolved (the cleaned path when that fails), made absolute. *)
Definition realPathOf (w : World) (dirPath : string) : string :=
  let realPath := match EvalSymlinks w dirPath with
                  | Ok realPath => realPath
                  | Err _ => Clean dirPath
                  end in
  match Abs w realPath with
  | Ok abs => abs
  | Err _ => realPath
  end.

(** [visited] is the map the Go code shares between all calls of one tree
    build; it is passed in and handed back.  [fuel] bounds the nesting of
    calls, which the depth test bounds in the program. *)
Fixpoint buildTreeAux (fuel : nat) (ops : Operations) (dirPath : string)
    (visited : gset string) (depth : Z)
  : M (result (list TreeEntry) * gset string) :=
  match fuel with
  | O => stuck
  | S fuel' =>
      if (maxTreeDepth <? depth)%Z then ret (Err errMaxDepth, visited)
      else
        realPath <- sysRead "evalsymlinks" dirPath (fun w => realPathOf w dirPath) ;;
        if bool_decide (realPath ∈ visited) then ret (Ok [], visited)
        else
          let visited := {[realPath]} ∪ visited in
          entries <- sysRead "readdir" dirPath (fun w => ReadDir w dirPath) ;;
          match entries with
          | Err err => ret (Err (Wrap "failed to read directory: " err), visited)
          | Ok entries =>
              treeEntries (fun p v => buildTreeAux fuel' ops p v (depth + 1))
                ops dirPath entries [] visited
          end
  end.

(** The first call has depth 0 (the call in [DirectoryTree] leaves the
    argument out). *)
Definition buildTree (ops : Operations) (dirPath : string) (visited : gset string)
    (depth : Z) : M (result (list TreeEntry) * gset string) :=
  buildTreeAux (S (Z.to_nat (maxTreeDepth + 1 - depth))) ops dirPath visited depth.

(** [json.MarshalIndent(tree, "", "  ")] for a slice of [TreeEntry].  Bytes
    are escaped as Go does for ASCII; other bytes are copied. *)
Module Json.

Definition dquote : string := String (ascii_of_nat 34) EmptyString.
Definition backslash : string := String (ascii_of_nat 92) EmptyString.

Definition hexDigit (n : nat) : ascii :=
  if (n <? 10)%nat then ascii_of_nat (48 + n) else ascii_of_nat (87 + n).

Definition escapeByte (a : ascii) : string :=
  let n := nat_of_ascii a in
  let u := backslash +:+ "u00" +:+ String (hexDigit (n / 16)) (String (hexDigit (n mod 16)) "") in
  if (n =? 34)%nat then backslash +:+ dquote
  else if (n =? 92)%nat then backslash +:+ backslash
  else if (n =? 8)%nat then backslash +:+ "b"
  else if (n =? 12)%nat then backslash +:+ "f"
  else if (n =? 10)%nat then backslash +:+ "n"
  else if (n =? 13)%nat then backslash +:+ "r"
  else if (n =? 9)%nat then backslash +:+ "t"
  else if (n <? 32)%nat || (n =? 60)%nat || (n =? 62)%nat || (n =? 38)%nat then u
  else String a "".

Fixpoint escape (s : string) : string :=
  match s with
  | EmptyString => EmptyString
  | String a s' => escapeByte a +:+ escape s'
  end.

Definition quote (s : string) : string := dquote +:+ escape s +:+ dquote.

Definition field (indent key value : string) : string :=
  indent +:+ dquote +:+ key +:+ dquote +:+ ": " +:+ value.

Fixpoint marshalEntry (indent : string) (e : TreeEntry) {struct e} : string :=
  match e with
  | mkTreeEntry name type children =>
      let inner := indent +:+ "  " in
      let items :=
        fix items (cs : list TreeEntry) : string :=
          match cs with
          | [] => ""
          | [c] => inner +:+ "  " +:+ marshalEntry (inner +:+ "  ") c
          | c :: cs' =>
              inner +:+ "  " +:+ marshalEntry (inner +:+ "  ") c +:+ "," +:+ nl +:+ items cs'
          end in
      "{" +:+ nl +:+
      field inner "name" (quote name) +:+ "," +:+ nl +:+
      field inner "type" (quote type) +:+
      match children with
      | None => ""
      | Some [] => "," +:+ nl +:+ field inner "children" "[]"
      | Some cs =>
          "," +:+ nl +:+
          field inner "children" ("[" +:+ nl +:+ items cs +:+ nl +:+ inner +:+ "]")
      end +:+ nl +:+ indent +:+ "}"
  end.

Definition MarshalIndent (tree : list TreeEntry) : result string :=
  match tree with
  | [] => Ok "[]"
  | _ =>
      Ok ("[" +:+ nl +:+
          Join (map (fun e => "  " +:+ marshalEntry "  " e) tree) ("," +:+ nl) +:+
          nl +:+ "]")
  end.

End Json.

Definition DirectoryTree (ops : Operations) (dirPath : string) : M (result string) :=
  emit (EvCall "DirectoryTree" [dirPath]) ;;;
  if String.eqb dirPath "" then ret (Err (errorf "directory path cannot be empty"))
  else
    v <- validate (pathValidator ops) dirPath ;;
    match v with
    | Err err => ret (Err err)
    | Ok _ =>
        v <- validate (pathValidator ops) dirPath ;;
        match v with
        | Err err => ret (Err err)
        | Ok validPath =>
            p <- buildTree ops validPath ∅ 0 ;;
            let '(tree, _) := p in
            match tree with
            | Err err => ret (Err err)
            | Ok tree =>
                match Json.MarshalIndent tree with
                | Err err => ret (Err (Wrap "failed to create JSON tree: " err))
                | Ok jsonData => ret (Ok jsonData)
                end
            end
        end
    end.

(** ** [filepath.WalkDir]

    The walk function of the caller gets the value it accumulates passed in
    and hands it back (in Go it is a variable the closure captures).
    [fuel] bounds the nesting of directories. *)

Inductive walkRet :=
  | WalkNil
  | SkipDir
  | WalkErr (e : error).

Section Walk.

Context {A : Type}.
Variable fn : A -> string -> option OsInfo -> option error -> M (walkRet * A).

Fixpoint walkDir (fuel : nat) (acc : A) (path : string) (d : OsInfo)
  : M (walkRet * A) :=
  match fuel with
  | O => stuck
  | S fuel' =>
      p <- fn acc path (Some d) None ;;
      let '(r, acc) := p in
      match r, IsDir d with
      | WalkNil, true =>
          dirs <- sysRead "readdir" path (fun w => ReadDir w path) ;;
          match dirs with
          | Err err =>
              p <- fn acc path (Some d) (Some err) ;;
              let '(r, acc) := p in
              match r with
              | WalkErr e => ret (WalkErr e, acc)
              | _ => ret (WalkNil, acc)
              end
          | Ok dirs =>
              (fix each (dirs : list OsInfo) (acc : A) : M (walkRet * A) :=
                 match dirs with
                 | [] => ret (WalkNil, acc)
                 | d1 :: rest =>
                     p <- walkDir fuel' acc (JoinPath [path; Name d1]) d1 ;;
                     let '(r, acc) := p in
                     match r with
                     | WalkNil => each rest acc
                     | SkipDir => ret (WalkNil, acc)
                     | WalkErr e => ret (WalkErr e, acc)
                     end
                 end) dirs acc
          end
      | SkipDir, true => ret (WalkNil, acc)
      | _, _ => ret (r, acc)
      end
  end.

Definition WalkDir (fuel : nat) (acc : A) (root : string) : M (option error * A) :=
  info <- sysRead "lstat" root (fun w => Lstat w root) ;;
  p <- match info with
       | Err err => fn acc root None (Some err)
       | Ok info => walkDir fuel acc root info
       end ;;
  let '(r, acc) := p in
  match r with
  | WalkErr e => ret (Some e, acc)
  | _ => ret (None, acc)
  end.

End Walk.

(** Enough for any walk of a tree that the walk itself leaves alone. *)
Definition walkFuel (w : World) : nat := S (size (files w)).

Definition copyFile (src dst : string) : M (option error) :=
  err <- sysWrite "mkdirall" (Dir dst) (fun w => MkdirAll w (Dir dst)) ;;
  match err with
  | Some err => ret (Some err)
  | None =>
      input <- sysRead "open" src (fun w => Open w src) ;;
      match input with
      | Err err => ret (Some err)
      | Ok input =>
          err <- sysWrite "openfile" dst (fun w => WriteFileSys w dst "") ;;
          match err with
          | Some err => ret (Some err)
          | None =>
              match input with
              | File data => sysWrite "copy" dst (fun w => WriteFileSys w dst data)
              | _ => ret (Some (PathError "read" src EISDIR))
              end
          end
      end
  end.

Definition copyDirFn (srcDir dstDir : string) (acc : unit) (path : string)
    (d : option OsInfo) (err : option error) : M (walkRet * unit) :=
  match err, d with
  | Some err, _ => ret (WalkErr err, acc)
  | None, None => ret (WalkNil, acc)
  | None, Some d =>
      match Rel srcDir path with
      | None =>
          ret (WalkErr (errorf ("Rel: can't make " +:+ path +:+ " relative to " +:+ srcDir)), acc)
      | Some rel =>
          let target := JoinPath [dstDir; rel] in
          err <- (if IsDir d
                  then sysWrite "mkdirall" target (fun w => MkdirAll w target)
                  else copyFile path target) ;;
          match err with
          | Some err => ret (WalkErr err, acc)
          | None => ret (WalkNil, acc)
          end
      end
  end.

Definition copyDir (srcDir dstDir : string) : M (option error) :=
  w <- getWorld ;;
  p <- WalkDir (copyDirFn srcDir dstDir) (walkFuel w) tt srcDir ;;
  ret p.1.

Definition copyRecursive (src dst : string) : M (option error) :=
  info <- sysRead "stat" src (fun w => Stat w src) ;;
  match info with
  | Err err => ret (Some err)
  | Ok info => if IsDir info then copyDir src dst else copyFile src dst
  end.

Definition errDestinationExists : error := errorf "destination already exists".

Definition MoveFile (ops : Operations) (sourcePath destPath : string) : M (option error) :=
  emit (EvCall "MoveFile" [sourcePath; destPath]) ;;;
  if String.eqb sourcePath "" then ret (Some (errorf "source path cannot be empty"))
  else if String.eqb destPath "" then ret (Some (errorf "destination path cannot be empty"))
  else
    st <- sysRead "stat" destPath (fun w => Stat w destPath) ;;
    match st with
    | Ok _ => ret (Some errDestinationExists)
    | Err err =>
        if negb (IsNotExist err) then ret (Some (Wrap "failed to check destination: " err))
        else
          err <- sysWrite "rename" sourcePath (fun w => Rename w sourcePath destPath) ;;
          match err with
          | None => ret None
          | Some (LinkError _ _ _ EXDEV) =>
              copyErr <- copyRecursive sourcePath destPath ;;
              match copyErr with
              | Some copyErr => ret (Some (Wrap "failed to copy during move: " copyErr))
              | None =>
                  rmErr <- sysWrite "removeall" sourcePath (fun w => RemoveAll w sourcePath) ;;
                  match rmErr with
                  | Some rmErr => ret (Some (Wrap "failed to remove source after copy: " rmErr))
                  | None => ret None
                  end
              end
          | Some err => ret (Some (Wrap "failed to move file: " err))
          end
    end.

Section Search.

(** The two parts of the Go libraries that are taken as they come: the case
    tables of [unicode] and the matching of patterns that are not plain. *)
Variable unicodeLower : N -> N.
Variable otherMatch : string -> string -> option bool.

Fixpoint shouldExclude (relativePath : string) (excludePatterns : list string) : bool :=
  match excludePatterns with
  | [] => false
  | pattern :: rest =>
      let pattern := if negb (Contains pattern "*")
                     then "**/" +:+ pattern +:+ "/**"
                     else pattern in
      match Doublestar.Match otherMatch pattern relativePath with
      | Some true => true
      | _ => shouldExclude relativePath rest
      end
  end.

Definition searchFn (ops : Operations) (rootPath lowerPattern : string)
    (excludePatterns : list string) (results : list string) (path : string)
    (d : option OsInfo) (err : option error) : M (walkRet * list string) :=
  match err, d with
  | Some _, _ => ret (WalkNil, results)
  | None, None => ret (WalkNil, results)
  | None, Some d =>
      v <- validate (pathValidator ops) path ;;
      match v with
      | Err _ => ret (if IsDir d then SkipDir else WalkNil, results)
      | Ok _ =>
          if match Rel rootPath path with
             | Some relativePath => shouldExclude relativePath excludePatterns
             | None => false
             end
          then ret (if IsDir d then SkipDir else WalkNil, results)
          else
            let filename := ToLower unicodeLower (Name d) in
            if Contains filename lowerPattern then ret (WalkNil, results ++ [path])
            else ret (WalkNil, results)
      end
  end.

Definition SearchFiles (ops : Operations) (rootPath pattern : string)
    (excludePatterns : list string) : M (result (list string)) :=
  emit (EvCall "SearchFiles" [rootPath]) ;;;
  if String.eqb rootPath "" then ret (Err (errorf "root path cannot be empty"))
  else if String.eqb pattern "" then ret (Err (errorf "search pattern cannot be empty"))
  else
    let lowerPattern := ToLower unicodeLower pattern in
    w <- getWorld ;;
    p <- WalkDir (searchFn ops rootPath lowerPattern excludePatterns) (walkFuel w) [] rootPath ;;
    match p.1 with
    | Some err => ret (Err (Wrap "failed to search files: " err))
    | None => ret (Ok p.2)
    end.

End Search.

(** The fields of the result that the node decides; the three timestamps and
    the permission bits are outside the model of the operating system. *)
Record FileInfo := mkFileInfo {
  FileSize : Z;
  IsDirectory : bool;
  IsFile : bool
}.

Definition GetFileInfo (ops : Operations) (filePath : string) : M (result FileInfo) :=
  emit (EvCall "GetFileInfo" [filePath]) ;;;
  if String.eqb filePath "" then ret (Err (errorf "file path cannot be empty"))
  else
    st <- sysRead "stat" filePath (fun w => Stat w filePath) ;;
    match st with
    | Err err => ret (Err (Wrap "failed to get file info: " err))
    | Ok st => ret (Ok (mkFileInfo (Size st) (IsDir st) (IsRegular st)))
    end.

(** ** Package [handlers]: the tool handlers *)

Inductive jvalue :=
  | JNull
  | JBool (b : bool)
  | JNumber (n : Z)
  | JString (s : string)
  | JArray (l : list jvalue)
  | JObject (m : gmap string jvalue).

Record CallToolRequest := mkRequest {
  Arguments : option (gmap string jvalue)
}.

Record CallToolResult := mkToolResult {
  Text : string;
  IsError : bool
}.

Definition NewToolResultError (msg : string) : CallToolResult := mkToolResult msg true.
Definition NewToolResultText (msg : string) : CallToolResult := mkToolResult msg false.

Definition upperByte (a : ascii) : ascii :=
  let n := nat_of_ascii a in
  if ((97 <=? n)%nat && (n <=? 122)%nat)%bool then ascii_of_nat (n - 32) else a.

Definition isLetter (a : ascii) : bool :=
  let n := nat_of_ascii a in
  ((65 <=? n)%nat && (n <=? 90)%nat) || ((97 <=? n)%nat && (n <=? 122)%nat).

(** [strings.Title] on ASCII: the first letter of every word in upper case. *)
Fixpoint titleFrom (startOfWord : bool) (s : string) : string :=
  match s with
  | EmptyString => EmptyString
  | String a s' =>
      String (if startOfWord then upperByte a else a) (titleFrom (negb (isLetter a)) s')
  end.

Definition Title (s : string) : string := titleFrom true s.

Definition getArguments (req : CallToolRequest) : gmap string jvalue + CallToolResult :=
  match Arguments req with
  | None => inr (NewToolResultError "Invalid arguments format")
  | Some args => inl args
  end.

Definition requiredMsg (key : string) : CallToolResult :=
  NewToolResultError (Title key +:+ " parameter is required").

Definition getRequiredString (args : gmap string jvalue) (key : string)
  : string + CallToolResult :=
  match args !! key with
  | Some (JString val) => if negb (String.eqb val "") then inl val else inr (requiredMsg key)
  | _ => inr (requiredMsg key)
  end.

Definition nonEmptyStrings (raw : list jvalue) : list string :=
  omap (fun v => match v with
                 | JString s => if negb (String.eqb s "") then Some s else None
                 | _ => None
                 end) (take 100 raw).

Definition getRequiredStringSlice (args : gmap string jvalue) (key : string)
  : list string + CallToolResult :=
  match args !! key with
  | Some (JArray raw) =>
      match nonEmptyStrings raw with
      | [] => inr (requiredMsg key)
      | res => inl res
      end
  | _ => inr (requiredMsg key)
  end.

Definition getOptionalStringSlice (args : gmap string jvalue) (key : string) : list string :=
  match args !! key with
  | Some (JArray raw) =>
      omap (fun v => match v with JString s => Some s | _ => None end) (take 100 raw)
  | _ => []
  end.

Definition getOptionalBool (args : gmap string jvalue) (key : string) (defaultVal : bool) : bool :=
  match args !! key with
  | Some (JBool b) => b
  | _ => defaultVal
  end.

Definition getEditOperations (args : gmap string jvalue)
  : list EditOperation + CallToolResult :=
  match args !! "edits" with
  | Some (JArray raw) =>
      match omap (fun v => match v with
                           | JObject m =>
                               match m !! "oldText", m !! "newText" with
                               | Some (JString oldText), Some (JString newText) =>
                                   Some (mkEdit oldText newText)
                               | _, _ => None
                               end
                           | _ => None
                           end) (take 100 raw) with
      | [] => inr (NewToolResultError "No valid edits provided")
      | edits => inl edits
      end
  | _ => inr (NewToolResultError "Edits parameter is required")
  end.

Record ToolHandlers := mkToolHandlers {
  thValidator : PathValidator;
  fsOps : Operations
}.

Definition NewToolHandlers (pv : PathValidator) (ops : Operations) : ToolHandlers :=
  mkToolHandlers pv ops.

Definition errorResult (err : error) : CallToolResult :=
  NewToolResultError ("Error: " +:+ errorText err).

(** The opening every handler shares: the arguments, then the required
    string [key]. *)
Definition withPath (req : CallToolRequest) (key : string)
    (k : gmap string jvalue -> string -> M CallToolResult) : M CallToolResult :=
  match getArguments req with
  | inr errRes => ret errRes
  | inl args =>
      match getRequiredString args key with
      | inr errRes => ret errRes
      | inl path => k args path
      end
  end.

(** "Validate path security": the handler goes on with the validated path
    only. *)
Definition withValidPath (th : ToolHandlers) (path : string)
    (k : string -> M CallToolResult) : M CallToolResult :=
  v <- validate (thValidator th) path ;;
  match v with
  | Err err => ret (errorResult err)
  | Ok validPath => k validPath
  end.

Definition handleReadFile (th : ToolHandlers) (req : CallToolRequest) : M CallToolResult :=
  withPath req "path" (fun _ path =>
  withValidPath th path (fun validPath =>
    content <- ReadFile (fsOps th) validPath ;;
    match content with
    | Err err => ret (errorResult err)
    | Ok content => ret (NewToolResultText content)
    end)).

(** The loop "Validate each path" of [handleReadMultipleFiles]: a path that
    fails validation is appended as it came. *)
Fixpoint validateEach (th : ToolHandlers) (pathsSlice : list string) (paths : list string)
  : M (list string) :=
  match pathsSlice with
  | [] => ret paths
  | path :: rest =>
      v <- validate (thValidator th) path ;;
      match v with
      | Err _ => validateEach th rest (paths ++ [path])
      | Ok validPath => validateEach th rest (paths ++ [validPath])
      end
  end.

Definition handleReadMultipleFiles (th : ToolHandlers) (req : CallToolRequest)
  : M CallToolResult :=
  match getArguments req with
  | inr errRes => ret errRes
  | inl args =>
      match getRequiredStringSlice args "paths" with
      | inr errRes => ret errRes
      | inl pathsSlice =>
          paths <- validateEach th (take 100 pathsSlice) [] ;;
          match paths with
          | [] => ret (NewToolResultError "No valid paths provided")
          | _ =>
              content <- ReadMultipleFiles (fsOps th) paths ;;
              match content with
              | Err err => ret (errorResult err)
              | Ok content => ret (NewToolResultText content)
              end
          end
      end
  end.

Definition handleWriteFile (th : ToolHandlers) (req : CallToolRequest) : M CallToolResult :=
  withPath req "path" (fun args path =>
    match getRequiredString args "content" with
    | inr errRes => ret errRes
    | inl content =>
        withValidPath th path (fun validPath =>
          err <- WriteFile (fsOps th) validPath content ;;
          match err with
          | Some err => ret (errorResult err)
          | None => ret (NewToolResultText ("Successfully wrote to " +:+ path))
          end)
    end).

Definition handleCreateDirectory (th : ToolHandlers) (req : CallToolRequest)
  : M CallToolResult :=
  withPath req "path" (fun _ path =>
  withValidPath th path (fun validPath =>
    err <- CreateDirectory (fsOps th) validPath ;;
    match err with
    | Some err => ret (errorResult err)
    | None => ret (NewToolResultText ("Successfully created directory " +:+ path))
    end)).

Definition handleListDirectory (th : ToolHandlers) (req : CallToolRequest)
  : M CallToolResult :=
  withPath req "path" (fun _ path =>
  withValidPath th path (fun validPath =>
    listing <- ListDirectory (fsOps th) validPath ;;
    match listing with
    | Err err => ret (errorResult err)
    | Ok listing => ret (NewToolResultText listing)
    end)).

Definition handleDirectoryTree (th : ToolHandlers) (req : CallToolRequest)
  : M CallToolResult :=
  withPath req "path" (fun _ path =>
  withValidPath th path (fun validPath =>
    tree <- DirectoryTree (fsOps th) validPath ;;
    match tree with
    | Err err => ret (errorResult err)
    | Ok tree => ret (NewToolResultText tree)
    end)).

Definition handleMoveFile (th : ToolHandlers) (req : CallToolRequest) : M CallToolResult :=
  withPath req "source" (fun args source =>
    match getRequiredString args "destination" with
    | inr errRes => ret errRes
    | inl destination =>
        withValidPath th source (fun validSource =>
        withValidPath th destination (fun validDestination =>
          err <- MoveFile (fsOps th) validSource validDestination ;;
          match err with
          | Some err => ret (errorResult err)
          | None =>
              ret (NewToolResultText
                     ("Successfully moved " +:+ source +:+ " to " +:+ destination))
          end))
    end).

Definition handleSearchFiles (unicodeLower : N -> N)
    (otherMatch : string -> string -> option bool)
    (th : ToolHandlers) (req : CallToolRequest) : M CallToolResult :=
  withPath req "path" (fun args path =>
    match getRequiredString args "pattern" with
    | inr errRes => ret errRes
    | inl pattern =>
        let excludePatterns := getOptionalStringSlice args "excludePatterns" in
        withValidPath th path (fun validPath =>
          results <- SearchFiles unicodeLower otherMatch (fsOps th) validPath pattern
                       excludePatterns ;;
          match results with
          | Err err => ret (errorResult err)
          | Ok [] => ret (NewToolResultText "No matches found")
          | Ok results => ret (NewToolResultText (Join results nl))
          end)
    end).

Definition boolText (b : bool) : string := if b then "true" else "false".

(** [json.MarshalIndent(info, "", "  ")] for the fields that are modelled. *)
Definition marshalInfo (info : FileInfo) : result string :=
  Ok ("{" +:+ nl +:+
      Json.field "  " "size" (pretty (FileSize info)) +:+ "," +:+ nl +:+
      Json.field "  " "isDirectory" (boolText (IsDirectory info)) +:+ "," +:+ nl +:+
      Json.field "  " "isFile" (boolText (IsFile info)) +:+ nl +:+ "}").

Definition handleGetFileInfo (th : ToolHandlers) (req : CallToolRequest)
  : M CallToolResult :=
  withPath req "path" (fun _ path =>
  withValidPath th path (fun validPath =>
    info <- GetFileInfo (fsOps th) validPath ;;
    match info with
    | Err err => ret (errorResult err)
    | Ok info =>
        match marshalInfo info with
        | Err _ => ret (NewToolResultError "Failed to format file info")
        | Ok infoJSON => ret (NewToolResultText infoJSON)
        end
    end)).

Definition handleListAllowedDirectories (th : ToolHandlers) (req : CallToolRequest)
  : M CallToolResult :=
  let dirs := GetAllowedDirectories (thValidator th) in
  ret (NewToolResultText ("Allowed directories:" +:+ nl +:+ Join dirs nl)).

Section Handlers.

Variable PatchText : string -> string -> string.

Definition handleEditFile (th : ToolHandlers) (req : CallToolRequest) : M CallToolResult :=
  withPath req "path" (fun args path =>
    match getEditOperations args with
    | inr errRes => ret errRes
    | inl edits =>
        let dryRun := getOptionalBool args "dryRun" false in
        withValidPath th path (fun validPath =>
          diff <- EditFile PatchText (fsOps th) validPath edits dryRun ;;
          match diff with
          | Err err => ret (errorResult err)
          | Ok diff => ret (NewToolResultText diff)
          end)
    end).

End Handlers.

(** ** The two ways an edit can match, in the words of the specification *)

(** The whitespace-trimmed lines of [oldLines] are the trimmed content lines
    [i], [i+1], ... *)
Definition trimmedRunAt (contentLines oldLines : list string) (i : nat) : Prop :=
  i + length oldLines <= length contentLines /\
  map TrimSpace (take (length oldLines) (drop i contentLines)) = map TrimSpace oldLines.

(** [edit] matches [content] by exact substring or by a trimmed line run
    (line endings normalized, as [applyEdits] does before it compares). *)
Definition editMatches (content : string) (edit : EditOperation) : Prop :=
  let oldText := normalizeLineEndings (OldText edit) in
  Contains content oldText = true \/
  exists i, trimmedRunAt (Split content LF) (Split oldText LF) i.

(** ** The tools, as [RegisterTools] lists them *)

Inductive tool :=
  | ReadFileTool
  | ReadMultipleFilesTool
  | WriteFileTool
  | EditFileTool
  | CreateDirectoryTool
  | ListDirectoryTool
  | DirectoryTreeTool
  | MoveFileTool
  | SearchFilesTool
  | GetFileInfoTool
  | ListAllowedDirectoriesTool.

(** The handlers take what the program takes from libraries as it comes:
    the text of a patch, the case tables and the matching of patterns
    that are not plain. *)
Record Library := mkLibrary {
  PatchTextOf : string -> string -> string;
  unicodeLowerOf : N -> N;
  otherMatchOf : string -> string -> option bool
}.

Definition handlerOf (lib : Library) (t : tool)
  : ToolHandlers -> CallToolRequest -> M CallToolResult :=
  match t with
  | ReadFileTool => handleReadFile
  | ReadMultipleFilesTool => handleReadMultipleFiles
  | WriteFileTool => handleWriteFile
  | EditFileTool => handleEditFile (PatchTextOf lib)
  | CreateDirectoryTool => handleCreateDirectory
  | ListDirectoryTool => handleListDirectory
  | DirectoryTreeTool => handleDirectoryTree
  | MoveFileTool => handleMoveFile
  | SearchFilesTool => handleSearchFiles (unicodeLowerOf lib) (otherMatchOf lib)
  | GetFileInfoTool => handleGetFileInfo
  | ListAllowedDirectoriesTool => handleListAllowedDirectories
  end.

(** ** Reading a trace *)

Definition memberOf (l : list string) (p : string) : bool := existsb (String.eqb p) l.

(** The claim about the engine, read off a trace: before any system call
    the validator has been asked about every path in [paths]. *)
Fixpoint validatesFirst (paths seen : list string) (evs : list Event) : bool :=
  match evs with
  | [] => true
  | EvValidate requested _ :: rest => validatesFirst paths (requested :: seen) rest
  | EvCall _ _ :: rest => validatesFirst paths seen rest
  | EvSys _ _ :: rest => forallb (memberOf seen) paths && validatesFirst paths seen rest
  end.

(** What the handlers do: an engine method is entered only with paths the
    validator has returned ([validated] collects them), and there is no
    system call outside an engine method ([inCall]). *)
Fixpoint guardedFrom (validated : list string) (inCall : bool) (evs : list Event) : bool :=
  match evs with
  | [] => true
  | EvValidate _ (Ok validPath) :: rest => guardedFrom (validPath :: validated) inCall rest
  | EvValidate _ (Err _) :: rest => guardedFrom validated inCall rest
  | EvCall _ paths :: rest => forallb (memberOf validated) paths && guardedFrom validated true rest
  | EvSys _ _ :: rest => inCall && guardedFrom validated inCall rest
  end.

Definition guarded (evs : list Event) : bool := guardedFrom [] false evs.

Definition isValidation (e : Event) : bool :=
  match e with
  | EvValidate _ _ => true
  | _ => false
  end.

(** Every event a run of [m] adds to the trace satisfies [P]. *)
Definition emits {A : Type} (P : Event -> Prop) (m : M A) : Prop :=
  forall s a s', m s = Some (a, s') ->
    exists evs, trace s' = trace s ++ evs /\ Forall P evs.

(** The same for a run that starts with the event [e]. *)
Definition emitsAfter {A : Type} (e : Event) (P : Event -> Prop) (m : M A) : Prop :=
  forall s a s', m s = Some (a, s') ->
    exists evs, trace s' = trace s ++ e :: evs /\ Forall P evs.

(** An engine call on [args] leaves these events: no engine method is
    entered with other paths. *)
Definition withinCall (args : list string) (e : Event) : Prop :=
  match e with
  | EvCall _ paths => paths = args
  | _ => True
  end.

Definition silent (e : Event) : Prop := False.

(** A run of [m], started with [validated] already returned by the
    validator and outside any engine method, leaves a guarded trace. *)
Definition guardedRun {A : Type} (validated : list string) (m : M A) : Prop :=
  forall s a s', m s = Some (a, s') ->
    exists evs, trace s' = trace s ++ evs /\ guardedFrom validated false evs = true.

Definition ran {A : Type} (r : option (A * State)) : bool :=
  match r with
  | Some _ => true
  | None => false
  end.

Definition traceOf {A : Type} (r : option (A * State)) : list Event :=
  match r with
  | Some (_, s) => trace s
  | None => []
  end.

(** ** What a handler does with a refusal *)

(** The first refusal of the validator before the engine is entered, if
    there is one. *)
Fixpoint firstRefusal (evs : list Event) : option error :=
  match evs with
  | EvValidate _ (Err err) :: _ => Some err
  | EvValidate _ (Ok _) :: rest => firstRefusal rest
  | _ => None
  end.

(** The paths the validator is asked about, one after the other, before
    the engine is entered or the validator refuses. *)
Fixpoint askedFirst (evs : list Event) : list string :=
  match evs with
  | EvValidate requested (Ok _) :: rest => requested :: askedFirst rest
  | EvValidate requested (Err _) :: _ => [requested]
  | _ => []
  end.

Definition isCall (e : Event) : bool :=
  match e with
  | EvCall _ _ => true
  | _ => false
  end.

Definition entersEngine (evs : list Event) : bool := existsb isCall evs.

(** The arguments of a request that are paths (the paths of
    [read_multiple_files] come in an array). *)
Definition pathKeys (t : tool) : list string :=
  match t with
  | MoveFileTool => ["source"; "destination"]
  | ReadMultipleFilesTool => []
  | ListAllowedDirectoriesTool => []
  | _ => ["path"]
  end.

Definition pathArguments (t : tool) (req : CallToolRequest) : list string :=
  match Arguments req with
  | None => []
  | Some args =>
      omap (fun key => match args !! key with
                       | Some (JString path) => Some path
                       | _ => None
                       end) (pathKeys t)
  end.

(** A run of a handler whose path arguments still to be validated are
    [todo]: the validator is asked about them in order, as far as the
    handler gets; the engine is entered only after all of them; and a
    refusal is answered with the error result made of it, without the
    engine being entered and without any system call. *)
Definition handledRun (todo : list string) (m : M CallToolResult) : Prop :=
  forall s res s', m s = Some (res, s') ->
    exists evs,
      trace s' = trace s ++ evs /\
      (exists n, askedFirst evs = take n todo) /\
      (entersEngine evs = true -> askedFirst evs = todo) /\
      (forall err, firstRefusal evs = Some err ->
                   res = errorResult err /\ IsError res = true /\
                   entersEngine evs = false /\ forallb isValidation evs = true).

(** ** Which paths the engine reads *)

(** Every system call, those named in [exempt] apart, is made on a path
    that the validator was asked about and let through, or that it
    returned, earlier in the trace or before it ([validated]). *)
Fixpoint readsValidatedFrom (exempt validated : list string) (evs : list Event) : bool :=
  match evs with
  | [] => true
  | EvValidate requested (Ok validPath) :: rest =>
      readsValidatedFrom exempt (requested :: validPath :: validated) rest
  | EvSys call path :: rest =>
      (memberOf exempt call || memberOf validated path) &&
      readsValidatedFrom exempt validated rest
  | _ :: rest => readsValidatedFrom exempt validated rest
  end.

Definition readsValidated (exempt : list string) (evs : list Event) : bool :=
  readsValidatedFrom exempt [] evs.

(** The paths let through or returned by the end of [evs]. *)
Fixpoint validatedAfter (validated : list string) (evs : list Event) : list string :=
  match evs with
  | [] => validated
  | EvValidate requested (Ok validPath) :: rest =>
      validatedAfter (requested :: validPath :: validated) rest
  | _ :: rest => validatedAfter validated rest
  end.

(** A run of [m] that starts with the paths [need] let through. *)
Definition readsValidatedRun {A : Type} (exempt need : list string) (m : M A) : Prop :=
  forall validated,
    forallb (memberOf validated) need = true ->
    forall s a s', m s = Some (a, s') ->
      exists evs, trace s' = trace s ++ evs /\
                  readsValidatedFrom exempt validated evs = true.

(** ** The height of a tree: the number of levels of entries *)

Fixpoint entryHeight (e : TreeEntry) : nat :=
  match e with
  | mkTreeEntry _ _ None => 1
  | mkTreeEntry _ _ (Some children) => S (foldr Nat.max 0 (map entryHeight children))
  end.

Definition forestHeight (tree : list TreeEntry) : nat :=
  foldr Nat.max 0 (map entryHeight tree).

(** ** Containment, in the words of the specification *)

(** [path] is equal to [dir] or a path-separator-bounded descendant of it. *)
Definition isContained (path dir : string) : bool :=
  String.eqb path dir ||
  HasPrefix path (if String.eqb dir sep then sep else dir +:+ sep).

(** An ordinary path name element: not empty, not [.] or [..], without a
    separator.  A cleaned absolute path is [keyOf] of such elements. *)
Definition normalElem (e : string) : bool :=
  keptElem e && negb (String.eqb e "..") && negb (Contains e sep).

(** ** Package [main]: the directories of the command line *)

Record Config := mkConfig {
  AllowedDirectories : list string;
  LogLevel : string
}.

(** The loop of [validateCommandLineDirectories].  The slice of the
    configuration is updated in place: [checked] holds the entries already
    replaced by their absolute form, [rest] those still to come, and what
    was replaced stays replaced when a later entry fails. *)
Fixpoint validateDirsFrom (w : World) (checked rest : list string)
  : option error * list string :=
  match rest with
  | [] => (None, checked)
  | given :: rest' =>
      let dir := ExpandHomePath w given in
      match Abs w dir with
      | Err err =>
          (Some (Wrap ("failed to get absolute path for " +:+ dir +:+ ": ") err),
           checked ++ given :: rest')
      | Ok absDir =>
          match Stat w absDir with
          | Err err =>
              (Some (Wrap ("directory " +:+ absDir +:+ " is not accessible: ") err),
               checked ++ absDir :: rest')
          | Ok info =>
              if negb (IsDir info)
              then (Some (errorf ("path " +:+ absDir +:+ " is not a directory")),
                    checked ++ absDir :: rest')
              else validateDirsFrom w (checked ++ [absDir]) rest'
          end
      end
  end.

(** [cfg] is a pointer: [None] is nil.  The configuration comes back as the
    call leaves it. *)
Definition validateCommandLineDirectories (w : World) (cfg : option Config)
  : option error * option Config :=
  match cfg with
  | None => (Some (errorf "configuration is required"), None)
  | Some cfg =>
      match AllowedDirectories cfg with
      | [] => (Some (errorf "at least one directory must be specified"), Some cfg)
      | dirs =>
          let '(err, dirs') := validateDirsFrom w [] dirs in
          (err, Some (mkConfig dirs' (LogLevel cfg)))
      end
  end.

Definition getConfigSource (configPath : string) (args : list string) : string :=
  if negb (String.eqb configPath "") then "config_file"
  else match args with
       | _ :: _ => "command_line"
       | [] => "default"
       end.

(** ** Notions the properties are stated with *)

Definition errTooLarge : error := errorf "file exceeds maximum allowed size".

Definition errEdit (index : nat) : error :=
  Wrap ("could not apply edit " +:+ pretty index +:+ ": ") errNoMatchingLines.

Definition dots (brem : list string) : list string := map (fun _ => "..") brem.

Definition plainElem (e : string) : Prop := e <> "" /\ Contains e sep = false.

(** What the loop over the entries needs of the calls one level down: they
    return, leave the file system alone, only add to the visited set, and
    their trees have at most [h] levels. *)
Definition levelBelow (h : nat)
    (recur : string -> gset string -> M (result (list TreeEntry) * gset string)) : Prop :=
  forall p v s, exists r v' s',
    recur p v s = Some ((r, v'), s') /\ world s' = world s /\ v ⊆ v' /\
    (forall t, r = Ok t -> forestHeight t <= h).

Definition levelsLeft (depth : Z) : nat := Z.to_nat (maxTreeDepth + 1 - depth).

(** A run that a computation shows to end with a value. *)
Definition endsOk {A : Type} (r : option (result A * State)) : bool :=
  match r with
  | Some (Ok _, _) => true
  | _ => false
  end.

Definition treeOf (r : option ((result (list TreeEntry) * gset string) * State))
  : option (list TreeEntry) :=
  match r with
  | Some ((Ok tree, _), _) => Some tree
  | _ => None
  end.

(** A computation that leaves the file system as it found it. *)
Definition readOnly {A : Type} (m : M A) : Prop :=
  forall s a s', m s = Some (a, s') -> world s' = world s.

(** What the loop of [handleReadMultipleFiles] hands to the engine for
    [path]: the validated path, or the path as it came when the validator
    refuses it. *)
Definition passedOn (pv : PathValidator) (w : World) (path : string) : string :=
  match ValidatePath pv w path with
  | Ok validPath => validPath
  | Err _ => path
  end.

(** The name and the type of a tree entry, and what they are for a
    directory entry. *)
Definition entryLabel (e : TreeEntry) : string * string :=
  match e with
  | mkTreeEntry name type _ => (name, type)
  end.

Definition labelOf (entry : OsInfo) : string * string :=
  (Name entry, if IsDir entry then "directory" else "file").

(** A file has no list of children, a directory has one, at every level. *)
Fixpoint entryShape (e : TreeEntry) : bool :=
  match e with
  | mkTreeEntry _ type None => String.eqb type "file"
  | mkTreeEntry _ type (Some children) =>
      String.eqb type "directory" && forallb entryShape children
  end.

(** The entries of [dirPath] that [buildTree] puts into the tree: all but
    the directories that the validator refuses. *)
Definition listed (pv : PathValidator) (w : World) (dirPath : string) (entry : OsInfo)
  : bool :=
  negb (IsDir entry) ||
  match ValidatePath pv w (JoinPath [dirPath; Name entry]) with
  | Ok _ => true
  | Err _ => false
  end.

(** The directories named by [rest], one inside the other below [cur],
    are directories themselves, not links to them. *)
Fixpoint realDirFrom (fs : gmap string node) (cur rest : list string) : bool :=
  match rest with
  | [] => true
  | e :: rest' =>
      match nodeAt fs (keyOf (cur ++ [e])) with
      | Some Directory => realDirFrom fs (cur ++ [e]) rest'
      | _ => false
      end
  end.

Definition realDir (fs : gmap string node) (elems : list string) : bool :=
  realDirFrom fs [] elems.

(** ** Scenarios *)

(** [doubled n s] is [s] repeated [2^n] times. *)
Fixpoint doubled (n : nat) (s : string) : string :=
  match n with
  | O => s
  | S k => doubled k (s +:+ s)
  end.

Definition sandboxValidator : PathValidator := NewPathValidator ["/sandbox"].
Definition sandboxOps : Operations := NewOperations sandboxValidator.

(** A sandbox that holds one file, next to a directory outside of it. *)
Definition oneFileWorld (data : string) : World :=
  mkWorld (list_to_map [("/sandbox", Directory); ("/sandbox/big.txt", File data);
                        ("/etc", Directory); ("/etc/passwd", File "root")])
    (Some "/") None [].

(** The files of [TestMoveFileDestinationExists]. *)
Definition twoFilesWorld : World :=
  mkWorld (list_to_map [("/sandbox", Directory); ("/sandbox/src.txt", File "x");
                        ("/sandbox/dest.txt", File "y")])
    (Some "/") None [].

(** The file of the concrete scenario of the specification. *)
Definition helloWorld : World :=
  mkWorld (list_to_map [("/sandbox", Directory); ("/sandbox/a.txt", File "hello world")])
    (Some "/") None [].

(** An allowed directory with a file whose name starts with two dots, and
    a sibling directory whose name only starts like the allowed one. *)
Definition cacheWorld : World :=
  mkWorld (list_to_map [("/allowed", Directory); ("/allowed/..cache", File "data");
                        ("/allowed-evil", Directory); ("/other", Directory)])
    (Some "/") None [].

(** The directories of [TestDirectoryTreeSymlinkLoop]: a link below the
    root that points back to the root. *)
Definition loopWorld : World :=
  mkWorld (list_to_map [("/base", Directory); ("/base/sub", Directory);
                        ("/base/sub/loop", Symlink "/base")])
    (Some "/") None [].

Definition baseOps : Operations := NewOperations (NewPathValidator ["/base"]).

(** [n] directories, each inside the one before, the first inside [dir]. *)
Fixpoint chain (n : nat) (dir : string) (i : nat) : list (string * node) :=
  match n with
  | O => []
  | S k =>
      let d := dir +:+ "/d" +:+ pretty i in
      (d, Directory) :: chain k d (S i)
  end.

Fixpoint chainPath (n : nat) (dir : string) (i : nat) : string :=
  match n with
  | O => dir
  | S k => chainPath k (dir +:+ "/d" +:+ pretty i) (S i)
  end.

(** Twenty-two directories nested below [/base]: two more than the ceiling. *)
Definition deepWorld : World :=
  mkWorld (list_to_map (("/base", Directory) :: chain 22 "/base" 0)) (Some "/") None [].

(** The tree of the search scenario. *)
Definition searchWorld : World :=
  mkWorld (list_to_map [("/root", Directory); ("/root/foo.txt", File "x");
                        ("/root/dir1", Directory); ("/root/dir1/foo.txt", File "x");
                        ("/root/exclude", Directory); ("/root/exclude/foo.txt", File "x")])
    (Some "/") None [].

Definition rootOps : Operations := NewOperations (NewPathValidator ["/root"]).

(** A sandbox with a link whose target, outside of the sandbox, does not
    exist. *)
Definition danglingWorld : World :=
  mkWorld (list_to_map [("/sandbox", Directory); ("/sandbox/link", Symlink "/etc/cron");
                        ("/etc", Directory)])
    (Some "/") None [].

Definition writeRequest (path content : string) : CallToolRequest :=
  mkRequest (Some {[ "path" := JString path; "content" := JString content ]}).

(** The files of [TestMoveFileDestinationExists], with a link to nowhere
    in the place of the destination. *)
Definition linkDestWorld : World :=
  mkWorld (list_to_map [("/sandbox", Directory); ("/sandbox/src.txt", File "x");
                        ("/sandbox/dest.txt", Symlink "/sandbox/gone")])
    (Some "/") None [].

(** An allowed directory inside another one, with a file whose name starts
    with two dots. *)
Definition nestedWorld : World :=
  mkWorld (list_to_map [("/allowed", Directory); ("/allowed/sub", Directory);
                        ("/allowed/sub/..cache", File "data")])
    (Some "/") None [].

(** The files a run ends with. *)
Definition filesOf {A : Type} (r : option (A * State)) : gmap string node :=
  match r with
  | Some (_, s) => files (world s)
  | None => ∅
  end.

(** The libraries of the scenarios: the patch is the modified text, and
    nothing outside ASCII or the plain patterns is asked of them. *)
Definition plainLibrary : Library :=
  mkLibrary (fun _ modified => modified) (fun r => r) (fun _ _ => None).

(** The value a run ends with. *)
Definition valueOf {A : Type} (r : option (A * State)) : option A :=
  match r with
  | Some (a, _) => Some a
  | None => None
  end.

Definition sandboxHandlers : ToolHandlers := NewToolHandlers sandboxValidator sandboxOps.

Definition pathRequest (path : string) : CallToolRequest :=
  mkRequest (Some {[ "path" := JString path ]}).

Definition pathsRequest (paths : list string) : CallToolRequest :=
  mkRequest (Some {[ "paths" := JArray (map JString paths) ]}).

(** * Properties *)

(** ** Running the effects *)

Lemma bind_Some {A B : Type} (m : M A) (k : A -> M B) (s s1 : State) (a : A) :
  m s = Some (a, s1) -> bind m k s = k a s1.
Proof. intros H. unfold bind. rewrite H. reflexivity. Qed.

Lemma emit_run (e : Event) (s : State) :
  emit e s = Some (tt, mkState (world s) (trace s ++ [e])).
Proof. reflexivity. Qed.

Lemma sysRead_run {A : Type} (call path : string) (f : World -> A) (s : State) :
  sysRead call path f s
  = Some (f (world s), mkState (world s) (trace s ++ [EvSys call path])).
Proof. reflexivity. Qed.

Lemma sysWrite_run (call path : string) (f : World -> option error * World) (s : State) :
  sysWrite call path f s
  = Some ((f (world s)).1, mkState (f (world s)).2 (trace s ++ [EvSys call path])).
Proof. unfold sysWrite, bind. simpl. destruct (f (world s)); reflexivity. Qed.

Lemma validate_run (pv : PathValidator) (path : string) (s : State) :
  validate pv path s
  = Some (ValidatePath pv (world s) path,
          mkState (world s) (trace s ++ [EvValidate path (ValidatePath pv (world s) path)])).
Proof. reflexivity. Qed.

(** ** Reading *)

(** What [os.Stat] says of a path that [os.ReadFile] can read. *)
Lemma Stat_of_ReadFileSys (w : World) (path data : string) :
  ReadFileSys w path = Ok data ->
  exists info, Stat w path = Ok info /\ Size info = len data.
Proof.
  unfold ReadFileSys, Stat. destruct (resolve w false path) as [en|key]; [discriminate|].
  destruct (nodeAt (files w) key) as [[d| |t]|]; try discriminate.
  intros [= ->]. eexists. split; [reflexivity|]. reflexivity.
Qed.

(** [ReadFile] on a readable file: the size decides, nothing is changed. *)
Lemma ReadFileSys_nonempty (w : World) (path data : string) :
  ReadFileSys w path = Ok data -> path <> "".
Proof. intros H ->. discriminate. Qed.

Lemma ReadFile_readable (ops : Operations) (s : State) (filePath data : string) :
  ReadFileSys (world s) filePath = Ok data ->
  exists s', ReadFile ops filePath s
             = Some (if (maxReadSize <? len data)%Z then Err errTooLarge else Ok data, s')
             /\ world s' = world s.
Proof.
  intros Hread. pose proof (ReadFileSys_nonempty _ _ _ Hread) as Hne.
  destruct (Stat_of_ReadFileSys _ _ _ Hread) as (info & Hstat & Hsize).
  apply String.eqb_neq in Hne.
  unfold ReadFile. rewrite Hne.
  rewrite (bind_Some _ _ _ _ _ (emit_run _ _)).
  rewrite (bind_Some _ _ _ _ _ (sysRead_run _ _ _ _)). cbn [world trace].
  rewrite Hstat, Hsize.
  destruct (maxReadSize <? len data)%Z.
  - eexists. split; [reflexivity|]. reflexivity.
  - rewrite (bind_Some _ _ _ _ _ (sysRead_run _ _ _ _)). cbn [world trace].
    rewrite Hread. eexists. split; [reflexivity|]. reflexivity.
Qed.

(** C8: a file of exactly [maxReadSize] bytes (1 MiB) is read in full; with
    one byte more [ReadFile] fails with the size error and returns no
    content.  Neither call changes the file system. *)
Theorem C8_read_size_ceiling (ops : Operations) (s : State) (filePath data : string) :
  ReadFileSys (world s) filePath = Ok data ->
  maxReadSize = 1048576%Z /\
  (len data = maxReadSize ->
   exists s', ReadFile ops filePath s = Some (Ok data, s') /\ world s' = world s) /\
  (len data = (maxReadSize + 1)%Z ->
   exists s', ReadFile ops filePath s = Some (Err errTooLarge, s') /\ world s' = world s).
Proof.
  intros Hread.
  destruct (ReadFile_readable ops s filePath data Hread) as (s' & Hrun & Hw).
  split; [reflexivity|]. split; intros Hlen; exists s'; split; try assumption.
  - rewrite Hrun, Hlen. reflexivity.
  - rewrite Hrun, Hlen. reflexivity.
Qed.

Lemma oneFileWorld_read (data : string) :
  ReadFileSys (oneFileWorld data) "/sandbox/big.txt" = Ok data.
Proof. vm_compute. reflexivity. Qed.

Lemma doubled_20_len : len (doubled 20 "a") = maxReadSize.
Proof. vm_compute. reflexivity. Qed.

Lemma C8_read_size_ceiling_witness :
  exists s', ReadFile sandboxOps "/sandbox/big.txt" (mkState (oneFileWorld (doubled 20 "a")) [])
             = Some (Ok (doubled 20 "a"), s')
             /\ world s' = oneFileWorld (doubled 20 "a").
Proof.
  refine (proj1 (proj2 (C8_read_size_ceiling sandboxOps
            (mkState (oneFileWorld (doubled 20 "a")) []) "/sandbox/big.txt" (doubled 20 "a") _)) _).
  - apply oneFileWorld_read.
  - apply doubled_20_len.
Defined.

(** ** Writing *)

(** C2 (the code at the failing input): [WriteFile] has no size test.  For
    any ceiling [maxWriteSize], content longer than the ceiling is written
    like any other: the call reports no error and the file holds the
    content afterwards. *)
Theorem C2_write_has_no_ceiling (ops : Operations) (s : State)
    (filePath content key : string) (maxWriteSize : Z) :
  resolve (world s) true filePath = inr key ->
  nodeAt (files (world s)) key <> Some Directory ->
  (maxWriteSize < len content)%Z ->
  exists s', WriteFile ops filePath content s = Some (None, s')
             /\ files (world s') = <[key := File content]> (files (world s)).
Proof.
  intros Hres Hnode _.
  assert (Hne : String.eqb filePath "" = false).
  { apply String.eqb_neq. intros ->. discriminate. }
  unfold WriteFile. rewrite Hne.
  rewrite (bind_Some _ _ _ _ _ (emit_run _ _)).
  rewrite (bind_Some _ _ _ _ _ (sysWrite_run _ _ _ _)). cbn [world trace].
  unfold WriteFileSys. rewrite Hres.
  destruct (nodeAt (files (world s)) key) as [[d| |t]|] eqn:Hn;
    try (exfalso; apply Hnode; reflexivity);
    cbn; eexists; (split; [reflexivity|]); reflexivity.
Qed.

Lemma C2_write_has_no_ceiling_witness :
  exists s', WriteFile sandboxOps "/sandbox/too_big.txt" (doubled 20 "d" +:+ "d")
               (mkState (oneFileWorld "") []) = Some (None, s')
             /\ files (world s')
                = <["/sandbox/too_big.txt" := File (doubled 20 "d" +:+ "d")]>
                    (files (oneFileWorld "")).
Proof.
  apply (C2_write_has_no_ceiling sandboxOps (mkState (oneFileWorld "") [])
           "/sandbox/too_big.txt" (doubled 20 "d" +:+ "d") "/sandbox/too_big.txt" maxReadSize).
  - vm_compute. reflexivity.
  - vm_compute. discriminate.
  - vm_compute. reflexivity.
Defined.

(** ** Moving *)

Lemma Stat_nonempty (w : World) (path : string) (info : OsInfo) :
  Stat w path = Ok info -> path <> "".
Proof.
  intros H ->. unfold Stat, resolve in H. simpl in H. discriminate.
Qed.

(** C7 (the code at the failing input): [MoveFile] looks for the
    destination with [os.Stat], which follows links.  Where [os.Stat] finds
    the destination the call fails and nothing changes, as the claim says.
    A destination that is a link to nowhere exists ([os.Lstat] finds it),
    yet [os.Stat] reports that it does not: [MoveFile] renames, reports
    success, and the link is gone, replaced by the source. *)
Theorem C7_move_replaces_dangling_link :
  (forall ops s sourcePath destPath info,
     Stat (world s) destPath = Ok info ->
     exists err s',
       MoveFile ops sourcePath destPath s = Some (Some err, s') /\
       world s' = world s /\
       (sourcePath <> "" -> err = errDestinationExists)) /\
  Lstat linkDestWorld "/sandbox/dest.txt"
  = Ok (infoOf "dest.txt" (Symlink "/sandbox/gone")) /\
  Stat linkDestWorld "/sandbox/dest.txt"
  = Err (PathError "stat" "/sandbox/dest.txt" ENOENT) /\
  valueOf (MoveFile sandboxOps "/sandbox/src.txt" "/sandbox/dest.txt"
             (mkState linkDestWorld [])) = Some None /\
  filesOf (MoveFile sandboxOps "/sandbox/src.txt" "/sandbox/dest.txt"
             (mkState linkDestWorld [])) !! "/sandbox/dest.txt" = Some (File "x") /\
  filesOf (MoveFile sandboxOps "/sandbox/src.txt" "/sandbox/dest.txt"
             (mkState linkDestWorld [])) !! "/sandbox/src.txt" = None.
Proof.
  split.
  - intros ops s sourcePath destPath info Hstat.
    pose proof (Stat_nonempty _ _ _ Hstat) as Hdst. apply String.eqb_neq in Hdst.
    unfold MoveFile. rewrite (bind_Some _ _ _ _ _ (emit_run _ _)).
    destruct (String.eqb_spec sourcePath "") as [Hsrc|Hsrc].
    + eexists _, _. split; [reflexivity|]. split; [reflexivity | contradiction].
    + rewrite Hdst, (bind_Some _ _ _ _ _ (sysRead_run _ _ _ _)). cbn [world trace].
      rewrite Hstat. eexists _, _. split; [reflexivity|]. split; reflexivity.
  - vm_compute. repeat split; reflexivity.
Qed.

(** ** Editing *)

Lemma linesMatchFrom_spec (cs os : list string) :
  length cs = length os ->
  linesMatchFrom cs os = true <-> map TrimSpace cs = map TrimSpace os.
Proof.
  revert os. induction cs as [|c cs IH]; intros [|o os] Hlen; simpl in *; try discriminate.
  - split; reflexivity.
  - injection Hlen as Hlen. destruct (String.eqb_spec (TrimSpace c) (TrimSpace o)) as [He|He].
    + rewrite (IH os Hlen). split; [intros ->; rewrite He; reflexivity|].
      intros [= _ H]. exact H.
    + split; [discriminate|]. intros [= H _]. contradiction.
Qed.

Lemma linesMatch_spec (cs os : list string) :
  linesMatch cs os = true <->
  length cs = length os /\ map TrimSpace cs = map TrimSpace os.
Proof.
  unfold linesMatch. destruct (Nat.eqb_spec (length cs) (length os)) as [Hl|Hl]; simpl.
  - rewrite (linesMatchFrom_spec cs os Hl). tauto.
  - split; [discriminate|]. intros [H _]. contradiction.
Qed.

Lemma searchLines_none (cs os : list string) (newText : string) (steps i : nat) :
  (forall j, i <= j < i + steps ->
             linesMatch (take (length os) (drop j cs)) os = false) ->
  searchLines cs os newText i steps = None.
Proof.
  revert i. induction steps as [|steps IH]; intros i H; simpl; [reflexivity|].
  rewrite (H i) by lia. apply IH. intros j Hj. apply H. lia.
Qed.

(** No trimmed run anywhere: the line-based edit reports its error. *)
Lemma applyLineBasedEdit_no_run (content oldText newText : string) :
  (forall i, ~ trimmedRunAt (Split content LF) (Split oldText LF) i) ->
  applyLineBasedEdit content oldText newText = Err errNoMatchingLines.
Proof.
  intros Hno. unfold applyLineBasedEdit.
  rewrite searchLines_none; [reflexivity|].
  intros j Hj. destruct (linesMatch _ _) eqn:Hm; [|reflexivity].
  exfalso. apply (Hno j). apply linesMatch_spec in Hm as [_ Hm].
  split; [lia | exact Hm].
Qed.

Lemma applyEditsFrom_app (pre rest : list EditOperation) (content : string) (i : nat) :
  applyEditsFrom content i (pre ++ rest)
  = match applyEditsFrom content i pre with
    | Ok content' => applyEditsFrom content' (i + length pre) rest
    | Err e => Err e
    end.
Proof.
  revert content i. induction pre as [|e pre IH]; intros content i; simpl.
  - rewrite Nat.add_0_r. reflexivity.
  - destruct (Contains content (normalizeLineEndings (OldText e))).
    + rewrite IH. replace (S i + length pre) with (i + S (length pre)) by lia. reflexivity.
    + destruct (applyLineBasedEdit _ _ _); [|reflexivity].
      rewrite IH. replace (S i + length pre) with (i + S (length pre)) by lia. reflexivity.
Qed.

(** The edits before [edit] apply and give [ci]; [edit] matches [ci] in
    neither way: [applyEdits] fails and names the position of [edit]. *)
Lemma applyEdits_first_unmatched (content ci : string) (pre post : list EditOperation)
    (edit : EditOperation) :
  applyEdits content pre = Ok ci ->
  ~ editMatches ci edit ->
  applyEdits content (pre ++ edit :: post) = Err (errEdit (length pre + 1)).
Proof.
  unfold applyEdits. intros Hpre Hno.
  rewrite applyEditsFrom_app, Hpre. simpl.
  destruct (Contains ci (normalizeLineEndings (OldText edit))) eqn:Hc.
  - exfalso. apply Hno. left. exact Hc.
  - rewrite applyLineBasedEdit_no_run; [reflexivity|].
    intros i Hi. apply Hno. right. exists i. exact Hi.
Qed.

Section Editing.

Variable PatchText : string -> string -> string.

(** C6: the file can be read, the edits before [edit] apply, and [edit]
    matches neither by exact substring nor by a trimmed line run.  Then
    [EditFile] fails, whatever [dryRun] is, and the file system is left as
    it was.  For a file within the read ceiling the error names the
    position of [edit] (counted from one, as the message does); for a
    larger file it is the size error of [ReadFile]. *)
Theorem C6_edit_unmatched_aborts (ops : Operations) (s : State) (filePath : string)
    (pre post : list EditOperation) (edit : EditOperation) (dryRun : bool)
    (content ci : string) :
  ReadFileSys (world s) filePath = Ok content ->
  applyEdits content pre = Ok ci ->
  ~ editMatches ci edit ->
  exists s', EditFile PatchText ops filePath (pre ++ edit :: post) dryRun s
             = Some (Err (if (maxReadSize <? len content)%Z
                          then errTooLarge
                          else errEdit (length pre + 1)), s')
             /\ errorText (errEdit (length pre + 1))
                = ("could not apply edit " +:+ pretty (length pre + 1) +:+ ": ") +:+
                  "could not find matching lines for edit"
             /\ world s' = world s.
Proof.
  intros Hread Hpre Hno. pose proof (ReadFileSys_nonempty _ _ _ Hread) as Hne.
  destruct (ReadFile_readable ops (mkState (world s) (trace s ++ [EvCall "EditFile" [filePath]]))
              filePath content Hread) as (s1 & Hrun & Hw).
  pose proof (applyEdits_first_unmatched content ci pre post edit Hpre Hno) as Happly.
  apply String.eqb_neq in Hne.
  unfold EditFile. rewrite Hne.
  rewrite (bind_Some _ _ _ _ _ (emit_run _ _)).
  destruct (pre ++ edit :: post) eqn:Hedits; [destruct pre; discriminate|].
  rewrite (bind_Some _ _ _ _ _ Hrun).
  exists s1. split; [|split; [reflexivity | exact Hw]].
  destruct (maxReadSize <? len content)%Z; [reflexivity|]. rewrite Happly. reflexivity.
Qed.

End Editing.

Lemma C6_edit_unmatched_aborts_witness :
  exists s', EditFile (fun _ modified => modified) sandboxOps "/sandbox/a.txt"
               ([mkEdit "hello" "hi"] ++ mkEdit "hello" "x" :: []) false
               (mkState helloWorld [])
             = Some (Err (errEdit 2), s')
             /\ errorText (errEdit 2)
                = "could not apply edit 2: could not find matching lines for edit"
             /\ world s' = helloWorld.
Proof.
  apply (C6_edit_unmatched_aborts (fun _ modified => modified) sandboxOps
           (mkState helloWorld []) "/sandbox/a.txt" [mkEdit "hello" "hi"] []
           (mkEdit "hello" "x") false "hello world" "hi world").
  - vm_compute. reflexivity.
  - vm_compute. reflexivity.
  - intros [H | [i [Hle Heq]]].
    + vm_compute in H. discriminate.
    + destruct i; [vm_compute in Heq; discriminate |].
      change (S i + 1 <= 1) in Hle. lia.
Defined.

Lemma searchLines_found (cs os : list string) (newText : string) (j : nat) :
  linesMatch (take (length os) (drop j cs)) os = true ->
  forall steps i, i <= j < i + steps -> searchLines cs os newText i steps <> None.
Proof.
  intros Hm. induction steps as [|steps IH]; intros i Hi; [lia|].
  cbn [searchLines]. destruct (linesMatch (take (length os) (drop i cs)) os) eqn:Hi0;
    [discriminate|].
  apply IH. destruct (Nat.eq_dec i j) as [->|Hne]; [congruence | lia].
Qed.

(** Where the line-based edit reports its error there is no trimmed run. *)
Lemma no_run_of_error (content oldText newText : string) (err : error) :
  applyLineBasedEdit content oldText newText = Err err ->
  forall i, ~ trimmedRunAt (Split content LF) (Split oldText LF) i.
Proof.
  unfold applyLineBasedEdit. intros H i [Hle Heq].
  destruct (searchLines _ _ _ _ _) eqn:Hs; [discriminate H|].
  apply (searchLines_found (Split content LF) (Split oldText LF) newText i) in Hs;
    [exact Hs | | lia].
  apply linesMatch_spec. split; [|exact Heq].
  rewrite length_take, length_drop. lia.
Qed.

(** C6, the claim refuted: the file holds one byte more than the read
    ceiling and the edit matches in neither way, yet the error of
    [EditFile] is the size error, which names no edit. *)
Lemma C6_oversize_file_names_no_edit :
  ReadFileSys (oneFileWorld (doubled 20 "a" +:+ "a")) "/sandbox/big.txt"
  = Ok (doubled 20 "a" +:+ "a") /\
  applyEdits (doubled 20 "a" +:+ "a") [] = Ok (normalizeLineEndings (doubled 20 "a" +:+ "a")) /\
  ~ editMatches (normalizeLineEndings (doubled 20 "a" +:+ "a")) (mkEdit "b" "c") /\
  valueOf (EditFile (fun _ modified => modified) sandboxOps "/sandbox/big.txt"
             [mkEdit "b" "c"] false (mkState (oneFileWorld (doubled 20 "a" +:+ "a")) []))
  = Some (Err errTooLarge) /\
  errorText errTooLarge = "file exceeds maximum allowed size" /\
  (forall i, errTooLarge <> errEdit i).
Proof.
  split; [apply oneFileWorld_read|]. split; [reflexivity|].
  split.
  { assert (Hc : Contains (normalizeLineEndings (doubled 20 "a" +:+ "a")) "b" = false)
      by (vm_compute; reflexivity).
    assert (He : match applyLineBasedEdit (normalizeLineEndings (doubled 20 "a" +:+ "a"))
                         "b" "c" with
                 | Err _ => true
                 | Ok _ => false
                 end = true) by (vm_compute; reflexivity).
    intros [H|[i Hi]].
    - change (normalizeLineEndings (OldText (mkEdit "b" "c"))) with "b" in H. congruence.
    - change (normalizeLineEndings (OldText (mkEdit "b" "c"))) with "b" in Hi.
      destruct (applyLineBasedEdit _ "b" "c") as [t|err] eqn:Happly; [discriminate He|].
      exact (no_run_of_error _ _ _ _ Happly i Hi). }
  split; [vm_compute; reflexivity|]. split; [reflexivity|].
  intros i H. discriminate H.
Qed.

(** ** Facts about strings and paths *)

Lemma append_cons (a : ascii) (s t : string) : String a s +:+ t = String a (s +:+ t).
Proof. reflexivity. Qed.

Lemma append_nil_l (t : string) : "" +:+ t = t.
Proof. reflexivity. Qed.

Lemma append_nil_r (s : string) : s +:+ "" = s.
Proof. induction s as [|a s IH]; [reflexivity | rewrite append_cons, IH; reflexivity]. Qed.

Lemma append_assoc (a b c : string) : (a +:+ b) +:+ c = a +:+ (b +:+ c).
Proof. induction a as [|x a IH]; [reflexivity | rewrite !append_cons, IH; reflexivity]. Qed.

Lemma HasPrefix_cons (a b : ascii) (s p : string) :
  HasPrefix (String a s) (String b p) = Ascii.eqb b a && HasPrefix s p.
Proof.
  unfold HasPrefix. simpl. destruct (ascii_dec b a) as [->|Hne].
  - rewrite Ascii.eqb_refl. reflexivity.
  - apply Ascii.eqb_neq in Hne. rewrite Hne. reflexivity.
Qed.

Lemma HasPrefix_nil (s : string) : HasPrefix s "" = true.
Proof. destruct s; reflexivity. Qed.

Lemma HasPrefix_app (p r : string) : HasPrefix (p +:+ r) p = true.
Proof.
  induction p as [|a p IH]; [apply HasPrefix_nil|].
  rewrite append_cons, HasPrefix_cons, Ascii.eqb_refl, IH. reflexivity.
Qed.

Lemma HasPrefix_inv (s p : string) :
  HasPrefix s p = true -> exists r, s = p +:+ r.
Proof.
  revert s. induction p as [|b p IH]; intros s H.
  - exists s. reflexivity.
  - destruct s as [|a s]; [discriminate|].
    rewrite HasPrefix_cons in H. apply andb_prop in H as [Hab Hp].
    apply Ascii.eqb_eq in Hab as ->. destruct (IH s Hp) as [r ->].
    exists r. reflexivity.
Qed.

Lemma Contains_sep_cons (a : ascii) (s : string) :
  Contains (String a s) sep = Ascii.eqb a Separator || Contains s sep.
Proof.
  change (Contains (String a s) sep) with (HasPrefix (String a s) sep || Contains s sep).
  unfold sep at 1. rewrite HasPrefix_cons, HasPrefix_nil, andb_true_r.
  rewrite (Ascii.eqb_sym "/"%char a). reflexivity.
Qed.

Lemma Split_nonempty (s : string) (c : ascii) : Split s c <> [].
Proof.
  destruct s as [|a s]; simpl; [discriminate|].
  destruct (Ascii.eqb a c); [discriminate|]. destruct (Split s c); discriminate.
Qed.

Lemma Split_noSep (e : string) :
  Contains e sep = false -> Split e Separator = [e].
Proof.
  induction e as [|a e IH]; intros H; [reflexivity|].
  rewrite Contains_sep_cons in H. apply orb_false_elim in H as [Ha He].
  simpl. rewrite Ha, (IH He). reflexivity.
Qed.

Lemma Split_app (a b : string) :
  Split (a +:+ String Separator b) Separator = Split a Separator ++ Split b Separator.
Proof.
  induction a as [|x a IH]; [reflexivity|].
  rewrite append_cons. simpl.
  destruct (Ascii.eqb x Separator).
  - rewrite IH. reflexivity.
  - rewrite IH. destruct (Split a Separator) as [|y ys] eqn:Hs.
    + exfalso. exact (Split_nonempty _ _ Hs).
    + reflexivity.
Qed.

Lemma Split_elems_noSep (s : string) :
  Forall (fun e => Contains e sep = false) (Split s Separator).
Proof.
  induction s as [|a s IH]; simpl.
  - repeat constructor.
  - destruct (Ascii.eqb a Separator) eqn:Ha.
    + constructor; [reflexivity | exact IH].
    + destruct (Split s Separator) as [|y ys]; [repeat constructor|].
      * rewrite Contains_sep_cons, Ha. reflexivity.
      * inversion IH as [|? ? Hy Hys]; subst. constructor; [|exact Hys].
        rewrite Contains_sep_cons, Ha. exact Hy.
Qed.

Lemma Join_cons (x y : string) (l : list string) :
  Join (x :: y :: l) sep = x +:+ sep +:+ Join (y :: l) sep.
Proof. reflexivity. Qed.

Lemma Join_snoc (l : list string) (x : string) :
  l <> [] -> Join (l ++ [x]) sep = Join l sep +:+ sep +:+ x.
Proof.
  induction l as [|a l IH]; intros Hne; [contradiction|].
  destruct l as [|b l].
  - reflexivity.
  - change ((a :: b :: l) ++ [x]) with (a :: (b :: l) ++ [x]).
    simpl app. rewrite !Join_cons. change (b :: l ++ [x]) with ((b :: l) ++ [x]).
    rewrite IH by discriminate. rewrite !append_assoc. reflexivity.
Qed.

Lemma Join_app (l r : list string) :
  l <> [] -> r <> [] -> Join (l ++ r) sep = Join l sep +:+ sep +:+ Join r sep.
Proof.
  intros Hl Hr. induction l as [|a l IH]; [contradiction|].
  destruct l as [|b l].
  - destruct r; [contradiction|]. reflexivity.
  - change ((a :: b :: l) ++ r) with (a :: b :: (l ++ r)). rewrite !Join_cons.
    change (b :: l ++ r) with ((b :: l) ++ r). rewrite IH by discriminate.
    rewrite !append_assoc. reflexivity.
Qed.

Lemma Split_Join (l : list string) :
  l <> [] -> Forall (fun e => Contains e sep = false) l ->
  Split (Join l sep) Separator = l.
Proof.
  induction l as [|a l IH]; intros Hne Hall; [contradiction|].
  inversion Hall as [|? ? Ha Hl]; subst. destruct l as [|b l].
  - simpl. apply Split_noSep. exact Ha.
  - rewrite Join_cons. change (sep +:+ Join (b :: l) sep) with (String Separator (Join (b :: l) sep)).
    rewrite Split_app, (Split_noSep a Ha), IH by (discriminate || assumption). reflexivity.
Qed.

Lemma normalElem_inv (e : string) :
  normalElem e = true ->
  e <> "" /\ e <> "." /\ e <> ".." /\ Contains e sep = false.
Proof.
  unfold normalElem, keptElem. intros H.
  apply andb_prop in H as [H Hsep]. apply andb_prop in H as [H Hdd].
  apply andb_prop in H as [He Hd].
  apply negb_true_iff in Hsep, Hdd, He, Hd.
  apply String.eqb_neq in Hdd, He, Hd. auto.
Qed.

Lemma normalElem_kept (e : string) : normalElem e = true -> keptElem e = true.
Proof.
  unfold normalElem. intros H. apply andb_prop in H as [H _].
  apply andb_prop in H as [H _]. exact H.
Qed.

Lemma normal_noSep (l : list string) :
  Forall (fun e => normalElem e = true) l -> Forall (fun e => Contains e sep = false) l.
Proof.
  intros H. eapply Forall_impl; [exact H|].
  intros e He. apply normalElem_inv in He. tauto.
Qed.

Lemma filter_kept_normal (l : list string) :
  Forall (fun e => normalElem e = true) l -> List.filter keptElem l = l.
Proof.
  induction 1 as [|e l He _ IH]; [reflexivity|].
  simpl. rewrite (normalElem_kept e He), IH. reflexivity.
Qed.

Lemma cleanElems_plain (rooted : bool) (out l : list string) :
  Forall (fun e => normalElem e = true) l -> cleanElems rooted out l = rev out ++ l.
Proof.
  intros H. revert out. induction H as [|e l He _ IH]; intros out; simpl.
  - rewrite app_nil_r. reflexivity.
  - apply normalElem_inv in He as (_ & _ & Hdd & _). apply String.eqb_neq in Hdd.
    rewrite Hdd, IH. simpl. rewrite <- app_assoc. reflexivity.
Qed.

Lemma keyOf_cons (l : list string) : keyOf l = String Separator (Join l sep).
Proof. reflexivity. Qed.

Lemma Join_normal_nonempty (e : string) (l : list string) :
  e <> "" -> Join (e :: l) sep <> "".
Proof.
  intros He. destruct l as [|y l]; [exact He|].
  rewrite Join_cons. destruct e; [contradiction|]. rewrite append_cons. discriminate.
Qed.

Lemma Split_keyOf (l : list string) :
  Forall (fun e => normalElem e = true) l ->
  Split (keyOf l) Separator = "" :: match l with [] => [""] | _ => l end.
Proof.
  intros H. rewrite keyOf_cons.
  change (Split (String Separator (Join l sep)) Separator)
    with ("" :: Split (Join l sep) Separator).
  f_equal. destruct l as [|e l]; [reflexivity|].
  apply Split_Join; [discriminate | apply normal_noSep; exact H].
Qed.

Lemma keyOf_not_empty (l : list string) : String.eqb (keyOf l) "" = false.
Proof. reflexivity. Qed.

Lemma keyOf_abs (l : list string) : IsAbs (keyOf l) = true.
Proof. rewrite keyOf_cons. unfold IsAbs, sep. rewrite HasPrefix_cons, HasPrefix_nil. reflexivity. Qed.

(** A key is a cleaned path. *)
Lemma Clean_keyOf (l : list string) :
  Forall (fun e => normalElem e = true) l -> Clean (keyOf l) = keyOf l.
Proof.
  intros H. unfold Clean. rewrite keyOf_not_empty, keyOf_abs, (Split_keyOf l H).
  destruct l as [|e l].
  - reflexivity.
  - change (List.filter keptElem ("" :: e :: l)) with (List.filter keptElem (e :: l)).
    rewrite (filter_kept_normal _ H), (cleanElems_plain true [] _ H). reflexivity.
Qed.

Lemma trimTail_normal (l : list string) :
  Forall (fun e => normalElem e = true) l -> trimTail l = l.
Proof.
  induction 1 as [|e l He Hl IH]; [reflexivity|].
  destruct l as [|y l].
  - apply normalElem_inv in He as (He & _). apply String.eqb_neq in He.
    simpl. rewrite He. reflexivity.
  - change (trimTail (e :: y :: l)) with (e :: trimTail (y :: l)). rewrite IH. reflexivity.
Qed.

Lemma relElems_keyOf (l : list string) :
  Forall (fun e => normalElem e = true) l -> relElems (keyOf l) = "" :: l.
Proof.
  intros H. unfold relElems. rewrite keyOf_not_empty, (Split_keyOf l H).
  destruct l as [|e l]; [reflexivity|].
  rewrite (trimTail_normal _ H). reflexivity.
Qed.

Lemma dropCommon_spec (bs ts : list string) :
  exists common, bs = common ++ (dropCommon bs ts).1 /\ ts = common ++ (dropCommon bs ts).2 /\
    match (dropCommon bs ts).1, (dropCommon bs ts).2 with
    | b :: _, t :: _ => t <> b
    | _, _ => True
    end.
Proof.
  revert ts. induction bs as [|b bs IH]; intros ts.
  - exists []. simpl. auto.
  - destruct ts as [|t ts].
    + exists []. simpl. auto.
    + simpl. destruct (String.eqb_spec t b) as [->|Hne].
      * destruct (IH ts) as (c & Hb & Ht & Hd). exists (b :: c). simpl.
        rewrite <- Hb, <- Ht. auto.
      * exists []. simpl. auto.
Qed.

Lemma dropCommon_app (l r : list string) : dropCommon l (l ++ r) = ([], r).
Proof.
  induction l as [|a l IH]; simpl.
  - destruct r; reflexivity.
  - rewrite String.eqb_refl. exact IH.
Qed.

Lemma keyOf_inj (l1 l2 : list string) :
  Forall (fun e => normalElem e = true) l1 ->
  Forall (fun e => normalElem e = true) l2 ->
  keyOf l1 = keyOf l2 -> l1 = l2.
Proof.
  intros H1 H2 Heq.
  pose proof (relElems_keyOf l1 H1) as R1. pose proof (relElems_keyOf l2 H2) as R2.
  rewrite Heq in R1. rewrite R1 in R2. injection R2 as R2. exact R2.
Qed.

(** Two characters of a joined list come from its first element. *)
Lemma HasPrefix_Join_head (x : string) (l : list string) :
  HasPrefix (Join (x :: l) sep) ".." = HasPrefix x "..".
Proof.
  destruct l as [|y l]; [reflexivity|]. rewrite Join_cons.
  destruct x as [|a [|b x]].
  - reflexivity.
  - rewrite !append_cons, append_nil_l. unfold sep. rewrite append_cons.
    rewrite !HasPrefix_cons. simpl. rewrite andb_false_r. reflexivity.
  - rewrite !append_cons, !HasPrefix_cons, !HasPrefix_nil. reflexivity.
Qed.

(** [Rel] between two keys, on their elements. *)
Lemma Rel_keyOf (de pe : list string) :
  Forall (fun e => normalElem e = true) de ->
  Forall (fun e => normalElem e = true) pe ->
  Rel (keyOf de) (keyOf pe)
  = if bool_decide (pe = de) then Some "."
    else match (dropCommon de pe).1, (dropCommon de pe).2 with
         | b :: brem, t :: trem => Some (Join (dots (b :: brem) ++ t :: trem) sep)
         | b :: brem, [] => Some (Join (dots (b :: brem)) sep)
         | [], trem => Some (Join trem sep)
         end.
Proof.
  intros Hd Hp. unfold Rel. rewrite (Clean_keyOf de Hd), (Clean_keyOf pe Hp).
  case_bool_decide as Heq.
  - subst. rewrite String.eqb_refl. reflexivity.
  - destruct (String.eqb_spec (keyOf pe) (keyOf de)) as [Hk|Hk].
    { exfalso. apply Heq. apply keyOf_inj; assumption. }
    change (String.eqb (keyOf de) ".") with false. cbv iota.
    fold (IsAbs (keyOf de)). fold (IsAbs (keyOf pe)). rewrite !keyOf_abs. cbn [Bool.eqb negb].
    rewrite (relElems_keyOf de Hd), (relElems_keyOf pe Hp).
    change (dropCommon ("" :: de) ("" :: pe)) with (dropCommon de pe).
    destruct (dropCommon_spec de pe) as (c & Hde & Hpe & Hdiff).
    destruct (dropCommon de pe) as [brem trem]. simpl in *.
    destruct brem as [|b brem]; [reflexivity|].
    destruct trem as [|t trem]; [reflexivity|].
    assert (Hb : normalElem b = true).
    { rewrite Forall_forall in Hd. apply Hd. rewrite Hde. set_solver. }
    apply normalElem_inv in Hb as (_ & _ & Hb & _). apply String.eqb_neq in Hb.
    rewrite Hb. reflexivity.
Qed.

(** What the containment check of the code accepts, for cleaned absolute
    paths: the elements of the directory lead the elements of the path, and
    the first element below the directory, if there is one, does not start
    with two dots. *)
Lemma isPathUnderDirectory_keys (de pe : list string) :
  Forall (fun e => normalElem e = true) de ->
  Forall (fun e => normalElem e = true) pe ->
  isPathUnderDirectory (keyOf pe) (keyOf de) = true <->
  exists trem, pe = de ++ trem /\
               match trem with
               | [] => True
               | t :: _ => HasPrefix t ".." = false
               end.
Proof.
  intros Hd Hp. unfold isPathUnderDirectory. rewrite (Rel_keyOf de pe Hd Hp).
  case_bool_decide as Heq.
  - subst. split; [|reflexivity]. intros _. exists []. rewrite app_nil_r. auto.
  - destruct (dropCommon_spec de pe) as (c & Hde & Hpe & Hdiff).
    split.
    + destruct (dropCommon de pe) as [brem trem]. cbn [fst snd] in *.
      destruct brem as [|b brem].
      * rewrite app_nil_r in Hde. subst c. intros H. exists trem. split; [exact Hpe|].
        destruct trem as [|t trem]; [exact I|].
        rewrite HasPrefix_Join_head in H. apply negb_true_iff in H. exact H.
      * destruct trem as [|t trem]; intros H; unfold dots in H; cbn [map app] in H;
          rewrite HasPrefix_Join_head in H; discriminate.
    + intros (trem & Hpt & Hhd). subst pe. rewrite dropCommon_app. cbn [fst snd].
      destruct trem as [|t trem].
      * exfalso. apply Heq. rewrite app_nil_r. reflexivity.
      * rewrite HasPrefix_Join_head, Hhd. reflexivity.
Qed.

Lemma keyOf_not_root (e : string) (l : list string) :
  e <> "" -> String.eqb (keyOf (e :: l)) sep = false.
Proof.
  intros He. apply String.eqb_neq. rewrite keyOf_cons. unfold sep. intros [= H].
  exact (Join_normal_nonempty e l He H).
Qed.

Lemma keyOf_app (l r : list string) :
  l <> [] -> r <> [] -> keyOf (l ++ r) = (keyOf l +:+ sep) +:+ Join r sep.
Proof.
  intros Hl Hr. unfold keyOf. rewrite (Join_app l r Hl Hr), !append_assoc. reflexivity.
Qed.

(** Containment in the words of the specification, on the elements. *)
Lemma isContained_keys (de pe : list string) :
  Forall (fun e => normalElem e = true) de ->
  Forall (fun e => normalElem e = true) pe ->
  isContained (keyOf pe) (keyOf de) = true <-> exists trem, pe = de ++ trem.
Proof.
  intros Hd Hp. unfold isContained. split.
  - intros H. apply orb_prop in H as [H|H].
    + apply String.eqb_eq in H. apply keyOf_inj in H; [|assumption..].
      exists []. rewrite app_nil_r. exact H.
    + destruct de as [|e de]; [exists pe; reflexivity|].
      assert (He : e <> "").
      { apply Forall_cons in Hd as [He _]. apply normalElem_inv in He. tauto. }
      rewrite (keyOf_not_root e de He) in H.
      apply HasPrefix_inv in H as [r Hr].
      pose proof (Split_keyOf pe Hp) as Hs. rewrite Hr, append_assoc in Hs.
      change (sep +:+ r) with (String Separator r) in Hs.
      rewrite Split_app, (Split_keyOf _ Hd) in Hs. simpl in Hs. injection Hs as Hs.
      destruct pe as [|x pe].
      * exfalso. destruct (Split r Separator) eqn:Hsr; [exact (Split_nonempty _ _ Hsr)|].
        destruct de; discriminate.
      * exists (Split r Separator). symmetry. exact Hs.
  - intros [trem ->]. destruct trem as [|t trem].
    + rewrite app_nil_r, String.eqb_refl. reflexivity.
    + apply orb_true_intro. right. destruct de as [|e de].
      * change (String.eqb (keyOf []) sep) with true. cbv iota. apply keyOf_abs.
      * assert (He : e <> "").
        { apply Forall_cons in Hd as [He _]. apply normalElem_inv in He. tauto. }
        rewrite (keyOf_not_root e de He), keyOf_app by discriminate.
        apply HasPrefix_app.
Qed.

(** The code accepts no path that is not contained. *)
Lemma isPathUnderDirectory_keys_sound (de pe : list string) :
  Forall (fun e => normalElem e = true) de ->
  Forall (fun e => normalElem e = true) pe ->
  isPathUnderDirectory (keyOf pe) (keyOf de) = true ->
  isContained (keyOf pe) (keyOf de) = true.
Proof.
  intros Hd Hp H. apply (isContained_keys de pe Hd Hp).
  apply (isPathUnderDirectory_keys de pe Hd Hp) in H as (trem & Ht & _).
  exists trem. exact Ht.
Qed.

Lemma childKey_keyOf (de : list string) (name : string) :
  Forall (fun e => normalElem e = true) de ->
  childKey (keyOf de) name = keyOf (de ++ [name]).
Proof.
  intros Hd. unfold childKey. destruct de as [|e de]; [reflexivity|].
  assert (He : e <> "").
  { apply Forall_cons in Hd as [He _]. apply normalElem_inv in He. tauto. }
  rewrite (keyOf_not_root e de He), keyOf_app by discriminate. rewrite append_assoc. reflexivity.
Qed.

(** What the code does with a name that starts with two dots. *)
Lemma dotdot_name_not_under (de : list string) (name : string) :
  Forall (fun e => normalElem e = true) de ->
  normalElem name = true ->
  HasPrefix name ".." = true ->
  isPathUnderDirectory (keyOf (de ++ [name])) (keyOf de) = false.
Proof.
  intros Hd Hn Hdots. apply not_true_is_false. intros H.
  apply isPathUnderDirectory_keys in H as (trem & Ht & Hhd);
    [|assumption | apply Forall_app; split; [assumption | repeat constructor; assumption]].
  apply app_inv_head in Ht. subst trem. congruence.
Qed.

(** ** What [Clean] returns *)

Lemma filter_kept_Split (p : string) :
  Forall (fun e => keptElem e = true /\ Contains e sep = false)
    (List.filter keptElem (Split p Separator)).
Proof.
  pose proof (Split_elems_noSep p) as H. induction H as [|e l He _ IH]; simpl.
  - constructor.
  - destruct (keptElem e) eqn:Hk; [constructor; auto | exact IH].
Qed.

Lemma cleanElems_rooted_normal (out l : list string) :
  Forall (fun e => keptElem e = true /\ Contains e sep = false) l ->
  Forall (fun e => normalElem e = true) out ->
  Forall (fun e => normalElem e = true) (cleanElems true out l).
Proof.
  intros Hl. revert out. induction Hl as [|e l [Hk Hs] _ IH]; intros out Hout; simpl.
  - apply Forall_forall. intros x Hx. rewrite Forall_forall in Hout. apply Hout.
    apply list_elem_of_In. apply list_elem_of_In in Hx. apply in_rev. exact Hx.
  - destruct (String.eqb e "..") eqn:Hdd.
    + destruct out as [|top out]; [apply IH; constructor|].
      apply Forall_cons in Hout as [Htop Hout].
      pose proof Htop as Htop'. apply normalElem_inv in Htop' as (_ & _ & Htop' & _).
      apply String.eqb_neq in Htop'. rewrite Htop'. apply IH. exact Hout.
    + apply IH. constructor; [|exact Hout].
      unfold normalElem. rewrite Hk, Hdd, Hs. reflexivity.
Qed.

(** A cleaned absolute path is a key. *)
Lemma Clean_abs_key (p : string) :
  IsAbs p = true ->
  exists pe, Forall (fun e => normalElem e = true) pe /\ Clean p = keyOf pe.
Proof.
  intros Habs. unfold Clean. destruct (String.eqb_spec p "") as [->|_]; [discriminate|].
  rewrite Habs. eexists. split; [|reflexivity].
  apply cleanElems_rooted_normal; [apply filter_kept_Split | constructor].
Qed.

Lemma cleanElems_plain_elems (out l : list string) :
  Forall plainElem l -> Forall plainElem out ->
  Forall plainElem (cleanElems false out l).
Proof.
  intros Hl. revert out. induction Hl as [|e l He _ IH]; intros out Hout; simpl.
  - apply Forall_forall. intros x Hx. rewrite Forall_forall in Hout. apply Hout.
    apply list_elem_of_In. apply list_elem_of_In in Hx. apply in_rev. exact Hx.
  - destruct (String.eqb e "..") eqn:Hdd.
    + destruct out as [|top out]; [apply IH; repeat constructor; apply He|].
      destruct (String.eqb top "..").
      * apply IH. constructor; assumption.
      * apply IH. apply Forall_cons in Hout as [_ Hout]. exact Hout.
    + apply IH. constructor; assumption.
Qed.

Lemma plainElem_not_abs (e : string) (l : list string) :
  plainElem e -> IsAbs (Join (e :: l) sep) = false.
Proof.
  intros [Hne Hsep]. destruct e as [|a e]; [contradiction|].
  rewrite Contains_sep_cons in Hsep. apply orb_false_elim in Hsep as [Ha _].
  assert (Hj : exists r, Join (String a e :: l) sep = String a r).
  { destruct l; [eexists; reflexivity|]. rewrite Join_cons, append_cons. eexists. reflexivity. }
  destruct Hj as [r ->]. unfold IsAbs, sep. rewrite HasPrefix_cons.
  rewrite Ascii.eqb_sym. fold Separator. rewrite Ha. reflexivity.
Qed.

(** A cleaned relative path is relative. *)
Lemma Clean_rel_not_abs (p : string) : IsAbs p = false -> IsAbs (Clean p) = false.
Proof.
  intros Hrel. unfold Clean. destruct (String.eqb p ""); [reflexivity|].
  rewrite Hrel.
  pose proof (cleanElems_plain_elems [] (List.filter keptElem (Split p Separator))) as H.
  destruct (cleanElems false [] _) as [|e l]; [reflexivity|].
  apply plainElem_not_abs.
  assert (Hall : Forall plainElem (e :: l)).
  { apply H; [|constructor]. eapply Forall_impl; [apply filter_kept_Split|].
    intros x [Hk Hs]. split; [|exact Hs]. intros ->. discriminate. }
  apply Forall_cons in Hall as [He _]. exact He.
Qed.

(** The containment check never accepts an absolute path that the
    directory does not contain, whatever the directory is. *)
Lemma isPathUnderDirectory_sound (p d : string) :
  IsAbs p = true ->
  isPathUnderDirectory (Clean p) (Clean d) = true ->
  isContained (Clean p) (Clean d) = true.
Proof.
  intros Hp H. destruct (Clean_abs_key p Hp) as (pe & Hpe & Hcp). rewrite Hcp in *.
  destruct (IsAbs d) eqn:Hd.
  - destruct (Clean_abs_key d Hd) as (de & Hde & Hcd). rewrite Hcd in *.
    apply isPathUnderDirectory_keys_sound; assumption.
  - exfalso. unfold isPathUnderDirectory, Rel in H. rewrite (Clean_keyOf pe Hpe) in H.
    pose proof (Clean_rel_not_abs _ (Clean_rel_not_abs d Hd)) as Hb.
    destruct (String.eqb_spec (keyOf pe) (Clean (Clean d))) as [He|_].
    { rewrite <- He, keyOf_abs in Hb. discriminate. }
    fold (IsAbs (keyOf pe)) in H. rewrite keyOf_abs in H.
    destruct (String.eqb (Clean (Clean d)) ".").
    + change (HasPrefix "" sep) with false in H. simpl in H. discriminate.
    + fold (IsAbs (Clean (Clean d))) in H. rewrite Hb in H. simpl in H. discriminate.
Qed.

Lemma isPathAllowed_sound (dirs : list string) (p : string) :
  IsAbs p = true ->
  isPathAllowed (NewPathValidator dirs) p = true ->
  exists d, In d dirs /\ isContained (Clean p) (Clean d) = true.
Proof.
  intros Hp H. unfold isPathAllowed, NewPathValidator in H. simpl in H.
  apply existsb_exists in H as (cd & Hin & Hu).
  apply in_map_iff in Hin as (d & <- & Hin).
  exists d. split; [exact Hin|]. apply isPathUnderDirectory_sound; assumption.
Qed.

(** ** The containment check *)

(** C3 (the code at the failing input): [/allowed/..cache] is its own
    cleaned absolute form and a separator-bounded descendant of the allowed
    directory [/allowed], yet the containment check rejects it and
    [ValidatePath] answers "outside allowed directories".  The sibling
    [/allowed-evil] is rejected, as the claim says. *)
Theorem C3_containment_rejects_contained_path :
  Clean "/allowed/..cache" = "/allowed/..cache" /\
  isContained "/allowed/..cache" "/allowed" = true /\
  isPathUnderDirectory "/allowed/..cache" "/allowed" = false /\
  ValidatePath (NewPathValidator ["/allowed"]) cacheWorld "/allowed/..cache"
  = Err (errOutside "/allowed/..cache") /\
  isPathUnderDirectory "/allowed-evil" "/allowed" = false /\
  isContained "/allowed-evil" "/allowed" = false.
Proof. vm_compute. repeat split; reflexivity. Qed.

Lemma ExpandHomePath_abs (w : World) (p : string) :
  IsAbs p = true -> ExpandHomePath w p = p.
Proof.
  intros H. destruct p as [|a p]; [discriminate|].
  unfold IsAbs, sep in H. rewrite HasPrefix_cons in H. apply andb_prop in H as [Ha _].
  apply Ascii.eqb_eq in Ha. subst a. reflexivity.
Qed.




(** ** The directory tree *)

Lemma forestHeight_bound (tree : list TreeEntry) (h : nat) :
  Forall (fun e => entryHeight e <= h) tree -> forestHeight tree <= h.
Proof.
  unfold forestHeight. induction 1 as [|e l He _ IH]; simpl; lia.
Qed.

Lemma entryHeight_dir (name type : string) (children : list TreeEntry) :
  entryHeight (mkTreeEntry name type (Some children)) = S (forestHeight children).
Proof. reflexivity. Qed.

(** The loop always ends with a tree: a sub-build that fails leaves its
    directory with an empty list of children. *)
Lemma treeEntries_ok (h : nat)
    (recur : string -> gset string -> M (result (list TreeEntry) * gset string))
    (ops : Operations) (dirPath : string) (entries : list OsInfo) :
  levelBelow h recur ->
  forall (acc : list TreeEntry) (v : gset string) (s : State),
    Forall (fun e => entryHeight e <= S h) acc ->
    exists tree v' s',
      treeEntries recur ops dirPath entries acc v s = Some ((Ok tree, v'), s') /\
      world s' = world s /\ v ⊆ v' /\
      Forall (fun e => entryHeight e <= S h) tree.
Proof.
  intros Hrec. induction entries as [|entry rest IH]; intros acc v s Hacc.
  - exists acc, v, s. simpl. auto.
  - simpl. destruct (IsDir entry).
    + rewrite (bind_Some _ _ _ _ _ (validate_run _ _ _)).
      destruct (ValidatePath _ _ _) as [validPath|err].
      * destruct (Hrec validPath v
                    (mkState (world s)
                       (trace s ++ [EvValidate (JoinPath [dirPath; Name entry]) (Ok validPath)])))
          as (r & v1 & s1 & Hrun & Hw1 & Hv1 & Hh).
        rewrite (bind_Some _ _ _ _ _ Hrun).
        destruct (IH (acc ++ [mkTreeEntry (Name entry) "directory"
                                (Some match r with Err _ => [] | Ok children => children end)])
                    v1 s1) as (tree & v' & s' & Ht & Hw & Hv & Hhs).
        { apply Forall_app. split; [exact Hacc|]. constructor; [|constructor].
          rewrite entryHeight_dir.
          destruct r as [t|e]; [specialize (Hh t eq_refl); lia|].
          unfold forestHeight. simpl. lia. }
        exists tree, v', s'. rewrite Ht. repeat split; try assumption.
        -- rewrite Hw, Hw1. reflexivity.
        -- set_solver.
      * destruct (IH acc v (mkState (world s)
                              (trace s ++ [EvValidate (JoinPath [dirPath; Name entry]) (Err err)])))
          as (tree & v' & s' & Ht & Hw & Hv & Hhs); [exact Hacc|].
        exists tree, v', s'. rewrite Ht. auto.
    + destruct (IH (acc ++ [mkTreeEntry (Name entry) "file" None]) v s)
        as (tree & v' & s' & Ht & Hw & Hv & Hhs).
      { apply Forall_app. split; [exact Hacc|]. constructor; [|constructor]. simpl. lia. }
      exists tree, v', s'. rewrite Ht. auto.
Qed.

(** One call of [buildTree] with enough fuel: it returns and changes
    nothing; the depth error comes above the ceiling only; below it the
    directory is filed as visited, a visited directory gives the empty
    list, and a directory that can be read gives a tree. *)
Lemma buildTreeAux_spec (fuel : nat) :
  forall (depth : Z) (ops : Operations) (p : string) (v : gset string) (s : State),
    levelsLeft depth < fuel ->
    exists r v' s',
      buildTreeAux fuel ops p v depth s = Some ((r, v'), s') /\
      world s' = world s /\ v ⊆ v' /\
      (forall t, r = Ok t -> forestHeight t <= levelsLeft depth) /\
      (r = Err errMaxDepth -> (maxTreeDepth < depth)%Z) /\
      ((depth <= maxTreeDepth)%Z -> realPathOf (world s) p ∈ v') /\
      ((depth <= maxTreeDepth)%Z -> realPathOf (world s) p ∈ v -> r = Ok [] /\ v' = v) /\
      ((depth <= maxTreeDepth)%Z -> realPathOf (world s) p ∉ v ->
       forall entries, ReadDir (world s) p = Ok entries -> exists t, r = Ok t).
Proof.
  induction fuel as [|fuel IH]; intros depth ops p v s Hfuel; [lia|].
  simpl. destruct (Z.ltb_spec maxTreeDepth depth) as [Hdeep|Hin].
  - exists (Err errMaxDepth), v, s. repeat split; try reflexivity; try discriminate; try lia.
  - rewrite (bind_Some _ _ _ _ _ (sysRead_run _ _ _ _)). cbn [world trace].
    case_bool_decide as Hvis.
    + eexists (Ok []), v, _. repeat split; try reflexivity; try discriminate; auto.
      * intros t [= <-]. unfold forestHeight. simpl. lia.
      * intros _ Hnot. contradiction.
    + rewrite (bind_Some _ _ _ _ _ (sysRead_run _ _ _ _)). cbn [world trace].
      destruct (ReadDir (world s) p) as [entries|err].
      * assert (Hlevel : levelBelow (levelsLeft (depth + 1))
                           (fun p v => buildTreeAux fuel ops p v (depth + 1))).
        { intros p' v0 s0.
          destruct (IH (depth + 1)%Z ops p' v0 s0) as (r & v1 & s1 & Hrun & Hw & Hv & Hh & _).
          { unfold levelsLeft in *. unfold maxTreeDepth in *. lia. }
          exists r, v1, s1. auto. }
        destruct (treeEntries_ok _ _ ops p entries Hlevel [] ({[realPathOf (world s) p]} ∪ v)
                    (mkState (world s)
                       ((trace s ++ [EvSys "evalsymlinks" p]) ++ [EvSys "readdir" p])))
          as (tree & v' & s' & Ht & Hw & Hv & Hhs); [constructor|].
        exists (Ok tree), v', s'. rewrite Ht.
        split; [reflexivity|]. split; [exact Hw|]. split; [set_solver|].
        split; [|split; [discriminate|split; [intros _; set_solver|split]]].
        -- intros t [= <-]. apply forestHeight_bound in Hhs.
           unfold levelsLeft in *. unfold maxTreeDepth in *.
           replace (Z.to_nat (20 + 1 - depth)) with (S (Z.to_nat (20 + 1 - (depth + 1)))) by lia.
           exact Hhs.
        -- intros _ Hv0. contradiction.
        -- intros _ _ entries' _. eauto.
      * eexists (Err _), _, _.
        split; [reflexivity|]. split; [reflexivity|]. split; [set_solver|].
        split; [discriminate|]. split; [discriminate|].
        split; [intros _; set_solver|]. split.
        -- intros _ Hv0. contradiction.
        -- intros _ _ entries' Hce. discriminate.
Qed.

Lemma buildTree_spec (depth : Z) (ops : Operations) (p : string) (v : gset string) (s : State) :
  exists r v' s',
    buildTree ops p v depth s = Some ((r, v'), s') /\
    world s' = world s /\ v ⊆ v' /\
    (forall t, r = Ok t -> forestHeight t <= levelsLeft depth) /\
    (r = Err errMaxDepth -> (maxTreeDepth < depth)%Z) /\
    ((depth <= maxTreeDepth)%Z -> realPathOf (world s) p ∈ v') /\
    ((depth <= maxTreeDepth)%Z -> realPathOf (world s) p ∈ v -> r = Ok [] /\ v' = v) /\
    ((depth <= maxTreeDepth)%Z -> realPathOf (world s) p ∉ v ->
     forall entries, ReadDir (world s) p = Ok entries -> exists t, r = Ok t).
Proof. apply buildTreeAux_spec. unfold levelsLeft. lia. Qed.

(** C5: a root that the validator accepts and that can be listed: whatever
    links the tree below it holds, [DirectoryTree] returns a tree and no
    error, and changes nothing.  The set of visited real paths is handed
    from call to call and only grows; each directory that is looked at is
    filed in it, and a directory whose real path is in the set already
    gives the empty list of children without being read. *)
Theorem C5_tree_ends_without_error (ops : Operations) (s : State)
    (dirPath validPath : string) (entries : list OsInfo) :
  ValidatePath (pathValidator ops) (world s) dirPath = Ok validPath ->
  ReadDir (world s) validPath = Ok entries ->
  (exists jsonText s',
     DirectoryTree ops dirPath s = Some (Ok jsonText, s') /\ world s' = world s) /\
  (forall p visited depth s0 r v' s1,
     (depth <= maxTreeDepth)%Z ->
     buildTree ops p visited depth s0 = Some ((r, v'), s1) ->
     visited ⊆ v' /\ realPathOf (world s0) p ∈ v' /\
     (realPathOf (world s0) p ∈ visited ->
      r = Ok [] /\ v' = visited /\
      trace s1 = trace s0 ++ [EvSys "evalsymlinks" p])).
Proof.
  intros Hvalid Hread. split.
  - assert (Hne : String.eqb dirPath "" = false).
    { apply String.eqb_neq. intros ->. discriminate. }
    unfold DirectoryTree. rewrite Hne.
    rewrite (bind_Some _ _ _ _ _ (emit_run _ _)).
    rewrite (bind_Some _ _ _ _ _ (validate_run _ _ _)). cbn [world trace]. rewrite Hvalid.
    rewrite (bind_Some _ _ _ _ _ (validate_run _ _ _)). cbn [world trace]. rewrite Hvalid.
    match goal with
    | |- context [bind (buildTree ops validPath ∅ 0) _ ?s0] =>
        destruct (buildTree_spec 0 ops validPath ∅ s0)
          as (r & v' & s' & Hrun & Hw & _ & _ & _ & _ & _ & Hok)
    end.
    rewrite (bind_Some _ _ _ _ _ Hrun).
    destruct (Hok ltac:(unfold maxTreeDepth; lia) ltac:(set_solver) entries Hread) as [t ->].
    destruct (Json.MarshalIndent t) as [jsonData|err] eqn:Hjson.
    + exists jsonData, s'. split; [reflexivity | exact Hw].
    + destruct t; discriminate.
  - intros p visited depth s0 r v' s1 Hdepth Hrun.
    destruct (buildTree_spec depth ops p visited s0)
      as (r0 & v0 & s2 & Hrun0 & _ & Hsub & _ & _ & Hin & Hvis & _).
    rewrite Hrun in Hrun0. injection Hrun0 as -> -> ->.
    split; [exact Hsub|]. split; [exact (Hin Hdepth)|].
    intros Hseen. destruct (Hvis Hdepth Hseen) as [-> ->]. split; [reflexivity|].
    split; [reflexivity|].
    unfold buildTree in Hrun. simpl in Hrun.
    destruct (Z.ltb_spec maxTreeDepth depth) as [Hdeep|_]; [lia|].
    rewrite (bind_Some _ _ _ _ _ (sysRead_run _ _ _ _)) in Hrun. cbn [world trace] in Hrun.
    rewrite bool_decide_eq_true_2 in Hrun by exact Hseen.
    injection Hrun as <-. reflexivity.
Qed.

Lemma C5_tree_ends_without_error_witness :
  exists jsonText s',
    DirectoryTree baseOps "/base" (mkState loopWorld []) = Some (Ok jsonText, s') /\
    world s' = loopWorld.
Proof.
  refine (proj1 (C5_tree_ends_without_error baseOps (mkState loopWorld []) "/base" "/base"
                   [mkOsInfo "sub" 0 true false] _ _)).
  - vm_compute. reflexivity.
  - vm_compute. reflexivity.
Defined.

(** The tree of that scenario: the link is listed as a file and is not
    followed. *)
Example loop_tree :
  (fun r => r.1.1) <$> buildTree baseOps "/base" ∅ 0 (mkState loopWorld [])
  = Some (Ok [mkTreeEntry "sub" "directory" (Some [mkTreeEntry "loop" "file" None])]).
Proof. vm_compute. reflexivity. Qed.

Lemma ValidatePath_not_depth_error (pv : PathValidator) (w : World) (p : string) :
  ValidatePath pv w p <> Err errMaxDepth.
Proof.
  intros H. unfold ValidatePath, validateRealPath, errOutside, errMaxDepth, errorf in H.
  cbv zeta in H.
  repeat match type of H with
         | context [match ?x with _ => _ end] =>
             lazymatch x with
             | context [match _ with _ => _ end] => fail
             | _ => destruct x
             end
         end;
    try discriminate H; cbv [String.append] in H; discriminate H.
Qed.

Lemma endsOk_inv {A : Type} (r : option (result A * State)) :
  endsOk r = true -> exists a s', r = Some (Ok a, s').
Proof.
  destruct r as [[[a|e] s']|]; try discriminate. intros _. exists a, s'. reflexivity.
Qed.

Lemma treeOf_inv (r : option ((result (list TreeEntry) * gset string) * State))
    (tree : list TreeEntry) :
  treeOf r = Some tree -> exists v s', r = Some ((Ok tree, v), s').
Proof.
  destruct r as [[[[t|e] v] s']|]; try discriminate. intros [= ->]. exists v, s'. reflexivity.
Qed.

(** C4, the claim refuted: twenty-two directories nested below [/base].
    The root call returns a tree and no error; the tree has twenty-one
    levels, the last directory listed with no children. *)
Lemma C4_deep_tree_is_no_error :
  (exists info, Stat deepWorld (chainPath 22 "/base" 0) = Ok info /\ IsDir info = true) /\
  (exists jsonText s',
     DirectoryTree baseOps "/base" (mkState deepWorld []) = Some (Ok jsonText, s')) /\
  (exists tree v s',
     buildTree baseOps "/base" ∅ 0 (mkState deepWorld []) = Some ((Ok tree, v), s') /\
     forestHeight tree = 21).
Proof.
  split; [|split].
  - eexists. vm_compute. split; reflexivity.
  - apply endsOk_inv. vm_compute. reflexivity.
  - assert (Hh : forestHeight <$> treeOf (buildTree baseOps "/base" ∅ 0 (mkState deepWorld []))
                 = Some 21) by (vm_compute; reflexivity).
    destruct (treeOf _) as [tree|] eqn:Ht; [|discriminate].
    apply treeOf_inv in Ht as (v & s' & Ht). exists tree, v, s'.
    split; [exact Ht|]. injection Hh as Hh. exact Hh.
Qed.

(** C4, as the code has it: going too deep never fails the root call.  The
    call of [DirectoryTree] does not return the depth error; the tree built
    from depth 0 has at most twenty-one levels; a call above the ceiling
    does return the depth error without reading anything, and the loop over
    the entries turns that into an empty list of children. *)
Theorem C4_depth_truncates (ops : Operations) (dirPath : string) (s : State) :
  (forall res s', DirectoryTree ops dirPath s = Some (res, s') -> res <> Err errMaxDepth) /\
  (forall visited, exists r v s',
     buildTree ops dirPath visited 0 s = Some ((r, v), s') /\
     r <> Err errMaxDepth /\
     forall tree, r = Ok tree -> forestHeight tree <= 21) /\
  (forall fuel visited depth,
     (maxTreeDepth < depth)%Z ->
     buildTreeAux (S fuel) ops dirPath visited depth s = Some ((Err errMaxDepth, visited), s)) /\
  (forall fuel entry validPath visited,
     IsDir entry = true ->
     ValidatePath (pathValidator ops) (world s) (JoinPath [dirPath; Name entry]) = Ok validPath ->
     exists s',
       treeEntries (fun p v => buildTreeAux (S fuel) ops p v (maxTreeDepth + 1))
         ops dirPath [entry] [] visited s
       = Some ((Ok [mkTreeEntry (Name entry) "directory" (Some [])], visited), s')).
Proof.
  split; [|split; [|split]].
  - intros res s'. unfold DirectoryTree.
    rewrite (bind_Some _ _ _ _ _ (emit_run _ _)).
    destruct (String.eqb dirPath ""); [intros [= <- _]; discriminate|].
    rewrite (bind_Some _ _ _ _ _ (validate_run _ _ _)). cbn [world trace].
    destruct (ValidatePath (pathValidator ops) (world s) dirPath) as [v1|e1] eqn:Hv.
    2:{ intros [= <- _] Heq. apply (ValidatePath_not_depth_error (pathValidator ops) (world s) dirPath).
        rewrite Hv, Heq. reflexivity. }
    rewrite (bind_Some _ _ _ _ _ (validate_run _ _ _)). cbn [world trace]. rewrite Hv.
    match goal with
    | |- context [bind (buildTree ops v1 ∅ 0) _ ?s0] =>
        destruct (buildTree_spec 0 ops v1 ∅ s0)
          as (r & v' & s1 & Hrun & _ & _ & _ & Hdeep & _)
    end.
    rewrite (bind_Some _ _ _ _ _ Hrun).
    destruct r as [t|e].
    + destruct (Json.MarshalIndent t) eqn:Hj; intros [= <- _]; discriminate.
    + intros [= <- _] Heq. injection Heq as ->.
      specialize (Hdeep eq_refl). unfold maxTreeDepth in Hdeep. lia.
  - intros visited.
    destruct (buildTree_spec 0 ops dirPath visited s)
      as (r & v' & s1 & Hrun & _ & _ & Hh & Hdeep & _).
    exists r, v', s1. split; [exact Hrun|]. split.
    + intros Heq. specialize (Hdeep Heq). unfold maxTreeDepth in Hdeep. lia.
    + intros tree Ht. exact (Hh tree Ht).
  - intros fuel visited depth Hdeep. simpl.
    destruct (Z.ltb_spec maxTreeDepth depth) as [_|Hle]; [reflexivity | lia].
  - intros fuel entry validPath visited Hdir Hvalid. simpl. rewrite Hdir.
    rewrite (bind_Some _ _ _ _ _ (validate_run _ _ _)). cbn [world trace]. rewrite Hvalid.
    eexists. reflexivity.
Qed.

(** ** Searching *)


(** ** Who validates *)

Section Emits.

Context (P : Event -> Prop).

Lemma emits_ret {A : Type} (a : A) : emits P (ret a).
Proof.
  intros s a' s' [= <- <-]. exists []. rewrite app_nil_r. split; [reflexivity | constructor].
Qed.

Lemma emits_bind {A B : Type} (m : M A) (k : A -> M B) :
  emits P m -> (forall a, emits P (k a)) -> emits P (bind m k).
Proof.
  intros Hm Hk s b s' H. unfold bind in H.
  destruct (m s) as [[a s1]|] eqn:Hms; [|discriminate].
  destruct (Hm _ _ _ Hms) as (e1 & Ht1 & Hp1).
  destruct (Hk a _ _ _ H) as (e2 & Ht2 & Hp2).
  exists (e1 ++ e2). split; [rewrite Ht2, Ht1, app_assoc; reflexivity|].
  apply Forall_app. auto.
Qed.

Lemma emits_emit (e : Event) : P e -> emits P (emit e).
Proof.
  intros He s a s' [= _ <-]. exists [e]. split; [reflexivity|]. constructor; [exact He | constructor].
Qed.

Lemma emits_stuck {A : Type} : emits P (@stuck A).
Proof. intros s a s' H. discriminate. Qed.

Lemma emits_getWorld : emits P getWorld.
Proof.
  intros s a s' [= _ <-]. exists []. rewrite app_nil_r. split; [reflexivity | constructor].
Qed.

Lemma emits_liftOpt {A : Type} (o : option A) : emits P (liftOpt o).
Proof.
  intros s a s' H. unfold liftOpt in H. destruct o; [|discriminate].
  injection H as _ <-. exists []. rewrite app_nil_r. split; [reflexivity | constructor].
Qed.

Hypothesis P_sys : forall call path, P (EvSys call path).

Lemma emits_sysRead {A : Type} (call path : string) (f : World -> A) :
  emits P (sysRead call path f).
Proof.
  intros s a s' H. rewrite sysRead_run in H. injection H as _ <-.
  exists [EvSys call path]. split; [reflexivity|]. constructor; [apply P_sys | constructor].
Qed.

Lemma emits_sysWrite (call path : string) (f : World -> option error * World) :
  emits P (sysWrite call path f).
Proof.
  intros s a s' H. rewrite sysWrite_run in H. injection H as _ <-.
  exists [EvSys call path]. split; [reflexivity|]. constructor; [apply P_sys | constructor].
Qed.

End Emits.

Lemma emits_validate (P : Event -> Prop) (pv : PathValidator) (path : string) :
  (forall requested res, P (EvValidate requested res)) -> emits P (validate pv path).
Proof.
  intros HP s a s' H. rewrite validate_run in H. injection H as _ <-.
  eexists [_]. split; [reflexivity|]. constructor; [apply HP | constructor].
Qed.

Lemma emitsAfter_intro {A : Type} (e : Event) (P : Event -> Prop) (body : M A) :
  emits P body -> emitsAfter e P (emit e ;;; body).
Proof.
  intros Hb s a s' H. rewrite (bind_Some _ _ _ _ _ (emit_run _ _)) in H.
  destruct (Hb _ _ _ H) as (evs & Ht & Hp). exists evs. split; [|exact Hp].
  rewrite Ht. cbn [trace]. rewrite <- app_assoc. reflexivity.
Qed.

Lemma emitsAfter_emits {A : Type} (e : Event) (P : Event -> Prop) (m : M A) :
  P e -> emitsAfter e P m -> emits P m.
Proof.
  intros He Hm s a s' H. destruct (Hm _ _ _ H) as (evs & Ht & Hp).
  exists (e :: evs). split; [exact Ht|]. constructor; assumption.
Qed.

(** One step of a proof that a computation emits only events in [P]. *)
Ltac emits_step :=
  lazymatch goal with
  | |- emits _ (ret _) => apply emits_ret
  | |- emits _ stuck => apply emits_stuck
  | |- emits _ getWorld => apply emits_getWorld
  | |- emits _ (liftOpt _) => apply emits_liftOpt
  | |- emits _ (sysRead _ _ _) => apply emits_sysRead; assumption
  | |- emits _ (sysWrite _ _ _) => apply emits_sysWrite; assumption
  | |- emits _ (validate _ _) => apply emits_validate; assumption
  | |- emits _ (emit _) => apply emits_emit; solve [auto]
  | |- emits _ (bind _ _) => apply emits_bind; [|intros ?]
  | |- emits _ (match ?x with _ => _ end) => destruct x
  | |- emits _ (let _ := _ in _) => cbv zeta
  | |- emits _ ?m =>
      first [ assumption
            | match goal with H : context [emits _ _] |- _ => apply H end ]
  end.

Ltac emits_auto := repeat emits_step.

Section EngineEvents.

Context (P : Event -> Prop).
Hypothesis P_sys : forall call path, P (EvSys call path).

Lemma ReadFile_after (ops : Operations) (filePath : string) :
  emitsAfter (EvCall "ReadFile" [filePath]) P (ReadFile ops filePath).
Proof. apply emitsAfter_intro. emits_auto. Qed.

Lemma WriteFile_after (ops : Operations) (filePath content : string) :
  emitsAfter (EvCall "WriteFile" [filePath]) P (WriteFile ops filePath content).
Proof. apply emitsAfter_intro. emits_auto. Qed.

Lemma CreateDirectory_after (ops : Operations) (dirPath : string) :
  emitsAfter (EvCall "CreateDirectory" [dirPath]) P (CreateDirectory ops dirPath).
Proof. apply emitsAfter_intro. emits_auto. Qed.

Lemma ListDirectory_after (ops : Operations) (dirPath : string) :
  emitsAfter (EvCall "ListDirectory" [dirPath]) P (ListDirectory ops dirPath).
Proof. apply emitsAfter_intro. emits_auto. Qed.

Lemma GetFileInfo_after (ops : Operations) (filePath : string) :
  emitsAfter (EvCall "GetFileInfo" [filePath]) P (GetFileInfo ops filePath).
Proof. apply emitsAfter_intro. emits_auto. Qed.

Lemma EditFile_after (PatchText : string -> string -> string) (ops : Operations)
    (filePath : string) (edits : list EditOperation) (dryRun : bool) :
  P (EvCall "ReadFile" [filePath]) ->
  P (EvCall "WriteFile" [filePath]) ->
  emitsAfter (EvCall "EditFile" [filePath]) P (EditFile PatchText ops filePath edits dryRun).
Proof.
  intros Hr Hw. apply emitsAfter_intro.
  pose proof (emitsAfter_emits _ _ _ Hr (ReadFile_after ops filePath)) as Hread.
  assert (Hwrite : forall content, emits P (WriteFile ops filePath content)).
  { intros content. exact (emitsAfter_emits _ _ _ Hw (WriteFile_after ops filePath content)). }
  emits_auto.
Qed.

Lemma copyFile_emits (src dst : string) : emits P (copyFile src dst).
Proof. unfold copyFile. emits_auto. Qed.

Lemma walkDir_emits {A : Type}
    (fn : A -> string -> option OsInfo -> option error -> M (walkRet * A)) :
  (forall acc path d err, emits P (fn acc path d err)) ->
  forall fuel acc path d, emits P (walkDir fn fuel acc path d).
Proof.
  intros Hfn. induction fuel as [|fuel IH]; intros acc path d; simpl; [apply emits_stuck|].
  apply emits_bind; [apply Hfn|]. intros [r acc1].
  destruct r; destruct (IsDir d); try apply emits_ret.
  apply emits_bind; [apply emits_sysRead; assumption|]. intros [dirs|err].
  - revert acc1. induction dirs as [|d1 rest IHd]; intros acc1; [apply emits_ret|].
    apply emits_bind; [apply IH|]. intros [r2 acc2]. destruct r2; try apply emits_ret.
    apply IHd.
  - apply emits_bind; [apply Hfn|]. intros [r2 acc2]. destruct r2; apply emits_ret.
Qed.

Lemma WalkDir_emits {A : Type}
    (fn : A -> string -> option OsInfo -> option error -> M (walkRet * A)) :
  (forall acc path d err, emits P (fn acc path d err)) ->
  forall fuel acc root, emits P (WalkDir fn fuel acc root).
Proof.
  intros Hfn fuel acc root. unfold WalkDir.
  apply emits_bind; [apply emits_sysRead; assumption|]. intros info.
  apply emits_bind.
  - destruct info; [apply walkDir_emits; exact Hfn | apply Hfn].
  - intros [r acc1]. destruct r; apply emits_ret.
Qed.

Lemma copyDirFn_emits (srcDir dstDir : string) (acc : unit) (path : string)
    (d : option OsInfo) (err : option error) :
  emits P (copyDirFn srcDir dstDir acc path d err).
Proof.
  unfold copyDirFn. pose proof copyFile_emits as Hc. emits_auto.
Qed.

Lemma copyRecursive_emits (src dst : string) : emits P (copyRecursive src dst).
Proof.
  unfold copyRecursive, copyDir. pose proof copyFile_emits as Hc.
  pose proof (WalkDir_emits (copyDirFn src dst) (copyDirFn_emits src dst)) as Hw.
  emits_auto.
Qed.

Lemma MoveFile_after (ops : Operations) (sourcePath destPath : string) :
  emitsAfter (EvCall "MoveFile" [sourcePath; destPath]) P (MoveFile ops sourcePath destPath).
Proof.
  apply emitsAfter_intro. pose proof (copyRecursive_emits sourcePath destPath) as Hc.
  emits_auto.
Qed.

Hypothesis P_validate : forall requested res, P (EvValidate requested res).

Lemma treeEntries_emits
    (recur : string -> gset string -> M (result (list TreeEntry) * gset string))
    (ops : Operations) (dirPath : string) :
  (forall p v, emits P (recur p v)) ->
  forall entries acc visited, emits P (treeEntries recur ops dirPath entries acc visited).
Proof.
  intros Hrec. induction entries as [|entry rest IH]; intros acc visited; simpl.
  - apply emits_ret.
  - destruct (IsDir entry); [|apply IH].
    apply emits_bind; [apply emits_validate; assumption|]. intros [validPath|err]; [|apply IH].
    apply emits_bind; [apply Hrec|]. intros [sub visited']. apply IH.
Qed.

Lemma buildTreeAux_emits (ops : Operations) :
  forall fuel dirPath visited depth, emits P (buildTreeAux fuel ops dirPath visited depth).
Proof.
  induction fuel as [|fuel IH]; intros dirPath visited depth; simpl; [apply emits_stuck|].
  pose proof (fun entries acc v =>
                treeEntries_emits (fun p v => buildTreeAux fuel ops p v (depth + 1)) ops dirPath
                  (fun p v => IH p v (depth + 1)%Z) entries acc v) as Hloop.
  emits_auto.
Qed.

Lemma DirectoryTree_after (ops : Operations) (dirPath : string) :
  emitsAfter (EvCall "DirectoryTree" [dirPath]) P (DirectoryTree ops dirPath).
Proof.
  apply emitsAfter_intro.
  pose proof (fun p v d => buildTreeAux_emits ops (S (Z.to_nat (maxTreeDepth + 1 - d))) p v d)
    as Hb.
  unfold buildTree. emits_auto.
Qed.

Lemma searchFn_emits (unicodeLower : N -> N) (otherMatch : string -> string -> option bool)
    (ops : Operations) (rootPath lowerPattern : string)
    (excludePatterns results : list string) (path : string)
    (d : option OsInfo) (err : option error) :
  emits P (searchFn unicodeLower otherMatch ops rootPath lowerPattern excludePatterns results
             path d err).
Proof. unfold searchFn. emits_auto. Qed.

Lemma SearchFiles_after (unicodeLower : N -> N)
    (otherMatch : string -> string -> option bool)
    (ops : Operations) (rootPath pattern : string) (excludePatterns : list string) :
  emitsAfter (EvCall "SearchFiles" [rootPath]) P
    (SearchFiles unicodeLower otherMatch ops rootPath pattern excludePatterns).
Proof.
  apply emitsAfter_intro.
  pose proof (fun fuel acc root =>
                WalkDir_emits
                  (searchFn unicodeLower otherMatch ops rootPath
                     (ToLower unicodeLower pattern) excludePatterns)
                  (searchFn_emits unicodeLower otherMatch ops rootPath
                     (ToLower unicodeLower pattern) excludePatterns)
                  fuel acc root) as Hw.
  emits_auto.
Qed.

End EngineEvents.

Lemma memberOf_cons (v p : string) (validated : list string) :
  memberOf validated p = true -> memberOf (v :: validated) p = true.
Proof. unfold memberOf. simpl. intros ->. apply orb_true_r. Qed.

Lemma forallb_memberOf_cons (v : string) (validated args : list string) :
  forallb (memberOf validated) args = true -> forallb (memberOf (v :: validated)) args = true.
Proof.
  induction args as [|p args IH]; cbn [forallb]; [reflexivity|].
  intros H. apply andb_prop in H as [Hp Hargs].
  rewrite (memberOf_cons v p validated Hp), (IH Hargs). reflexivity.
Qed.

(** Inside an engine call on validated paths every event is in order. *)
Lemma guardedFrom_inCall (args : list string) (evs : list Event) :
  Forall (withinCall args) evs ->
  forall validated,
    forallb (memberOf validated) args = true ->
    guardedFrom validated true evs = true.
Proof.
  induction 1 as [|e evs He _ IH]; intros validated Hargs; [reflexivity|].
  destruct e as [requested [validPath|err]|method paths|call path]; simpl.
  - apply IH. apply forallb_memberOf_cons. exact Hargs.
  - apply IH. exact Hargs.
  - simpl in He. subst paths. rewrite Hargs. apply IH. exact Hargs.
  - apply IH. exact Hargs.
Qed.

Lemma guardedRun_ret {A : Type} (validated : list string) (a : A) :
  guardedRun validated (ret a).
Proof.
  intros s a' s' [= <- <-]. exists []. rewrite app_nil_r. split; reflexivity.
Qed.

(** An engine method entered with validated paths, and a reply made of its
    result. *)
Lemma guardedRun_call {A B : Type} (validated args : list string) (method : string)
    (m : M A) (k : A -> M B) :
  emitsAfter (EvCall method args) (withinCall args) m ->
  (forall a, emits silent (k a)) ->
  forallb (memberOf validated) args = true ->
  guardedRun validated (bind m k).
Proof.
  intros Hm Hk Hargs s b s' H. unfold bind in H.
  destruct (m s) as [[a s1]|] eqn:Hms; [|discriminate].
  destruct (Hm _ _ _ Hms) as (evs & Ht & Hp).
  destruct (Hk a _ _ _ H) as (evs2 & Ht2 & Hp2).
  destruct evs2 as [|e evs2]; [|apply Forall_cons in Hp2 as [[] _]].
  rewrite app_nil_r in Ht2. exists (EvCall method args :: evs).
  split; [rewrite Ht2; exact Ht|].
  cbn [guardedFrom]. rewrite Hargs. apply (guardedFrom_inCall args evs Hp validated Hargs).
Qed.

Lemma guardedRun_withValidPath (validated : list string) (th : ToolHandlers) (path : string)
    (k : string -> M CallToolResult) :
  (forall validPath, guardedRun (validPath :: validated) (k validPath)) ->
  guardedRun validated (withValidPath th path k).
Proof.
  intros Hk s a s' H. unfold withValidPath in H.
  rewrite (bind_Some _ _ _ _ _ (validate_run _ _ _)) in H.
  destruct (ValidatePath (thValidator th) (world s) path) as [validPath|err] eqn:Hv.
  - destruct (Hk validPath _ _ _ H) as (evs & Ht & Hg).
    exists (EvValidate path (Ok validPath) :: evs). split.
    + rewrite Ht. cbn [trace]. rewrite <- app_assoc. reflexivity.
    + exact Hg.
  - injection H as _ <-. exists [EvValidate path (Err err)]. split; reflexivity.
Qed.

Lemma guardedRun_withPath (validated : list string) (req : CallToolRequest) (key : string)
    (k : gmap string jvalue -> string -> M CallToolResult) :
  (forall args path, guardedRun validated (k args path)) ->
  guardedRun validated (withPath req key k).
Proof.
  intros Hk. unfold withPath.
  destruct (getArguments req) as [args|errRes]; [|apply guardedRun_ret].
  destruct (getRequiredString args key) as [path|errRes]; [apply Hk | apply guardedRun_ret].
Qed.

Lemma withinCall_sys (args : list string) (call path : string) :
  withinCall args (EvSys call path).
Proof. exact I. Qed.

Lemma withinCall_validate (args : list string) (requested : string) (res : result string) :
  withinCall args (EvValidate requested res).
Proof. exact I. Qed.

Lemma memberOf_head (v : string) (validated : list string) :
  memberOf (v :: validated) v = true.
Proof. unfold memberOf. simpl. rewrite String.eqb_refl. reflexivity. Qed.

(** The reply of a handler is made without further events. *)
Ltac reply_silent :=
  intros ?;
  repeat lazymatch goal with
         | |- emits _ (ret _) => apply emits_ret
         | |- emits _ (match ?x with _ => _ end) => destruct x
         end.

Ltac one_path_handler method_after :=
  apply guardedRun_withPath; intros ? ?;
  repeat lazymatch goal with
         | |- guardedRun _ (match ?x with _ => _ end) => destruct x; [|apply guardedRun_ret]
         | |- guardedRun _ (let _ := _ in _) => cbv zeta
         end;
  apply guardedRun_withValidPath; intros ?;
  eapply guardedRun_call;
  [ apply method_after; try apply withinCall_sys; try apply withinCall_validate; reflexivity
  | reply_silent
  | cbn [forallb]; rewrite memberOf_head; reflexivity ].

(** ** Refusals and path arguments *)

Lemma getRequiredString_inl (args : gmap string jvalue) (key path : string) :
  getRequiredString args key = inl path -> args !! key = Some (JString path).
Proof.
  unfold getRequiredString. intros H.
  destruct (args !! key) as [[|b|n|str|l|m]|]; try discriminate H.
  destruct (negb (String.eqb str "")); [|discriminate H]. injection H as ->. reflexivity.
Qed.

Lemma handledRun_ret (todo : list string) (res : CallToolResult) :
  handledRun todo (ret res).
Proof.
  intros s res' s' [= <- <-]. exists []. rewrite app_nil_r.
  split; [reflexivity|]. split; [exists 0; reflexivity|].
  split; [discriminate|]. intros err H. discriminate H.
Qed.

Lemma handledRun_withValidPath (todo : list string) (th : ToolHandlers) (path : string)
    (k : string -> M CallToolResult) :
  (forall validPath, handledRun todo (k validPath)) ->
  handledRun (path :: todo) (withValidPath th path k).
Proof.
  intros Hk s res s' H. unfold withValidPath in H.
  rewrite (bind_Some _ _ _ _ _ (validate_run _ _ _)) in H.
  destruct (ValidatePath (thValidator th) (world s) path) as [validPath|err] eqn:Hv.
  - destruct (Hk validPath _ _ _ H) as (evs & Ht & [n Hn] & Hall & Href).
    exists (EvValidate path (Ok validPath) :: evs). split.
    { rewrite Ht. cbn [trace]. rewrite <- app_assoc. reflexivity. }
    split; [exists (S n); cbn [askedFirst take]; rewrite Hn; reflexivity|].
    split.
    + intros He. cbn [askedFirst]. rewrite (Hall He). reflexivity.
    + intros err Hr. destruct (Href err Hr) as (Hres & Herr & Hno & Hval).
      repeat split; assumption.
  - injection H as <- <-. exists [EvValidate path (Err err)].
    split; [reflexivity|]. split; [exists 1; reflexivity|].
    split; [discriminate|]. intros err' [= <-]. repeat split; reflexivity.
Qed.

(** An engine method, entered once every path is validated. *)
Lemma handledRun_call {A : Type} (P : Event -> Prop) (method : string)
    (args : list string) (m : M A) (k : A -> M CallToolResult) :
  emitsAfter (EvCall method args) P m ->
  (forall a, emits silent (k a)) ->
  handledRun [] (bind m k).
Proof.
  intros Hm Hk s res s' H. unfold bind in H.
  destruct (m s) as [[a s1]|] eqn:Hms; [|discriminate].
  destruct (Hm _ _ _ Hms) as (evs & Ht & _).
  destruct (Hk a _ _ _ H) as (evs2 & Ht2 & Hp2).
  destruct evs2 as [|e evs2]; [|apply Forall_cons in Hp2 as [[] _]].
  rewrite app_nil_r in Ht2. exists (EvCall method args :: evs).
  split; [rewrite Ht2; exact Ht|]. split; [exists 0; reflexivity|].
  split; [reflexivity|]. intros err Hr. discriminate Hr.
Qed.

Lemma pathArguments_one (t : tool) (req : CallToolRequest) (args : gmap string jvalue)
    (path : string) :
  pathKeys t = ["path"] ->
  Arguments req = Some args ->
  getRequiredString args "path" = inl path ->
  pathArguments t req = [path].
Proof.
  intros Hk Ha Hp. unfold pathArguments. rewrite Ha, Hk. simpl.
  rewrite (getRequiredString_inl _ _ _ Hp). reflexivity.
Qed.

(** The handlers that take one path. *)
Ltac one_path_handled t method_after :=
  unfold withPath, getArguments;
  lazymatch goal with
  | |- handledRun _ (match match Arguments ?req with _ => _ end with _ => _ end) =>
      destruct (Arguments req) as [args|] eqn:Hargs; [|apply handledRun_ret];
      destruct (getRequiredString args "path") as [path|errRes] eqn:Hpath;
      [|apply handledRun_ret];
      rewrite (pathArguments_one t req args path eq_refl Hargs Hpath)
  end;
  repeat lazymatch goal with
         | |- handledRun _ (match ?x with _ => _ end) => destruct x; [|apply handledRun_ret]
         | |- handledRun _ (let _ := _ in _) => cbv zeta
         end;
  apply handledRun_withValidPath; intros ?;
  eapply handledRun_call;
  [apply (method_after (fun _ : Event => True)); intros; exact I | reply_silent].

(** ** The paths the engine reads in a tree and in a search *)

Lemma memberOf_spec (l : list string) (p : string) : memberOf l p = true <-> In p l.
Proof.
  unfold memberOf. rewrite existsb_exists. split.
  - intros (x & Hin & Heq). apply String.eqb_eq in Heq. subst. exact Hin.
  - intros Hin. exists p. split; [exact Hin | apply String.eqb_refl].
Qed.

Lemma memberOf_mono (l l' : list string) (need : list string) :
  (forall p, In p l -> In p l') ->
  forallb (memberOf l) need = true -> forallb (memberOf l') need = true.
Proof.
  intros Hsub H. rewrite forallb_forall in *. intros p Hp.
  apply memberOf_spec, Hsub, memberOf_spec, H, Hp.
Qed.

Lemma validatedAfter_grows (evs : list Event) :
  forall validated p, In p validated -> In p (validatedAfter validated evs).
Proof.
  induction evs as [|e evs IH]; intros validated p Hp; [exact Hp|].
  destruct e as [requested [validPath|err]|method paths|call path]; cbn [validatedAfter];
    apply IH; [right; right|..]; exact Hp.
Qed.

Lemma readsValidatedFrom_mono (exempt : list string) (evs : list Event) :
  forall validated validated',
    (forall p, In p validated -> In p validated') ->
    readsValidatedFrom exempt validated evs = true ->
    readsValidatedFrom exempt validated' evs = true.
Proof.
  induction evs as [|e evs IH]; intros validated validated' Hsub H; [reflexivity|].
  destruct e as [requested [validPath|err]|method paths|call path];
    cbn [readsValidatedFrom] in *.
  - apply (IH (requested :: validPath :: validated)); [|exact H].
    intros p [<-|[<-|Hp]]; [left | right; left | right; right; apply Hsub, Hp]; reflexivity.
  - exact (IH _ _ Hsub H).
  - exact (IH _ _ Hsub H).
  - apply andb_prop in H as [Hm Hrest]. rewrite (IH _ _ Hsub Hrest), andb_true_r.
    apply orb_prop in Hm as [Hex|Hin]; [rewrite Hex; reflexivity|].
    apply memberOf_spec, Hsub, memberOf_spec in Hin. rewrite Hin. apply orb_true_r.
Qed.

Lemma readsValidatedFrom_app (exempt : list string) (evs1 evs2 : list Event) :
  forall validated,
    readsValidatedFrom exempt validated (evs1 ++ evs2)
    = readsValidatedFrom exempt validated evs1 &&
      readsValidatedFrom exempt (validatedAfter validated evs1) evs2.
Proof.
  induction evs1 as [|e evs1 IH]; intros validated; [reflexivity|].
  destruct e as [requested [validPath|err]|method paths|call path];
    cbn [app readsValidatedFrom validatedAfter]; rewrite IH; try reflexivity.
  rewrite andb_assoc. reflexivity.
Qed.

Section ReadsValidated.

Context (exempt : list string).

Lemma rv_ret {A : Type} (need : list string) (a : A) :
  readsValidatedRun exempt need (ret a).
Proof.
  intros validated _ s a' s' [= <- <-]. exists []. rewrite app_nil_r.
  split; reflexivity.
Qed.

Lemma rv_stuck {A : Type} (need : list string) : readsValidatedRun exempt need (@stuck A).
Proof. intros validated _ s a s' H. discriminate H. Qed.

Lemma rv_getWorld (need : list string) : readsValidatedRun exempt need getWorld.
Proof.
  intros validated _ s a s' [= _ <-]. exists []. rewrite app_nil_r. split; reflexivity.
Qed.

Lemma rv_emit_call (need : list string) (method : string) (paths : list string) :
  readsValidatedRun exempt need (emit (EvCall method paths)).
Proof.
  intros validated _ s a s' [= _ <-]. exists [EvCall method paths]. split; reflexivity.
Qed.

Lemma rv_bind {A B : Type} (need : list string) (m : M A) (k : A -> M B) :
  readsValidatedRun exempt need m ->
  (forall a, readsValidatedRun exempt need (k a)) ->
  readsValidatedRun exempt need (bind m k).
Proof.
  intros Hm Hk validated Hneed s b s' H. unfold bind in H.
  destruct (m s) as [[a s1]|] eqn:Hms; [|discriminate].
  destruct (Hm validated Hneed _ _ _ Hms) as (e1 & Ht1 & Hr1).
  assert (Hneed' : forallb (memberOf (validatedAfter validated e1)) need = true).
  { apply (memberOf_mono validated); [|exact Hneed].
    intros p. apply validatedAfter_grows. }
  destruct (Hk a _ Hneed' _ _ _ H) as (e2 & Ht2 & Hr2).
  exists (e1 ++ e2). split; [rewrite Ht2, Ht1, app_assoc; reflexivity|].
  rewrite readsValidatedFrom_app, Hr1, Hr2. reflexivity.
Qed.

Lemma rv_weaken {A : Type} (need need' : list string) (m : M A) :
  (forall p, In p need' -> In p need) ->
  readsValidatedRun exempt need' m -> readsValidatedRun exempt need m.
Proof.
  intros Hsub Hm validated Hneed. apply Hm.
  rewrite forallb_forall in *. intros p Hp. apply Hneed, Hsub, Hp.
Qed.

Lemma rv_sysRead {A : Type} (need : list string) (call path : string) (f : World -> A) :
  In call exempt \/ In path need ->
  readsValidatedRun exempt need (sysRead call path f).
Proof.
  intros Hok validated Hneed s a s' H. rewrite sysRead_run in H. injection H as _ <-.
  exists [EvSys call path]. split; [reflexivity|]. cbn [readsValidatedFrom].
  rewrite andb_true_r. destruct Hok as [Hex|Hin].
  - apply memberOf_spec in Hex. rewrite Hex. reflexivity.
  - rewrite forallb_forall in Hneed. rewrite (Hneed path Hin). apply orb_true_r.
Qed.

(** After the validator let [path] through and returned [validPath], both
    count as validated. *)
Lemma rv_validate {B : Type} (need : list string) (pv : PathValidator) (path : string)
    (k : result string -> M B) :
  (forall validPath,
     readsValidatedRun exempt (path :: validPath :: need) (k (Ok validPath))) ->
  (forall err, readsValidatedRun exempt need (k (Err err))) ->
  readsValidatedRun exempt need (bind (validate pv path) k).
Proof.
  intros Hok Herr validated Hneed s b s' H.
  rewrite (bind_Some _ _ _ _ _ (validate_run _ _ _)) in H.
  destruct (ValidatePath pv (world s) path) as [validPath|err].
  - assert (Hneed' : forallb (memberOf (path :: validPath :: validated))
                       (path :: validPath :: need) = true).
    { rewrite forallb_forall. intros p Hp. apply memberOf_spec.
      destruct Hp as [<-|[<-|Hp]]; [left; reflexivity | right; left; reflexivity|].
      right. right. rewrite forallb_forall in Hneed. apply memberOf_spec, Hneed, Hp. }
    destruct (Hok validPath _ Hneed' _ _ _ H) as (evs & Ht & Hr).
    exists (EvValidate path (Ok validPath) :: evs). split; [|exact Hr].
    rewrite Ht. cbn [trace]. rewrite <- app_assoc. reflexivity.
  - destruct (Herr err _ Hneed _ _ _ H) as (evs & Ht & Hr).
    exists (EvValidate path (Err err) :: evs). split; [|exact Hr].
    rewrite Ht. cbn [trace]. rewrite <- app_assoc. reflexivity.
Qed.

Lemma treeEntries_rv
    (recur : string -> gset string -> M (result (list TreeEntry) * gset string))
    (ops : Operations) (dirPath : string) :
  (forall p v, readsValidatedRun exempt [p] (recur p v)) ->
  forall entries need acc visited,
    readsValidatedRun exempt need (treeEntries recur ops dirPath entries acc visited).
Proof.
  intros Hrec. induction entries as [|entry rest IH]; intros need acc visited;
    cbn [treeEntries]; [apply rv_ret|].
  destruct (IsDir entry); [|apply IH].
  apply rv_validate; [|intros err; apply IH].
  intros validPath. apply rv_bind.
  - apply (rv_weaken _ [validPath]); [|apply Hrec].
    intros p [<-|[]]. right. left. reflexivity.
  - intros [sub visited']. apply IH.
Qed.

Lemma buildTreeAux_rv (ops : Operations) (fuel : nat) :
  forall dirPath visited depth,
    readsValidatedRun exempt [dirPath] (buildTreeAux fuel ops dirPath visited depth).
Proof.
  induction fuel as [|fuel IH]; intros dirPath visited depth; cbn [buildTreeAux];
    [apply rv_stuck|].
  destruct (maxTreeDepth <? depth)%Z; [apply rv_ret|].
  apply rv_bind; [apply rv_sysRead; right; left; reflexivity|]. intros realPath.
  case_bool_decide; [apply rv_ret|].
  apply rv_bind; [apply rv_sysRead; right; left; reflexivity|]. intros [entries|err];
    [|apply rv_ret].
  apply treeEntries_rv. intros p v. apply IH.
Qed.

Lemma DirectoryTree_rv (ops : Operations) (dirPath : string) :
  readsValidatedRun exempt [] (DirectoryTree ops dirPath).
Proof.
  unfold DirectoryTree. apply rv_bind; [apply rv_emit_call|]. intros _.
  destruct (String.eqb dirPath ""); [apply rv_ret|].
  apply rv_validate; [|intros err; apply rv_ret]. intros validPath0. cbv beta iota.
  apply rv_validate; [|intros err; apply rv_ret]. intros validPath. cbv beta iota.
  apply rv_bind.
  - apply (rv_weaken _ [validPath]); [|apply buildTreeAux_rv].
    intros p [<-|[]]. right. left. reflexivity.
  - intros [[tree|err] visited]; [|apply rv_ret].
    destruct (Json.MarshalIndent tree); apply rv_ret.
Qed.

End ReadsValidated.

Section SearchReads.

Variable unicodeLower : N -> N.
Variable otherMatch : string -> string -> option bool.

(** The walk of a search lists a directory only after the validator let
    its path through. *)
Lemma walkDir_search_rv (ops : Operations) (rootPath lowerPattern : string)
    (excludePatterns : list string) (fuel : nat) :
  forall results path d need,
    readsValidatedRun ["lstat"] need
      (walkDir (searchFn unicodeLower otherMatch ops rootPath lowerPattern excludePatterns)
         fuel results path d).
Proof.
  induction fuel as [|fuel IH]; intros results path d need validated _ s a s' H;
    [discriminate H|].
  assert (Hret : forall (x : walkRet * list string) (s0 : State) (evs0 : list Event),
             trace s0 = trace s ++ evs0 ->
             readsValidatedFrom ["lstat"] validated evs0 = true ->
             ret x s0 = Some (a, s') ->
             exists evs, trace s' = trace s ++ evs /\
                         readsValidatedFrom ["lstat"] validated evs = true).
  { intros x s0 evs0 Ht Hr [= _ <-]. eauto. }
  cbn [walkDir] in H. unfold bind at 1 in H. unfold searchFn at 1 in H.
  rewrite (bind_Some _ _ _ _ _ (validate_run _ _ _)) in H.
  destruct (ValidatePath (pathValidator ops) (world s) path) as [validPath|err].
  2:{ destruct (IsDir d); (eapply Hret; [| |exact H]; [reflexivity|reflexivity]). }
  set (s1 := mkState (world s) (trace s ++ [EvValidate path (Ok validPath)])) in H.
  assert (Ht1 : trace s1 = trace s ++ [EvValidate path (Ok validPath)]) by reflexivity.
  destruct (match Rel rootPath path with
            | Some relativePath => shouldExclude otherMatch relativePath excludePatterns
            | None => false
            end).
  { destruct (IsDir d); (eapply Hret; [| |exact H]; [exact Ht1|reflexivity]). }
  assert (Hgo : forall acc,
             match (WalkNil, acc) with
             | (r, acc) =>
                 match r, IsDir d with
                 | WalkNil, true =>
                     dirs <- sysRead "readdir" path (fun w => ReadDir w path) ;;
                     match dirs with
                     | Err err =>
                         p <- searchFn unicodeLower otherMatch ops rootPath lowerPattern
                                excludePatterns acc path (Some d) (Some err) ;;
                         let '(r, acc) := p in
                         match r with
                         | WalkErr e => ret (WalkErr e, acc)
                         | _ => ret (WalkNil, acc)
                         end
                     | Ok dirs =>
                         (fix each (dirs : list OsInfo) (acc : list string)
                            : M (walkRet * list string) :=
                            match dirs with
                            | [] => ret (WalkNil, acc)
                            | d1 :: rest =>
                                p <- walkDir
                                       (searchFn unicodeLower otherMatch ops rootPath
                                          lowerPattern excludePatterns)
                                       fuel acc (JoinPath [path; Name d1]) d1 ;;
                                let '(r, acc) := p in
                                match r with
                                | WalkNil => each rest acc
                                | SkipDir => ret (WalkNil, acc)
                                | WalkErr e => ret (WalkErr e, acc)
                                end
                            end) dirs acc
                     end
                 | SkipDir, true => ret (WalkNil, acc)
                 | _, _ => ret (r, acc)
                 end
             end s1 = Some (a, s') ->
             exists evs, trace s' = trace s ++ evs /\
                         readsValidatedFrom ["lstat"] validated evs = true).
  { clear H. intros acc H. cbv iota beta in H. destruct (IsDir d).
    2:{ eapply Hret; [| |exact H]; [exact Ht1|reflexivity]. }
    rewrite (bind_Some _ _ _ _ _ (sysRead_run _ _ _ _)) in H.
    set (s2 := mkState (world s1) (trace s1 ++ [EvSys "readdir" path])) in H.
    assert (Ht2 : trace s2
                  = trace s ++ [EvValidate path (Ok validPath); EvSys "readdir" path]).
    { cbn [s2 trace]. rewrite Ht1, <- app_assoc. reflexivity. }
    assert (Hr2 : readsValidatedFrom ["lstat"] validated
                    [EvValidate path (Ok validPath); EvSys "readdir" path] = true).
    { cbn [readsValidatedFrom]. rewrite memberOf_head, orb_true_r. reflexivity. }
    clearbody s2. destruct (ReadDir (world s1) path) as [dirs|err].
    2:{ cbn [searchFn] in H. eapply Hret; [| |exact H]; [exact Ht2|exact Hr2]. }
    assert (Hloop : forall dirs acc s2 evs2,
               trace s2 = trace s ++ evs2 ->
               readsValidatedFrom ["lstat"] validated evs2 = true ->
               (fix each (dirs : list OsInfo) (acc : list string)
                  : M (walkRet * list string) :=
                  match dirs with
                  | [] => ret (WalkNil, acc)
                  | d1 :: rest =>
                      p <- walkDir
                             (searchFn unicodeLower otherMatch ops rootPath
                                lowerPattern excludePatterns)
                             fuel acc (JoinPath [path; Name d1]) d1 ;;
                      let '(r, acc) := p in
                      match r with
                      | WalkNil => each rest acc
                      | SkipDir => ret (WalkNil, acc)
                      | WalkErr e => ret (WalkErr e, acc)
                      end
                  end) dirs acc s2 = Some (a, s') ->
               exists evs, trace s' = trace s ++ evs /\
                           readsValidatedFrom ["lstat"] validated evs = true).
    { clear dirs acc H s2 Ht2 Hr2. induction dirs as [|d1 rest IHd];
        intros acc s2 evs2 Ht2 Hr2 H.
      - injection H as _ <-. eauto.
      - unfold bind at 1 in H.
        destruct (walkDir _ fuel acc (JoinPath [path; Name d1]) d1 s2)
          as [[[r3 acc3] s3]|] eqn:Hsub; [|discriminate H].
        destruct (IH acc (JoinPath [path; Name d1]) d1 []
                    (validatedAfter validated evs2) eq_refl _ _ _ Hsub)
          as (evs3 & Ht3 & Hr3).
        assert (Ht3' : trace s3 = trace s ++ (evs2 ++ evs3)).
        { rewrite Ht3, Ht2, app_assoc. reflexivity. }
        assert (Hr3' : readsValidatedFrom ["lstat"] validated (evs2 ++ evs3) = true).
        { rewrite readsValidatedFrom_app, Hr2, Hr3. reflexivity. }
        destruct r3.
        + exact (IHd acc3 s3 _ Ht3' Hr3' H).
        + injection H as _ <-. eauto.
        + injection H as _ <-. eauto. }
    exact (Hloop dirs acc s2 _ Ht2 Hr2 H). }
  destruct (Contains (ToLower unicodeLower (Name d)) lowerPattern); exact (Hgo _ H).
Qed.

Lemma SearchFiles_rv (ops : Operations) (rootPath pattern : string)
    (excludePatterns : list string) :
  readsValidatedRun ["lstat"] []
    (SearchFiles unicodeLower otherMatch ops rootPath pattern excludePatterns).
Proof.
  unfold SearchFiles. apply rv_bind; [apply rv_emit_call|]. intros _.
  destruct (String.eqb rootPath ""); [apply rv_ret|].
  destruct (String.eqb pattern ""); [apply rv_ret|].
  cbv zeta. apply rv_bind; [apply rv_getWorld|]. intros w.
  apply rv_bind.
  - unfold WalkDir. apply rv_bind; [apply rv_sysRead; left; left; reflexivity|].
    intros [info|err].
    + apply rv_bind; [apply walkDir_search_rv|]. intros [r acc]. destruct r; apply rv_ret.
    + apply rv_bind; [apply rv_ret|]. intros [r acc]. destruct r; apply rv_ret.
  - intros [[err|] results]; apply rv_ret.
Qed.

End SearchReads.

Section Guard.

Variable lib : Library.


End Guard.


(** The handler left out of C1: [handleReadMultipleFiles] passes a path the
    validator refused on to the engine, which reads it. *)
Example read_multiple_passes_refused_path :
  valueOf (handleReadMultipleFiles sandboxHandlers (pathsRequest ["/etc/passwd"])
             (mkState (oneFileWorld "") []))
  = Some (NewToolResultText ("/etc/passwd:" +:+ nl +:+ "root" +:+ nl)) /\
  guarded (traceOf (handleReadMultipleFiles sandboxHandlers (pathsRequest ["/etc/passwd"])
                      (mkState (oneFileWorld "") []))) = false.
Proof. vm_compute. split; reflexivity. Qed.


(** * Further properties of the code *)

(** ** Operations that only look *)

Lemma readOnly_ret {A : Type} (a : A) : readOnly (ret a).
Proof. intros s a' s' [= _ <-]. reflexivity. Qed.

Lemma readOnly_bind {A B : Type} (m : M A) (k : A -> M B) :
  readOnly m -> (forall a, readOnly (k a)) -> readOnly (bind m k).
Proof.
  intros Hm Hk s b s' H. unfold bind in H.
  destruct (m s) as [[a s1]|] eqn:Hms; [|discriminate].
  rewrite (Hk a _ _ _ H). exact (Hm _ _ _ Hms).
Qed.

Lemma readOnly_emit (e : Event) : readOnly (emit e).
Proof. intros s a s' [= _ <-]. reflexivity. Qed.

Lemma readOnly_stuck {A : Type} : readOnly (@stuck A).
Proof. intros s a s' H. discriminate. Qed.

Lemma readOnly_getWorld : readOnly getWorld.
Proof. intros s a s' [= _ <-]. reflexivity. Qed.

Lemma readOnly_liftOpt {A : Type} (o : option A) : readOnly (liftOpt o).
Proof. intros s a s' H. unfold liftOpt in H. destruct o; [|discriminate]. injection H as _ <-. reflexivity. Qed.

Lemma readOnly_sysRead {A : Type} (call path : string) (f : World -> A) :
  readOnly (sysRead call path f).
Proof. intros s a s' H. rewrite sysRead_run in H. injection H as _ <-. reflexivity. Qed.

Lemma readOnly_validate (pv : PathValidator) (path : string) : readOnly (validate pv path).
Proof. intros s a s' H. rewrite validate_run in H. injection H as _ <-. reflexivity. Qed.

Ltac readOnly_step :=
  lazymatch goal with
  | |- readOnly (ret _) => apply readOnly_ret
  | |- readOnly stuck => apply readOnly_stuck
  | |- readOnly getWorld => apply readOnly_getWorld
  | |- readOnly (liftOpt _) => apply readOnly_liftOpt
  | |- readOnly (sysRead _ _ _) => apply readOnly_sysRead
  | |- readOnly (validate _ _) => apply readOnly_validate
  | |- readOnly (emit _) => apply readOnly_emit
  | |- readOnly (bind _ _) => apply readOnly_bind; [|intros ?]
  | |- readOnly (match ?x with _ => _ end) => destruct x
  | |- readOnly (let _ := _ in _) => cbv zeta
  | |- readOnly ?m =>
      first [ assumption
            | match goal with H : context [readOnly _] |- _ => apply H end ]
  end.

Ltac readOnly_auto := repeat readOnly_step.

Lemma ReadFile_readOnly (ops : Operations) (filePath : string) :
  readOnly (ReadFile ops filePath).
Proof. unfold ReadFile. readOnly_auto. Qed.

Lemma readEach_readOnly (ops : Operations) (filePaths results : list string) :
  readOnly (readEach ops filePaths results).
Proof.
  revert results. induction filePaths as [|filePath rest IH]; intros results; simpl.
  - apply readOnly_ret.
  - pose proof (ReadFile_readOnly ops filePath) as Hr. readOnly_auto.
Qed.

Lemma walkDir_readOnly {A : Type}
    (fn : A -> string -> option OsInfo -> option error -> M (walkRet * A)) :
  (forall acc path d err, readOnly (fn acc path d err)) ->
  forall fuel acc path d, readOnly (walkDir fn fuel acc path d).
Proof.
  intros Hfn. induction fuel as [|fuel IH]; intros acc path d; simpl; [apply readOnly_stuck|].
  apply readOnly_bind; [apply Hfn|]. intros [r acc1].
  destruct r; destruct (IsDir d); try apply readOnly_ret.
  apply readOnly_bind; [apply readOnly_sysRead|]. intros [dirs|err].
  - revert acc1. induction dirs as [|d1 rest IHd]; intros acc1; [apply readOnly_ret|].
    apply readOnly_bind; [apply IH|]. intros [r2 acc2]. destruct r2; try apply readOnly_ret.
    apply IHd.
  - apply readOnly_bind; [apply Hfn|]. intros [r2 acc2]. destruct r2; apply readOnly_ret.
Qed.

Lemma WalkDir_readOnly {A : Type}
    (fn : A -> string -> option OsInfo -> option error -> M (walkRet * A)) :
  (forall acc path d err, readOnly (fn acc path d err)) ->
  forall fuel acc root, readOnly (WalkDir fn fuel acc root).
Proof.
  intros Hfn fuel acc root. unfold WalkDir.
  apply readOnly_bind; [apply readOnly_sysRead|]. intros info.
  apply readOnly_bind.
  - destruct info; [apply walkDir_readOnly; exact Hfn | apply Hfn].
  - intros [r acc1]. destruct r; apply readOnly_ret.
Qed.

Lemma searchFn_readOnly (unicodeLower : N -> N)
    (otherMatch : string -> string -> option bool)
    (ops : Operations) (rootPath lowerPattern : string)
    (excludePatterns results : list string) (path : string)
    (d : option OsInfo) (err : option error) :
  readOnly (searchFn unicodeLower otherMatch ops rootPath lowerPattern excludePatterns
              results path d err).
Proof. unfold searchFn. readOnly_auto. Qed.

Lemma treeEntries_readOnly
    (recur : string -> gset string -> M (result (list TreeEntry) * gset string))
    (ops : Operations) (dirPath : string) :
  (forall p v, readOnly (recur p v)) ->
  forall entries acc visited, readOnly (treeEntries recur ops dirPath entries acc visited).
Proof.
  intros Hrec. induction entries as [|entry rest IH]; intros acc visited; simpl.
  - apply readOnly_ret.
  - destruct (IsDir entry); [|apply IH].
    apply readOnly_bind; [apply readOnly_validate|]. intros [validPath|err]; [|apply IH].
    apply readOnly_bind; [apply Hrec|]. intros [sub visited']. apply IH.
Qed.

Lemma buildTreeAux_readOnly (ops : Operations) :
  forall fuel dirPath visited depth, readOnly (buildTreeAux fuel ops dirPath visited depth).
Proof.
  induction fuel as [|fuel IH]; intros dirPath visited depth; simpl; [apply readOnly_stuck|].
  pose proof (fun entries acc v =>
                treeEntries_readOnly (fun p v => buildTreeAux fuel ops p v (depth + 1)) ops dirPath
                  (fun p v => IH p v (depth + 1)%Z) entries acc v) as Hloop.
  readOnly_auto.
Qed.

(** X1: the operations that only look never change the file system,
    whatever they return: [ReadFile], [ReadMultipleFiles], [ListDirectory],
    [GetFileInfo], [DirectoryTree] and [SearchFiles]. *)
Theorem X1_lookups_change_nothing (unicodeLower : N -> N)
    (otherMatch : string -> string -> option bool)
    (ops : Operations) (path pattern : string) (paths excludePatterns : list string) :
  readOnly (ReadFile ops path) /\
  readOnly (ReadMultipleFiles ops paths) /\
  readOnly (ListDirectory ops path) /\
  readOnly (GetFileInfo ops path) /\
  readOnly (DirectoryTree ops path) /\
  readOnly (SearchFiles unicodeLower otherMatch ops path pattern excludePatterns).
Proof.
  split; [apply ReadFile_readOnly|].
  split.
  { unfold ReadMultipleFiles. pose proof (readEach_readOnly ops) as Hr. readOnly_auto. }
  split; [unfold ListDirectory; readOnly_auto|].
  split; [unfold GetFileInfo; readOnly_auto|].
  split.
  - unfold DirectoryTree, buildTree.
    pose proof (buildTreeAux_readOnly ops) as Hb. readOnly_auto.
  - unfold SearchFiles.
    pose proof (fun fuel acc root =>
                  WalkDir_readOnly
                    (searchFn unicodeLower otherMatch ops path (ToLower unicodeLower pattern)
                       excludePatterns)
                    (searchFn_readOnly unicodeLower otherMatch ops path
                       (ToLower unicodeLower pattern) excludePatterns)
                    fuel acc root) as Hw.
    readOnly_auto.
Qed.

Section DryRun.

Variable PatchText : string -> string -> string.

(** X2: [EditFile] with [dryRun] set never changes the file system, whether
    the edits apply or not. *)
Theorem X2_dry_run_changes_nothing (ops : Operations) (filePath : string)
    (edits : list EditOperation) :
  readOnly (EditFile PatchText ops filePath edits true).
Proof.
  unfold EditFile. pose proof (ReadFile_readOnly ops filePath) as Hr.
  change (negb true) with false. readOnly_auto.
Qed.

End DryRun.

(** ** Reading several files *)

Lemma ReadFile_runs (ops : Operations) (filePath : string) (s : State) :
  exists r s', ReadFile ops filePath s = Some (r, s').
Proof.
  unfold ReadFile. rewrite (bind_Some _ _ _ _ _ (emit_run _ _)).
  destruct (String.eqb filePath ""); [eauto|].
  rewrite (bind_Some _ _ _ _ _ (sysRead_run _ _ _ _)).
  destruct (Stat _ _); [|eauto]. destruct (maxReadSize <? Size a)%Z; [eauto|].
  rewrite (bind_Some _ _ _ _ _ (sysRead_run _ _ _ _)).
  destruct (ReadFileSys _ _); eauto.
Qed.

Lemma readEach_spec (ops : Operations) (filePaths : list string) :
  forall (results : list string) (s : State),
    exists added s',
      readEach ops filePaths results s = Some (results ++ added, s') /\
      Forall2 (fun filePath r => HasPrefix r (filePath +:+ ":") = true) filePaths added.
Proof.
  induction filePaths as [|filePath rest IH]; intros results s; simpl.
  - exists [], s. rewrite app_nil_r. split; [reflexivity | constructor].
  - destruct (ReadFile_runs ops filePath s) as (r & s1 & Hr).
    rewrite (bind_Some _ _ _ _ _ Hr).
    destruct r as [content|err].
    + destruct (IH (results ++ [filePath +:+ ":" +:+ nl +:+ content +:+ nl]) s1)
        as (added & s' & Hrun & Hall).
      exists ((filePath +:+ ":" +:+ nl +:+ content +:+ nl) :: added), s'.
      rewrite Hrun, <- app_assoc. split; [reflexivity|].
      constructor; [|exact Hall].
      rewrite <- append_assoc. apply HasPrefix_app.
    + destruct (IH (results ++ [filePath +:+ ": Error - " +:+ errorText err]) s1)
        as (added & s' & Hrun & Hall).
      exists ((filePath +:+ ": Error - " +:+ errorText err) :: added), s'.
      rewrite Hrun, <- app_assoc. split; [reflexivity|].
      constructor; [|exact Hall].
      change (": Error - " +:+ errorText err) with (":" +:+ (" Error - " +:+ errorText err)).
      rewrite <- append_assoc. apply HasPrefix_app.
Qed.

(** X3: [ReadMultipleFiles] on a list that is not empty never fails: it
    returns one block per path, in the order of the paths, each block
    starting with its path and a colon (a file that cannot be read gives an
    error line and the batch goes on), the blocks joined by a line of three
    dashes. *)
Theorem X3_batch_read_is_best_effort (ops : Operations) (filePaths : list string) (s : State) :
  filePaths <> [] ->
  exists blocks s',
    ReadMultipleFiles ops filePaths s = Some (Ok (Join blocks (nl +:+ "---" +:+ nl)), s') /\
    Forall2 (fun filePath block => HasPrefix block (filePath +:+ ":") = true) filePaths blocks.
Proof.
  intros Hne. unfold ReadMultipleFiles.
  rewrite (bind_Some _ _ _ _ _ (emit_run _ _)).
  destruct filePaths as [|filePath rest]; [contradiction|].
  match goal with
  | |- context [bind (readEach ops ?l []) _ ?s0] =>
      destruct (readEach_spec ops l [] s0) as (blocks & s' & Hrun & Hall)
  end.
  rewrite (bind_Some _ _ _ _ _ Hrun). exists blocks, s'. split; [reflexivity | exact Hall].
Qed.

Lemma X3_batch_read_is_best_effort_witness :
  exists blocks s',
    ReadMultipleFiles sandboxOps ["/sandbox/big.txt"; "/sandbox/missing.txt"]
      (mkState (oneFileWorld "hello") [])
    = Some (Ok (Join blocks (nl +:+ "---" +:+ nl)), s') /\
    Forall2 (fun filePath block => HasPrefix block (filePath +:+ ":") = true)
      ["/sandbox/big.txt"; "/sandbox/missing.txt"] blocks.
Proof.
  apply (X3_batch_read_is_best_effort sandboxOps ["/sandbox/big.txt"; "/sandbox/missing.txt"]
           (mkState (oneFileWorld "hello") [])).
  discriminate.
Defined.

(** X4: the loop "Validate each path" of [handleReadMultipleFiles] drops
    nothing: it hands on one path for each path it was given, the validated
    path where the validator accepts and the path as it came where the
    validator refuses.  The list it returns is therefore empty only for an
    empty input. *)
Theorem X4_refused_paths_are_passed_on (th : ToolHandlers) (pathsSlice paths : list string)
    (s : State) :
  exists s',
    validateEach th pathsSlice paths s
    = Some (paths ++ map (passedOn (thValidator th) (world s)) pathsSlice, s') /\
    world s' = world s.
Proof.
  revert paths s. induction pathsSlice as [|path rest IH]; intros paths s; simpl.
  - exists s. rewrite app_nil_r. split; reflexivity.
  - rewrite (bind_Some _ _ _ _ _ (validate_run _ _ _)). unfold passedOn at 1.
    destruct (ValidatePath (thValidator th) (world s) path) as [validPath|err] eqn:Hv.
    + destruct (IH (paths ++ [validPath])
                  (mkState (world s) (trace s ++ [EvValidate path (Ok validPath)])))
        as (s' & Hrun & Hw).
      exists s'. rewrite Hrun, <- app_assoc. split; [reflexivity | exact Hw].
    + destruct (IH (paths ++ [path])
                  (mkState (world s) (trace s ++ [EvValidate path (Err err)])))
        as (s' & Hrun & Hw).
      exists s'. rewrite Hrun, <- app_assoc. split; [reflexivity | exact Hw].
Qed.

(** ** The arguments of a request *)

Lemma nonEmptyStrings_spec (raw : list jvalue) :
  Forall (fun s => s <> "") (nonEmptyStrings raw) /\
  length (nonEmptyStrings raw) <= 100.
Proof.
  unfold nonEmptyStrings. split.
  - generalize (take 100 raw). intros l. induction l as [|v l IH]; simpl; [constructor|].
    destruct v as [|b|n|str|l'|m]; simpl; try exact IH.
    destruct (String.eqb_spec str "") as [->|Hne]; simpl; [exact IH|].
    constructor; assumption.
  - assert (Hlen : forall l : list jvalue,
               length (omap (fun v => match v with
                                      | JString s => if negb (String.eqb s "") then Some s else None
                                      | _ => None
                                      end) l) <= length l).
    { intros l. induction l as [|v l IH]; [simpl; lia|].
      unfold omap in *. destruct v as [|b|n|str|l'|m]; simpl in *; try lia.
      destruct (negb (String.eqb str "")); simpl in *; lia. }
    etransitivity; [apply Hlen|]. rewrite length_take. lia.
Qed.

(** X5: what [getRequiredStringSlice] returns is never empty, holds no
    empty string and at most a hundred strings; entries that are not
    strings, or empty, are dropped, and a key that is missing or not an
    array is an error. *)
Theorem X5_required_slice_bounds (args : gmap string jvalue) (key : string)
    (res : list string) :
  getRequiredStringSlice args key = inl res ->
  res <> [] /\ Forall (fun s => s <> "") res /\ length res <= 100 /\
  exists raw, args !! key = Some (JArray raw).
Proof.
  unfold getRequiredStringSlice. intros H.
  destruct (args !! key) as [[|b|n|str|raw|m]|]; try discriminate.
  pose proof (nonEmptyStrings_spec raw) as [Hall Hlen].
  destruct (nonEmptyStrings raw) as [|x l] eqn:Hn; [discriminate|].
  injection H as <-. repeat split; try assumption; [discriminate | eauto].
Qed.

Lemma X5_required_slice_bounds_witness :
  ["a"; "b"] <> [] /\ Forall (fun s => s <> "") ["a"; "b"] /\ length ["a"; "b"] <= 100 /\
  exists raw,
    ({[ "paths" := JArray [JString "a"; JNull; JString ""; JString "b"] ]}
       : gmap string jvalue) !! "paths" = Some (JArray raw).
Proof.
  apply (X5_required_slice_bounds
           {[ "paths" := JArray [JString "a"; JNull; JString ""; JString "b"] ]} "paths").
  vm_compute. reflexivity.
Defined.

(** ** Moving, again *)

Lemma Stat_empty (w : World) : Stat w "" = Err (PathError "stat" "" ENOENT).
Proof. reflexivity. Qed.

(** X6: [MoveFile] reports success only if [os.Stat] found no destination
    before the move: a move never replaces a destination that [os.Stat] can
    see.  When [os.Stat] fails for another reason than "does not exist" the
    move is not tried and nothing changes. *)
Theorem X6_move_succeeds_only_onto_nothing (ops : Operations) (sourcePath destPath : string)
    (s s' : State) (r : option error) :
  MoveFile ops sourcePath destPath s = Some (r, s') ->
  (r = None ->
   exists err, Stat (world s) destPath = Err err /\ IsNotExist err = true) /\
  (sourcePath <> "" ->
   forall err, Stat (world s) destPath = Err err -> IsNotExist err = false ->
   r = Some (Wrap "failed to check destination: " err) /\ world s' = world s).
Proof.
  unfold MoveFile. rewrite (bind_Some _ _ _ _ _ (emit_run _ _)).
  destruct (String.eqb_spec sourcePath "") as [Hsrc|Hsrc].
  { intros [= <- <-]. split; [discriminate | contradiction]. }
  destruct (String.eqb_spec destPath "") as [->|Hdst].
  { intros [= <- <-]. split; [discriminate|]. intros _ err Hst Hne.
    rewrite Stat_empty in Hst. injection Hst as <-. discriminate. }
  rewrite (bind_Some _ _ _ _ _ (sysRead_run _ _ _ _)). cbn [world trace].
  destruct (Stat (world s) destPath) as [info|err] eqn:Hst.
  { intros [= <- <-]. split; [discriminate|]. intros _ err Herr. discriminate. }
  destruct (IsNotExist err) eqn:Hne; cbn [negb].
  - intros _. split; [eauto|]. intros _ err' [= <-] Hne'. congruence.
  - intros [= <- <-]. split; [discriminate|]. intros _ err' [= <-] _. split; reflexivity.
Qed.

Lemma X6_move_succeeds_only_onto_nothing_witness :
  (@None error = None ->
   exists err, Stat twoFilesWorld "/sandbox/new.txt" = Err err /\ IsNotExist err = true) /\
  ("/sandbox/src.txt" <> "" ->
   forall err, Stat twoFilesWorld "/sandbox/new.txt" = Err err -> IsNotExist err = false ->
   None = Some (Wrap "failed to check destination: " err) /\
   world (mkState
            (withFiles twoFilesWorld
               (moveTree (files twoFilesWorld) "/sandbox/src.txt" "/sandbox/new.txt"))
            [EvCall "MoveFile" ["/sandbox/src.txt"; "/sandbox/new.txt"];
             EvSys "stat" "/sandbox/new.txt"; EvSys "rename" "/sandbox/src.txt"])
   = twoFilesWorld).
Proof.
  apply (X6_move_succeeds_only_onto_nothing sandboxOps "/sandbox/src.txt" "/sandbox/new.txt"
           (mkState twoFilesWorld [])).
  vm_compute. reflexivity.
Defined.

(** ** The fence of a diff *)

Lemma fenceFrom_bounds (patch : string) (steps : nat) :
  forall k,
    k <= 10 ->
    k <= fenceFrom patch steps k <= 11 /\
    (11 <= steps + k -> fenceFrom patch steps k <= 10 ->
     Contains patch (Repeat backtick (fenceFrom patch steps k)) = false).
Proof.
  induction steps as [|steps IH]; intros k Hk; simpl.
  - split; [lia|]. intros H1 H2. lia.
  - destruct (Contains patch (Repeat backtick k)) eqn:Hc.
    + destruct (Nat.ltb_spec 10 (S k)) as [Hbig|Hsmall].
      * split; [lia|]. intros _ H. lia.
      * destruct (IH (S k) ltac:(lia)) as [Hb Hfree]. split; [lia|].
        intros H1 H2. apply Hfree; lia.
    + split; [lia|]. intros _ _. exact Hc.
Qed.

Section Diff.

Variable PatchText : string -> string -> string.

(** X7: the text [createUnifiedDiff] returns is the patch between two
    fences of the same [n] backticks, the first followed by [diff]; [n] is
    at least three and at most eleven, and unless [n] is eleven the fence
    does not occur in the patch. *)
Theorem X7_diff_fence (original modified filename : string) :
  exists n,
    3 <= n <= 11 /\
    createUnifiedDiff PatchText original modified filename
    = Repeat backtick n +:+ "diff" +:+ nl +:+ PatchText original modified +:+
      Repeat backtick n +:+ nl +:+ nl /\
    (n <= 10 -> Contains (PatchText original modified) (Repeat backtick n) = false).
Proof.
  exists (fenceFrom (PatchText original modified) 8 3).
  destruct (fenceFrom_bounds (PatchText original modified) 8 3 ltac:(lia)) as [Hb Hfree].
  split; [lia|]. split; [reflexivity|]. intros Hn. apply Hfree; [lia | exact Hn].
Qed.

End Diff.

(** ** Edits, again *)

Lemma Contains_nil (s : string) : Contains s "" = true.
Proof. destruct s; reflexivity. Qed.

Lemma Replace1_nil (s new : string) : Replace1 s "" new = new +:+ s.
Proof. destruct s; reflexivity. Qed.

(** X8: an edit with an empty [oldText] always applies: it matches at the
    start of the content and puts [newText] (line endings normalized) in
    front of it; the edits after it go on from there. *)
Theorem X8_empty_old_text_prepends (content newText : string) (i : nat)
    (rest : list EditOperation) :
  applyEditsFrom content i (mkEdit "" newText :: rest)
  = applyEditsFrom (normalizeLineEndings newText +:+ content) (S i) rest /\
  applyEdits content [mkEdit "" newText]
  = Ok (normalizeLineEndings newText +:+ normalizeLineEndings content).
Proof.
  assert (H : forall c k l, applyEditsFrom c k (mkEdit "" newText :: l)
                            = applyEditsFrom (normalizeLineEndings newText +:+ c) (S k) l).
  { intros c k l. simpl. change (normalizeLineEndings "") with "".
    rewrite Contains_nil, Replace1_nil. reflexivity. }
  split; [apply H|]. unfold applyEdits. rewrite H. reflexivity.
Qed.

Lemma searchLines_first (cs os : list string) (newText : string) (i : nat) :
  linesMatch (take (length os) (drop i cs)) os = true ->
  forall steps k,
    k <= i < k + steps ->
    (forall j, k <= j < i -> linesMatch (take (length os) (drop j cs)) os = false) ->
    searchLines cs os newText k steps
    = Some (Join (take i cs ++
                  match cs !! i with
                  | Some line => setFirstLine (Split newText LF) (extractIndentation line)
                  | None => Split newText LF
                  end ++ drop (i + length os) cs) nl).
Proof.
  intros Hm. induction steps as [|steps IH]; intros k Hk Hno; [lia|].
  simpl. destruct (Nat.eq_dec k i) as [->|Hneq].
  - rewrite Hm. reflexivity.
  - rewrite (Hno k) by lia. apply IH; [lia|]. intros j Hj. apply Hno. lia.
Qed.

Lemma trimmedRunAt_linesMatch (cs os : list string) (i : nat) :
  os <> [] ->
  trimmedRunAt cs os i <-> linesMatch (take (length os) (drop i cs)) os = true.
Proof.
  intros Hos. rewrite linesMatch_spec. unfold trimmedRunAt. split.
  - intros [Hle Heq]. split; [|exact Heq]. rewrite length_take, length_drop. lia.
  - intros [Hlen Heq]. split; [|exact Heq].
    rewrite length_take, length_drop in Hlen.
    assert (0 < length os) by (destruct os; [contradiction | simpl; lia]). lia.
Qed.

(** X9: the line-based match replaces the first run of content lines whose
    trimmed text equals the trimmed lines of [oldText]: the lines before
    the run and after it stay, the lines of [newText] come in between, and
    the first of them gets the indentation of the first line replaced
    instead of its own. *)
Theorem X9_line_edit_replaces_first_run (content oldText newText : string) (i : nat) :
  trimmedRunAt (Split content LF) (Split oldText LF) i ->
  (forall j, j < i -> ~ trimmedRunAt (Split content LF) (Split oldText LF) j) ->
  exists line,
    Split content LF !! i = Some line /\
    applyLineBasedEdit content oldText newText
    = Ok (Join (take i (Split content LF) ++
                setFirstLine (Split newText LF) (extractIndentation line) ++
                drop (i + length (Split oldText LF)) (Split content LF)) nl).
Proof.
  intros Hrun Hfirst.
  pose proof (Split_nonempty oldText LF) as Hos.
  pose proof Hrun as [Hle _].
  assert (Hlt : i < length (Split content LF)).
  { destruct (Split oldText LF); [contradiction|]. simpl in Hle. lia. }
  destruct (lookup_lt_is_Some_2 _ _ Hlt) as [line Hline].
  exists line. split; [exact Hline|]. unfold applyLineBasedEdit.
  rewrite (searchLines_first _ _ newText i).
  - rewrite Hline. reflexivity.
  - apply trimmedRunAt_linesMatch; assumption.
  - lia.
  - intros j Hj. apply not_true_is_false. intros Hm.
    apply (Hfirst j); [lia|]. apply trimmedRunAt_linesMatch; assumption.
Qed.

Lemma X9_line_edit_replaces_first_run_witness :
  exists line,
    Split ("a" +:+ nl +:+ "  foo  " +:+ nl +:+ "b") LF !! 1 = Some line /\
    applyLineBasedEdit ("a" +:+ nl +:+ "  foo  " +:+ nl +:+ "b") " foo" ("x" +:+ nl +:+ "y")
    = Ok (Join (take 1 (Split ("a" +:+ nl +:+ "  foo  " +:+ nl +:+ "b") LF) ++
                setFirstLine (Split ("x" +:+ nl +:+ "y") LF) (extractIndentation line) ++
                drop (1 + length (Split " foo" LF))
                  (Split ("a" +:+ nl +:+ "  foo  " +:+ nl +:+ "b") LF)) nl).
Proof.
  apply (X9_line_edit_replaces_first_run ("a" +:+ nl +:+ "  foo  " +:+ nl +:+ "b") " foo"
           ("x" +:+ nl +:+ "y") 1).
  - split; [vm_compute; lia | vm_compute; reflexivity].
  - intros j Hj [_ Heq]. assert (j = 0) as -> by lia. vm_compute in Heq. discriminate.
Defined.

(** ** The walk along links *)

Lemma walkLinks_nil (fs : gmap string node) (create : bool) (links : nat)
    (cur : list string) :
  walkLinks fs create links cur [] = inr cur.
Proof. destruct links; reflexivity. Qed.

Lemma walkLinks_cons (fs : gmap string node) (create : bool) (links : nat)
    (cur : list string) (e : string) (rest : list string) :
  walkLinks fs create links cur (e :: rest)
  = if negb (keptElem e) then walkLinks fs create links cur rest
    else if String.eqb e ".." then walkLinks fs create links (removelast cur) rest
    else
      match nodeAt fs (keyOf (cur ++ [e])) with
      | None =>
          match rest with
          | [] => if create then inr (cur ++ [e]) else inl ENOENT
          | _ => inl ENOENT
          end
      | Some (Symlink t) =>
          match links with
          | O => inl ELOOP
          | S l => walkLinks fs create l (if IsAbs t then [] else cur)
                     (Split t Separator ++ rest)
          end
      | Some Directory => walkLinks fs create links (cur ++ [e]) rest
      | Some (File _) =>
          match rest with
          | [] => inr (cur ++ [e])
          | _ => inl ENOTDIR
          end
      end.
Proof. destruct links; reflexivity. Qed.

Section WalkInduction.

Variable fs : gmap string node.
Variable create : bool.
Variable P : nat -> list string -> list string -> errno + list string -> Prop.

Hypothesis Pnil : forall links cur, P links cur [] (inr cur).
Hypothesis Pskip : forall links cur e rest,
  keptElem e = false ->
  P links cur rest (walkLinks fs create links cur rest) ->
  P links cur (e :: rest) (walkLinks fs create links cur rest).
Hypothesis Pup : forall links cur rest,
  P links (removelast cur) rest (walkLinks fs create links (removelast cur) rest) ->
  P links cur (".." :: rest) (walkLinks fs create links (removelast cur) rest).
Hypothesis Pmissing : forall links cur e rest,
  keptElem e = true -> e <> ".." ->
  nodeAt fs (keyOf (cur ++ [e])) = None ->
  P links cur (e :: rest)
    match rest with
    | [] => if create then inr (cur ++ [e]) else inl ENOENT
    | _ => inl ENOENT
    end.
Hypothesis Ploop : forall cur e rest t,
  keptElem e = true -> e <> ".." ->
  nodeAt fs (keyOf (cur ++ [e])) = Some (Symlink t) ->
  P 0 cur (e :: rest) (inl ELOOP).
Hypothesis Plink : forall links cur e rest t,
  keptElem e = true -> e <> ".." ->
  nodeAt fs (keyOf (cur ++ [e])) = Some (Symlink t) ->
  P links (if IsAbs t then [] else cur) (Split t Separator ++ rest)
    (walkLinks fs create links (if IsAbs t then [] else cur) (Split t Separator ++ rest)) ->
  P (S links) cur (e :: rest)
    (walkLinks fs create links (if IsAbs t then [] else cur) (Split t Separator ++ rest)).
Hypothesis Pdir : forall links cur e rest,
  keptElem e = true -> e <> ".." ->
  nodeAt fs (keyOf (cur ++ [e])) = Some Directory ->
  P links (cur ++ [e]) rest (walkLinks fs create links (cur ++ [e]) rest) ->
  P links cur (e :: rest) (walkLinks fs create links (cur ++ [e]) rest).
Hypothesis Pfile : forall links cur e rest data,
  keptElem e = true -> e <> ".." ->
  nodeAt fs (keyOf (cur ++ [e])) = Some (File data) ->
  P links cur (e :: rest)
    match rest with
    | [] => inr (cur ++ [e])
    | _ => inl ENOTDIR
    end.

Lemma walkLinks_cases (links : nat) :
  forall cur rest, P links cur rest (walkLinks fs create links cur rest).
Proof.
  induction links as [|links IHl]; intros cur rest; revert cur;
    induction rest as [|e rest IHr]; intros cur;
    rewrite ?walkLinks_nil, ?walkLinks_cons; try apply Pnil.
  - destruct (keptElem e) eqn:Hk; cbn [negb]; [|apply Pskip; [exact Hk | apply IHr]].
    destruct (String.eqb_spec e "..") as [->|Hdd]; [apply Pup, IHr|].
    destruct (nodeAt fs (keyOf (cur ++ [e]))) as [[data| |t]|] eqn:Hn.
    + eapply Pfile; eassumption.
    + apply Pdir; [assumption .. | apply IHr].
    + eapply Ploop; eassumption.
    + apply Pmissing; assumption.
  - destruct (keptElem e) eqn:Hk; cbn [negb]; [|apply Pskip; [exact Hk | apply IHr]].
    destruct (String.eqb_spec e "..") as [->|Hdd]; [apply Pup, IHr|].
    destruct (nodeAt fs (keyOf (cur ++ [e]))) as [[data| |t]|] eqn:Hn.
    + eapply Pfile; eassumption.
    + apply Pdir; [assumption .. | apply IHr].
    + eapply Plink; [eassumption .. | apply IHl].
    + apply Pmissing; assumption.
Qed.

End WalkInduction.

(** The elements a walk returns are ordinary ones when it starts from
    ordinary ones. *)
Lemma walkLinks_normal (fs : gmap string node) (create : bool) (links : nat)
    (cur rest elems : list string) :
  Forall (fun e => normalElem e = true) cur ->
  Forall (fun e => Contains e sep = false) rest ->
  walkLinks fs create links cur rest = inr elems ->
  Forall (fun e => normalElem e = true) elems.
Proof.
  revert elems.
  apply (walkLinks_cases fs create
           (fun _ cur rest r =>
              forall elems,
                Forall (fun e => normalElem e = true) cur ->
                Forall (fun e => Contains e sep = false) rest ->
                r = inr elems -> Forall (fun e => normalElem e = true) elems)); clear.
  - intros _ cur elems Hc _ [= <-]. exact Hc.
  - intros links cur e rest _ IH elems Hc Hr. apply IH; [exact Hc|].
    apply Forall_cons in Hr as [_ Hr]. exact Hr.
  - intros links cur rest IH elems Hc Hr. apply IH.
    + rewrite removelast_firstn_len. apply Forall_take. exact Hc.
    + apply Forall_cons in Hr as [_ Hr]. exact Hr.
  - intros links cur e rest Hk Hdd _ elems Hc Hr H.
    destruct rest; [|discriminate]. destruct create; [|discriminate]. injection H as <-.
    apply Forall_app. split; [exact Hc|]. constructor; [|constructor].
    apply Forall_cons in Hr as [Hs _]. unfold normalElem. rewrite Hk, Hs.
    apply String.eqb_neq in Hdd. rewrite Hdd. reflexivity.
  - intros; discriminate.
  - intros links cur e rest t _ _ _ IH elems Hc Hr. apply IH.
    + destruct (IsAbs t); [constructor | exact Hc].
    + apply Forall_app. split; [apply Split_elems_noSep|].
      apply Forall_cons in Hr as [_ Hr]. exact Hr.
  - intros links cur e rest Hk Hdd _ IH elems Hc Hr. apply Forall_cons in Hr as [Hs Hr].
    apply IH; [|exact Hr]. apply Forall_app. split; [exact Hc|]. constructor; [|constructor].
    unfold normalElem. rewrite Hk, Hs. apply String.eqb_neq in Hdd. rewrite Hdd. reflexivity.
  - intros links cur e rest data Hk Hdd _ elems Hc Hr H.
    destruct rest; [|discriminate]. injection H as <-.
    apply Forall_app. split; [exact Hc|]. constructor; [|constructor].
    apply Forall_cons in Hr as [Hs _]. unfold normalElem. rewrite Hk, Hs.
    apply String.eqb_neq in Hdd. rewrite Hdd. reflexivity.
Qed.

(** ** What the validator lets through *)

Lemma EvalSymlinks_key (w : World) (p realPath : string) :
  IsAbs p = true ->
  EvalSymlinks w p = Ok realPath ->
  exists elems, Forall (fun e => normalElem e = true) elems /\ realPath = keyOf elems.
Proof.
  intros Habs H. unfold EvalSymlinks, resolve, startOf in H. rewrite Habs in H.
  destruct (String.eqb p ""); [discriminate|].
  destruct (walkLinks (files w) false maxLinks [] (Split p Separator)) as [en|elems] eqn:Hw;
    [discriminate|].
  injection H as <-. exists elems. split; [|reflexivity].
  apply (walkLinks_normal _ _ _ _ _ _ (Forall_nil_2 _) (Split_elems_noSep p) Hw).
Qed.

Lemma IsAbs_Join_head (x : string) (l : list string) :
  IsAbs x = true -> IsAbs (Join (x :: l) sep) = true.
Proof.
  intros H. destruct x as [|a x]; [discriminate|].
  unfold IsAbs, sep in *. rewrite HasPrefix_cons in H. apply andb_prop in H as [Ha _].
  destruct l as [|y l]; [|rewrite Join_cons, append_cons];
    (etransitivity; [apply HasPrefix_cons|]); rewrite Ha, HasPrefix_nil; reflexivity.
Qed.

Lemma Clean_abs (p : string) : IsAbs p = true -> IsAbs (Clean p) = true.
Proof. intros H. destruct (Clean_abs_key p H) as (pe & _ & ->). apply keyOf_abs. Qed.

(** X10: a path that [ValidatePath] lets through is absolute and clean, and
    it is one of the allowed directories (as cleaned at construction) or
    lies below one, on a separator boundary.  This holds in every state of
    the file system and for every requested path, relative ones and those
    that start with a tilde included; what is asked of the environment is
    that [os.Getwd] answers with an absolute path. *)
Theorem X10_validated_paths_are_inside (dirs : list string) (w : World)
    (requestedPath validPath : string) :
  (forall workDir, cwd w = Some workDir -> IsAbs workDir = true) ->
  ValidatePath (NewPathValidator dirs) w requestedPath = Ok validPath ->
  IsAbs validPath = true /\ Clean validPath = validPath /\
  exists allowedDir, In allowedDir dirs /\ isContained validPath (Clean allowedDir) = true.
Proof.
  intros Hcwd H. unfold ValidatePath in H.
  destruct (String.eqb requestedPath ""); [discriminate|].
  set (expandedPath := ExpandHomePath w requestedPath) in H.
  assert (Hkey : forall absolutePath,
             (if IsAbs expandedPath then Ok (Clean expandedPath)
              else match cwd w with
                   | None => Err (Wrap "failed to get working directory: "
                                    (PathError "getwd" "." ENOENT))
                   | Some workDir => Ok (Clean (JoinPath [workDir; expandedPath]))
                   end) = Ok absolutePath ->
             exists pe, Forall (fun e => normalElem e = true) pe /\ absolutePath = keyOf pe).
  { intros absolutePath Ha. destruct (IsAbs expandedPath) eqn:He.
    - injection Ha as <-. apply Clean_abs_key. exact He.
    - destruct (cwd w) as [workDir|] eqn:Hwd; [|discriminate]. injection Ha as <-.
      specialize (Hcwd workDir eq_refl). apply Clean_abs_key. unfold JoinPath.
      assert (Hne : nonEmpty workDir = true) by (destruct workDir; [discriminate | reflexivity]).
      cbn [List.filter]. rewrite Hne.
      destruct (nonEmpty expandedPath); apply Clean_abs, IsAbs_Join_head; exact Hcwd. }
  destruct (if IsAbs expandedPath then _ else _) as [absolutePath|err]; [|discriminate].
  destruct (Hkey absolutePath eq_refl) as (pe & Hpe & ->). clear Hkey.
  destruct (isPathAllowed (NewPathValidator dirs) (keyOf pe)) eqn:Hallowed;
    [|discriminate]. cbn [negb] in H.
  assert (Hgoal : forall elems,
             Forall (fun e => normalElem e = true) elems ->
             isPathAllowed (NewPathValidator dirs) (keyOf elems) = true ->
             IsAbs (keyOf elems) = true /\ Clean (keyOf elems) = keyOf elems /\
             exists allowedDir,
               In allowedDir dirs /\ isContained (keyOf elems) (Clean allowedDir) = true).
  { intros elems Hn Hal. split; [apply keyOf_abs|]. split; [apply Clean_keyOf, Hn|].
    destruct (isPathAllowed_sound dirs _ (keyOf_abs elems) Hal) as (d & Hin & Hc).
    rewrite (Clean_keyOf elems Hn) in Hc. eauto. }
  unfold validateRealPath in H.
  destruct (EvalSymlinks w (keyOf pe)) as [realPath|err] eqn:Hreal.
  - destruct (isPathAllowed (NewPathValidator dirs) realPath) eqn:Hal; [|discriminate].
    injection H as <-.
    destruct (EvalSymlinks_key w _ _ (keyOf_abs pe) Hreal) as (elems & Hn & ->).
    apply Hgoal; assumption.
  - destruct (EvalSymlinks w (Dir (keyOf pe))) as [realParentPath|]; [|discriminate].
    destruct (isPathAllowed (NewPathValidator dirs) realParentPath); [|discriminate].
    injection H as <-. apply Hgoal; assumption.
Qed.

Lemma X10_validated_paths_are_inside_witness :
  IsAbs "/sandbox/big.txt" = true /\ Clean "/sandbox/big.txt" = "/sandbox/big.txt" /\
  exists allowedDir,
    In allowedDir ["/sandbox"] /\ isContained "/sandbox/big.txt" (Clean allowedDir) = true.
Proof.
  apply (X10_validated_paths_are_inside ["/sandbox"] (oneFileWorld "hello")
           "sandbox/./big.txt" "/sandbox/big.txt").
  - intros workDir [= <-]. reflexivity.
  - vm_compute. reflexivity.
Defined.

(** ** Writing, then reading *)

(** Where a walk that only went through directories ends, there is no
    link. *)
Lemma walkLinks_not_link (fs : gmap string node) (create : bool) (links : nat)
    (cur rest elems : list string) (t : string) :
  (forall n, nodeAt fs (keyOf (take n cur)) = Some Directory) ->
  walkLinks fs create links cur rest = inr elems ->
  nodeAt fs (keyOf elems) <> Some (Symlink t).
Proof.
  revert elems.
  apply (walkLinks_cases fs create
           (fun _ cur rest r =>
              forall elems,
                (forall n, nodeAt fs (keyOf (take n cur)) = Some Directory) ->
                r = inr elems -> nodeAt fs (keyOf elems) <> Some (Symlink t))); clear links cur rest.
  - intros _ cur elems Hc [= <-]. specialize (Hc (length cur)).
    rewrite firstn_all in Hc. rewrite Hc. discriminate.
  - intros links cur e rest _ IH elems Hc. apply IH, Hc.
  - intros links cur rest IH elems Hc. apply IH. intros n.
    rewrite removelast_firstn_len, take_take. apply Hc.
  - intros links cur e rest _ _ Hn elems _ H.
    destruct rest; [|discriminate]. destruct create; [|discriminate]. injection H as <-.
    rewrite Hn. discriminate.
  - intros; discriminate.
  - intros links cur e rest t' _ _ _ IH elems Hc. apply IH. intros n.
    destruct (IsAbs t'); [rewrite take_nil; reflexivity | apply Hc].
  - intros links cur e rest _ _ Hn IH elems Hc. apply IH. intros n.
    destruct (Nat.le_gt_cases n (length cur)) as [Hle|Hgt].
    + rewrite take_app_le by exact Hle. apply Hc.
    + rewrite take_ge by (rewrite length_app; simpl; lia). exact Hn.
  - intros links cur e rest data _ _ Hn elems _ H.
    destruct rest; [|discriminate]. injection H as <-. rewrite Hn. discriminate.
Qed.

Lemma nodeAt_insert (fs : gmap string node) (key k : string) (n : node) :
  String.eqb key sep = false ->
  nodeAt (<[key := n]> fs) k = if String.eqb k key then Some n else nodeAt fs k.
Proof.
  intros Hkey. unfold nodeAt. destruct (String.eqb_spec k key) as [->|Hne].
  - rewrite Hkey, lookup_insert_eq. reflexivity.
  - rewrite lookup_insert_ne by congruence. reflexivity.
Qed.

(** A walk that ends where a file is put or replaced ends there afterwards
    too. *)
Lemma walkLinks_insert (fs : gmap string node) (key data : string) (links : nat)
    (cur rest elems : list string) :
  String.eqb key sep = false ->
  nodeAt fs key <> Some Directory ->
  (forall t, nodeAt fs key <> Some (Symlink t)) ->
  walkLinks fs true links cur rest = inr elems ->
  keyOf elems = key ->
  walkLinks (<[key := File data]> fs) false links cur rest = inr elems.
Proof.
  intros Hkey Hnd Hnl. revert elems.
  apply (walkLinks_cases fs true
           (fun links cur rest r =>
              forall elems,
                r = inr elems -> keyOf elems = key ->
                walkLinks (<[key := File data]> fs) false links cur rest = inr elems));
    clear links cur rest.
  - intros links cur elems [= <-] _. apply walkLinks_nil.
  - intros links cur e rest Hk IH elems H Hend.
    rewrite walkLinks_cons, Hk. apply IH; assumption.
  - intros links cur rest IH elems H Hend.
    rewrite walkLinks_cons. apply IH; assumption.
  - intros links cur e rest Hk Hdd Hn elems H Hend.
    destruct rest; [|discriminate]. injection H as <-.
    apply String.eqb_neq in Hdd.
    rewrite walkLinks_cons, Hk, Hdd, (nodeAt_insert _ _ _ _ Hkey), Hend, String.eqb_refl.
    reflexivity.
  - intros; discriminate.
  - intros links cur e rest t Hk Hdd Hn IH elems H Hend.
    apply String.eqb_neq in Hdd.
    rewrite walkLinks_cons, Hk, Hdd, (nodeAt_insert _ _ _ _ Hkey).
    destruct (String.eqb_spec (keyOf (cur ++ [e])) key) as [Heq|_].
    { exfalso. apply (Hnl t). rewrite <- Heq. exact Hn. }
    rewrite Hn. apply IH; assumption.
  - intros links cur e rest Hk Hdd Hn IH elems H Hend.
    apply String.eqb_neq in Hdd.
    rewrite walkLinks_cons, Hk, Hdd, (nodeAt_insert _ _ _ _ Hkey).
    destruct (String.eqb_spec (keyOf (cur ++ [e])) key) as [Heq|_].
    { exfalso. apply Hnd. rewrite <- Heq. exact Hn. }
    rewrite Hn. apply IH; assumption.
  - intros links cur e rest data' Hk Hdd Hn elems H Hend.
    destruct rest; [|discriminate]. injection H as <-.
    apply String.eqb_neq in Hdd.
    rewrite walkLinks_cons, Hk, Hdd, (nodeAt_insert _ _ _ _ Hkey), Hend, String.eqb_refl.
    reflexivity.
Qed.

(** [os.WriteFile], then [os.ReadFile] of the same absolute path. *)
Lemma WriteFileSys_ReadFileSys (w w' : World) (path data : string) :
  IsAbs path = true ->
  WriteFileSys w path data = (None, w') ->
  ReadFileSys w' path = Ok data.
Proof.
  intros Habs H. unfold WriteFileSys, resolve, startOf in H. rewrite Habs in H.
  destruct (String.eqb path "") eqn:Hempty; [discriminate|].
  destruct (walkLinks (files w) true maxLinks [] (Split path Separator)) as [en|elems] eqn:Hw;
    [discriminate|].
  assert (Hnl : forall t, nodeAt (files w) (keyOf elems) <> Some (Symlink t)).
  { intros t. apply (walkLinks_not_link _ _ _ _ _ _ t) in Hw; [exact Hw|].
    intros n. rewrite take_nil. reflexivity. }
  assert (Hnd : nodeAt (files w) (keyOf elems) <> Some Directory).
  { intros Hd. rewrite Hd in H. discriminate. }
  assert (Hkey : String.eqb (keyOf elems) sep = false).
  { apply String.eqb_neq. intros Heq. apply Hnd. rewrite Heq. reflexivity. }
  assert (Hw' : w' = withFiles w (<[keyOf elems := File data]> (files w))).
  { destruct (nodeAt (files w) (keyOf elems)) as [[| |]|]; congruence. }
  subst w'. unfold ReadFileSys, resolve, startOf. cbn [withFiles files cwd].
  rewrite Habs, Hempty.
  rewrite (walkLinks_insert _ _ data _ _ _ _ Hkey Hnd Hnl Hw eq_refl).
  rewrite (nodeAt_insert _ _ _ _ Hkey), String.eqb_refl. reflexivity.
Qed.

(** X11: what [WriteFile] wrote under an absolute path, [ReadFile] gives
    back from the same path, unless it is more than [maxReadSize] bytes:
    writing such content succeeds, reading it back is refused. *)
Theorem X11_write_then_read (ops : Operations) (filePath content : string)
    (s s1 : State) :
  IsAbs filePath = true ->
  WriteFile ops filePath content s = Some (None, s1) ->
  exists s2,
    ReadFile ops filePath s1
    = Some (if (maxReadSize <? len content)%Z then Err errTooLarge else Ok content, s2) /\
    world s2 = world s1.
Proof.
  intros Habs H. apply ReadFile_readable. unfold WriteFile in H.
  rewrite (bind_Some _ _ _ _ _ (emit_run _ _)) in H.
  destruct (String.eqb filePath ""); [discriminate|].
  rewrite (bind_Some _ _ _ _ _ (sysWrite_run _ _ _ _)) in H. cbn [world trace] in H.
  destruct (WriteFileSys (world s) filePath content) as [[err|] w'] eqn:Hsys;
    cbn [fst snd] in H; [discriminate|].
  injection H as <-. cbn [world]. apply (WriteFileSys_ReadFileSys (world s)); assumption.
Qed.

Lemma X11_write_then_read_witness :
  exists s2,
    ReadFile sandboxOps "/sandbox/new.txt"
      (mkState
         (withFiles helloWorld (<["/sandbox/new.txt" := File "abc"]> (files helloWorld)))
         [EvCall "WriteFile" ["/sandbox/new.txt"]; EvSys "writefile" "/sandbox/new.txt"])
    = Some (if (maxReadSize <? len "abc")%Z then Err errTooLarge else Ok "abc", s2) /\
    world s2
    = world (mkState
               (withFiles helloWorld (<["/sandbox/new.txt" := File "abc"]> (files helloWorld)))
               [EvCall "WriteFile" ["/sandbox/new.txt"]; EvSys "writefile" "/sandbox/new.txt"]).
Proof.
  apply (X11_write_then_read sandboxOps "/sandbox/new.txt" "abc" (mkState helloWorld [])).
  - reflexivity.
  - vm_compute. reflexivity.
Defined.

Lemma ReadFile_Ok_inv (ops : Operations) (filePath data : string) (s s1 : State) :
  ReadFile ops filePath s = Some (Ok data, s1) ->
  ReadFileSys (world s) filePath = Ok data /\ world s1 = world s.
Proof.
  intros H. split; [|exact (ReadFile_readOnly ops filePath _ _ _ H)].
  unfold ReadFile in H. rewrite (bind_Some _ _ _ _ _ (emit_run _ _)) in H.
  destruct (String.eqb filePath ""); [discriminate|].
  rewrite (bind_Some _ _ _ _ _ (sysRead_run _ _ _ _)) in H. cbn [world trace] in H.
  destruct (Stat (world s) filePath) as [info|err]; [|discriminate].
  destruct (maxReadSize <? Size info)%Z; [discriminate|].
  rewrite (bind_Some _ _ _ _ _ (sysRead_run _ _ _ _)) in H. cbn [world trace] in H.
  destruct (ReadFileSys (world s) filePath) as [data'|err]; [|discriminate].
  injection H as <- _. reflexivity.
Qed.

Section EditWritten.

Variable PatchText : string -> string -> string.

(** X12: when [EditFile] succeeds without [dryRun] on an absolute path, the
    file holds afterwards the content with all edits applied, and the
    text returned is the diff between what the file held and what it
    holds now. *)
Theorem X12_edit_is_written (ops : Operations) (filePath diff : string)
    (edits : list EditOperation) (s s' : State) :
  IsAbs filePath = true ->
  EditFile PatchText ops filePath edits false s = Some (Ok diff, s') ->
  exists original modified,
    ReadFileSys (world s) filePath = Ok original /\
    applyEdits original edits = Ok modified /\
    diff = createUnifiedDiff PatchText original modified filePath /\
    ReadFileSys (world s') filePath = Ok modified.
Proof.
  intros Habs H. unfold EditFile in H.
  rewrite (bind_Some _ _ _ _ _ (emit_run _ _)) in H.
  destruct (String.eqb filePath ""); [discriminate|].
  destruct edits as [|edit edits]; [discriminate|].
  unfold bind at 1 in H.
  destruct (ReadFile ops filePath _) as [[[original|err] s1]|] eqn:Hread; try discriminate.
  apply ReadFile_Ok_inv in Hread as [Hsys Hw1]. cbn [world] in Hsys, Hw1.
  destruct (applyEdits original (edit :: edits)) as [modified|err] eqn:Happly;
    [|discriminate].
  cbn [negb] in H. unfold bind at 1 in H.
  destruct (WriteFile ops filePath modified s1) as [[[err|] s2]|] eqn:Hwrite;
    try discriminate.
  injection H as <- <-. exists original, modified. repeat split; try assumption.
  unfold WriteFile in Hwrite. rewrite (bind_Some _ _ _ _ _ (emit_run _ _)) in Hwrite.
  destruct (String.eqb filePath ""); [discriminate|].
  rewrite (bind_Some _ _ _ _ _ (sysWrite_run _ _ _ _)) in Hwrite. cbn [world trace] in Hwrite.
  destruct (WriteFileSys (world s1) filePath modified) as [[err|] w'] eqn:Hw;
    cbn [fst snd] in Hwrite; [discriminate|].
  injection Hwrite as <-. cbn [world]. apply (WriteFileSys_ReadFileSys (world s1)); assumption.
Qed.

End EditWritten.

Lemma X12_edit_is_written_witness :
  exists diff s',
    EditFile (fun _ modified => modified) sandboxOps "/sandbox/a.txt" [mkEdit "hello" "hi"]
      false (mkState helloWorld []) = Some (Ok diff, s') /\
    exists original modified,
      ReadFileSys helloWorld "/sandbox/a.txt" = Ok original /\
      applyEdits original [mkEdit "hello" "hi"] = Ok modified /\
      diff = createUnifiedDiff (fun _ modified => modified) original modified "/sandbox/a.txt" /\
      ReadFileSys (world s') "/sandbox/a.txt" = Ok modified.
Proof.
  assert (Hok : endsOk (EditFile (fun _ modified => modified) sandboxOps "/sandbox/a.txt"
                          [mkEdit "hello" "hi"] false (mkState helloWorld [])) = true)
    by (vm_compute; reflexivity).
  destruct (EditFile _ sandboxOps "/sandbox/a.txt" _ false _) as [[[diff|err] s']|] eqn:Hrun;
    try discriminate.
  exists diff, s'. split; [reflexivity|].
  apply (X12_edit_is_written (fun _ modified => modified) sandboxOps "/sandbox/a.txt" diff
           [mkEdit "hello" "hi"] (mkState helloWorld []) s').
  - reflexivity.
  - exact Hrun.
Defined.

(** ** What a search returns *)

Section WalkKeeps.

Context {A : Type}.
Variable fn : A -> string -> option OsInfo -> option error -> M (walkRet * A).
Variable w : World.
Variable I : A -> Prop.

(** The walk function leaves the file system alone, keeps [I] and never
    answers with an error. *)
Hypothesis fn_keeps : forall acc path d err s r acc' s',
  world s = w -> I acc ->
  fn acc path d err s = Some ((r, acc'), s') ->
  world s' = w /\ I acc' /\ forall e, r <> WalkErr e.

Lemma walkDir_keeps (fuel : nat) :
  forall acc path d s r acc' s',
    world s = w -> I acc ->
    walkDir fn fuel acc path d s = Some ((r, acc'), s') ->
    world s' = w /\ I acc' /\ forall e, r <> WalkErr e.
Proof.
  induction fuel as [|fuel IH]; intros acc path d s r acc' s' Hw HI H; [discriminate|].
  simpl in H. unfold bind at 1 in H.
  destruct (fn acc path (Some d) None s) as [[[r1 acc1] s1]|] eqn:Hf; [|discriminate].
  apply fn_keeps in Hf as (Hw1 & HI1 & Hne1); [|assumption ..].
  assert (Hret : forall (r0 : walkRet) (acc0 : A) (s0 : State),
             world s0 = w -> I acc0 -> (forall e, r0 <> WalkErr e) ->
             ret (r0, acc0) s0 = Some ((r, acc'), s') ->
             world s' = w /\ I acc' /\ forall e, r <> WalkErr e).
  { intros r0 acc0 s0 Hw0 HI0 Hne0 [= <- <- <-]. auto. }
  destruct r1; destruct (IsDir d);
    try (eapply Hret; [| | |exact H]; solve [assumption | discriminate]).
  rewrite (bind_Some _ _ _ _ _ (sysRead_run _ _ _ _)) in H.
  set (s2 := mkState (world s1) (trace s1 ++ [EvSys "readdir" path])) in H.
  assert (Hw2 : world s2 = w) by exact Hw1. cbn [world] in H.
  destruct (ReadDir (world s1) path) as [dirs|err].
  - clearbody s2. revert acc1 s2 HI1 Hw2 H.
    induction dirs as [|d1 rest IHd]; intros acc1 s2 HI1 Hw2 H.
    + eapply Hret; [| | |exact H]; solve [assumption | discriminate].
    + unfold bind at 1 in H.
      destruct (walkDir fn fuel acc1 (JoinPath [path; Name d1]) d1 s2)
        as [[[r3 acc3] s3]|] eqn:Hsub; [|discriminate].
      apply IH in Hsub as (Hw3 & HI3 & Hne3); [|assumption ..].
      destruct r3.
      * apply (IHd acc3 s3); assumption.
      * eapply Hret; [| | |exact H]; solve [assumption | discriminate].
      * exfalso. exact (Hne3 e eq_refl).
  - unfold bind at 1 in H.
    destruct (fn acc1 path (Some d) (Some err) s2) as [[[r3 acc3] s3]|] eqn:Hf2;
      [|discriminate].
    apply fn_keeps in Hf2 as (Hw3 & HI3 & Hne3); [|assumption ..].
    destruct r3; (eapply Hret; [| | |exact H]; solve [assumption | discriminate]).
Qed.

Lemma WalkDir_keeps (fuel : nat) (acc : A) (root : string) (s s' : State)
    (r : option error) (acc' : A) :
  world s = w -> I acc ->
  WalkDir fn fuel acc root s = Some ((r, acc'), s') ->
  r = None /\ I acc'.
Proof.
  intros Hw HI H. unfold WalkDir in H.
  rewrite (bind_Some _ _ _ _ _ (sysRead_run _ _ _ _)) in H. cbn [world] in H.
  unfold bind at 1 in H.
  match type of H with
  | match ?m with _ => _ end = _ => destruct m as [[[r1 acc1] s1]|] eqn:Hrun; [|discriminate]
  end.
  assert (Hk : world s1 = w /\ I acc1 /\ forall e, r1 <> WalkErr e).
  { destruct (Lstat (world s) root) as [info|err].
    - eapply walkDir_keeps; [| |exact Hrun]; assumption.
    - eapply fn_keeps; [| |exact Hrun]; assumption. }
  destruct Hk as (_ & HI1 & Hne).
  destruct r1; injection H as <- <- _; auto. exfalso. exact (Hne e eq_refl).
Qed.

End WalkKeeps.

(** X13: [SearchFiles] with a root and a pattern never answers with an
    error, whatever the walk meets (a root that does not exist gives the
    empty list), and every path it returns was let through by
    [ValidatePath] and matched by no exclude pattern. *)
Theorem X13_search_returns_validated_paths (unicodeLower : N -> N)
    (otherMatch : string -> string -> option bool)
    (ops : Operations) (rootPath pattern : string)
    (excludePatterns : list string) (s s' : State) (r : result (list string)) :
  rootPath <> "" -> pattern <> "" ->
  SearchFiles unicodeLower otherMatch ops rootPath pattern excludePatterns s = Some (r, s') ->
  exists results,
    r = Ok results /\
    Forall (fun path =>
              (exists validPath,
                 ValidatePath (pathValidator ops) (world s) path = Ok validPath) /\
              (forall relativePath,
                 Rel rootPath path = Some relativePath ->
                 shouldExclude otherMatch relativePath excludePatterns = false))
      results.
Proof.
  intros Hroot Hpat H. unfold SearchFiles in H.
  rewrite (bind_Some _ _ _ _ _ (emit_run _ _)) in H.
  apply String.eqb_neq in Hroot, Hpat. rewrite Hroot, Hpat in H.
  unfold bind at 1, getWorld at 1 in H. cbn [world] in H. unfold bind at 1 in H.
  match type of H with
  | match ?m with _ => _ end = _ => destruct m as [[[err results] s1]|] eqn:Hrun; [|discriminate]
  end.
  eapply (WalkDir_keeps _ (world s)) in Hrun as [-> Hres].
  - cbn [fst snd] in H. injection H as <- _. exists results. split; [reflexivity | exact Hres].
  - clear. intros acc path d err s0 r acc' s1 Hw HI Hf.
    split; [rewrite <- Hw; exact (searchFn_readOnly _ _ _ _ _ _ _ _ _ _ _ _ _ Hf)|].
    unfold searchFn in Hf.
    destruct err as [err|]; [injection Hf as <- <- _; split; [exact HI | discriminate]|].
    destruct d as [d|]; [|injection Hf as <- <- _; split; [exact HI | discriminate]].
    rewrite (bind_Some _ _ _ _ _ (validate_run _ _ _)) in Hf. rewrite Hw in Hf.
    destruct (ValidatePath (pathValidator ops) (world s) path) as [validPath|verr] eqn:Hv.
    2:{ injection Hf as <- <- _. split; [exact HI | destruct (IsDir d); discriminate]. }
    destruct (match Rel rootPath path with
              | Some relativePath => shouldExclude otherMatch relativePath excludePatterns
              | None => false
              end) eqn:Hex.
    { injection Hf as <- <- _. split; [exact HI | destruct (IsDir d); discriminate]. }
    destruct (Contains (ToLower unicodeLower (Name d)) (ToLower unicodeLower pattern));
      injection Hf as <- <- _; (split; [|discriminate]); [|exact HI].
    apply Forall_app. split; [exact HI|]. constructor; [|constructor].
    split; [eauto|]. intros rel Hrel. rewrite Hrel in Hex. exact Hex.
  - reflexivity.
  - constructor.
Qed.

Lemma X13_search_returns_validated_paths_witness :
  exists r s',
    SearchFiles (fun r => r) (fun _ _ => None) rootOps "/root" "foo" ["exclude"]
      (mkState searchWorld []) = Some (r, s') /\
    exists results,
      r = Ok results /\
      Forall (fun path =>
                (exists validPath,
                   ValidatePath (pathValidator rootOps) searchWorld path = Ok validPath) /\
                (forall relativePath,
                   Rel "/root" path = Some relativePath ->
                   shouldExclude (fun _ _ => None) relativePath ["exclude"] = false))
        results.
Proof.
  assert (Hran : ran (SearchFiles (fun r => r) (fun _ _ => None) rootOps "/root" "foo"
                        ["exclude"] (mkState searchWorld []))
                 = true) by (vm_compute; reflexivity).
  destruct (SearchFiles (fun r => r) (fun _ _ => None) rootOps "/root" "foo" ["exclude"] _)
    as [[r s']|] eqn:Hrun; [|discriminate Hran].
  exists r, s'. split; [reflexivity|].
  apply (X13_search_returns_validated_paths (fun r => r) (fun _ _ => None)
           rootOps "/root" "foo" ["exclude"] (mkState searchWorld []) s' r).
  - discriminate.
  - discriminate.
  - exact Hrun.
Defined.

(** ** What a tree holds *)

Lemma treeEntries_lists
    (recur : string -> gset string -> M (result (list TreeEntry) * gset string))
    (ops : Operations) (dirPath : string) (w : World) :
  (forall p v, readOnly (recur p v)) ->
  forall entries acc visited s r visited' s',
    world s = w ->
    treeEntries recur ops dirPath entries acc visited s = Some ((r, visited'), s') ->
    exists tree,
      r = Ok tree /\
      map entryLabel tree
      = map entryLabel acc ++
        map labelOf (List.filter (listed (pathValidator ops) w dirPath) entries).
Proof.
  intros Hro. induction entries as [|entry rest IH]; intros acc visited s r visited' s' Hw H.
  - injection H as <- _ _. exists acc. rewrite app_nil_r. auto.
  - cbn [treeEntries] in H. cbn [List.filter]. unfold listed at 1.
    assert (Hlabel : forall children,
               entryLabel (mkTreeEntry (Name entry)
                             (if IsDir entry then "directory" else "file") children)
               = labelOf entry) by reflexivity.
    destruct (IsDir entry) eqn:Hd; cbn [negb orb].
    + rewrite (bind_Some _ _ _ _ _ (validate_run _ _ _)) in H. rewrite Hw in H.
      destruct (ValidatePath (pathValidator ops) w (JoinPath [dirPath; Name entry]))
        as [validPath|err].
      * unfold bind at 1 in H.
        destruct (recur validPath visited _) as [[[sub visited1] s1]|] eqn:Hrec;
          [|discriminate].
        apply Hro in Hrec. cbn [world] in Hrec.
        apply IH in H as (tree & -> & Ht); [|congruence].
        exists tree. split; [reflexivity|].
        rewrite Ht, map_app, <- app_assoc. cbn [map app]. rewrite Hlabel. reflexivity.
      * apply IH in H as (tree & -> & Ht); [|reflexivity]. eauto.
    + apply IH in H as (tree & -> & Ht); [|exact Hw].
      exists tree. split; [reflexivity|].
      rewrite Ht, map_app, <- app_assoc. cbn [map app]. rewrite Hlabel. reflexivity.
Qed.

Lemma treeEntries_shape
    (recur : string -> gset string -> M (result (list TreeEntry) * gset string))
    (ops : Operations) (dirPath : string) :
  (forall p v s t v' s', recur p v s = Some ((Ok t, v'), s') ->
                         forallb entryShape t = true) ->
  forall entries acc visited s tree visited' s',
    forallb entryShape acc = true ->
    treeEntries recur ops dirPath entries acc visited s = Some ((Ok tree, visited'), s') ->
    forallb entryShape tree = true.
Proof.
  intros Hrec. induction entries as [|entry rest IH];
    intros acc visited s tree visited' s' Hacc H.
  - injection H as <- _ _. exact Hacc.
  - cbn [treeEntries] in H. destruct (IsDir entry).
    + rewrite (bind_Some _ _ _ _ _ (validate_run _ _ _)) in H.
      destruct (ValidatePath (pathValidator ops) (world s) (JoinPath [dirPath; Name entry]))
        as [validPath|err]; [|exact (IH _ _ _ _ _ _ Hacc H)].
      unfold bind at 1 in H.
      destruct (recur validPath visited _) as [[[sub visited1] s1]|] eqn:Hsub;
        [|discriminate].
      apply IH in H; [exact H|]. rewrite forallb_app, Hacc. cbn [forallb entryShape andb].
      rewrite andb_true_r. destruct sub as [children|err]; [|reflexivity].
      exact (Hrec _ _ _ _ _ _ Hsub).
    + apply IH in H; [exact H|]. rewrite forallb_app, Hacc. reflexivity.
Qed.

Lemma buildTreeAux_shape (ops : Operations) (fuel : nat) :
  forall dirPath visited depth s tree visited' s',
    buildTreeAux fuel ops dirPath visited depth s = Some ((Ok tree, visited'), s') ->
    forallb entryShape tree = true.
Proof.
  induction fuel as [|fuel IH]; intros dirPath visited depth s tree visited' s' H;
    [discriminate|].
  cbn [buildTreeAux] in H. destruct (maxTreeDepth <? depth)%Z; [discriminate|].
  rewrite (bind_Some _ _ _ _ _ (sysRead_run _ _ _ _)) in H.
  case_bool_decide; [injection H as <- _ _; reflexivity|].
  rewrite (bind_Some _ _ _ _ _ (sysRead_run _ _ _ _)) in H. cbn [world] in H.
  destruct (ReadDir (world s) dirPath) as [entries|err]; [|discriminate].
  eapply treeEntries_shape; [| |exact H]; [|reflexivity].
  intros p v s0 t v' s1. apply IH.
Qed.

(** X14: the tree [buildTree] returns for a directory it has not visited
    holds, in the order of [os.ReadDir], the entries of that directory:
    every file and every other entry that is no directory as a [file], and
    every directory the validator lets through as a [directory]; a
    directory the validator refuses is left out without a word.  At every
    level a file has no list of children and a directory has one. *)
Theorem X14_tree_lists_the_directory (ops : Operations) (dirPath : string)
    (visited visited' : gset string) (depth : Z) (s s' : State) (tree : list TreeEntry) :
  realPathOf (world s) dirPath ∉ visited ->
  buildTree ops dirPath visited depth s = Some ((Ok tree, visited'), s') ->
  exists entries,
    ReadDir (world s) dirPath = Ok entries /\
    map entryLabel tree
    = map labelOf (List.filter (listed (pathValidator ops) (world s) dirPath) entries) /\
    forallb entryShape tree = true.
Proof.
  intros Hnew H. pose proof (buildTreeAux_shape _ _ _ _ _ _ _ _ _ H) as Hshape.
  unfold buildTree in H. cbn [buildTreeAux] in H.
  destruct (maxTreeDepth <? depth)%Z; [discriminate|].
  rewrite (bind_Some _ _ _ _ _ (sysRead_run _ _ _ _)) in H.
  case_bool_decide; [contradiction|].
  rewrite (bind_Some _ _ _ _ _ (sysRead_run _ _ _ _)) in H. cbn [world] in H.
  destruct (ReadDir (world s) dirPath) as [entries|err]; [|discriminate].
  exists entries. split; [reflexivity|]. split; [|exact Hshape].
  eapply (treeEntries_lists _ ops dirPath (world s)) in H as (tree' & [= <-] & Ht).
  - exact Ht.
  - intros p v. apply buildTreeAux_readOnly.
  - reflexivity.
Qed.

Lemma X14_tree_lists_the_directory_witness :
  exists tree visited' s',
    buildTree rootOps "/root" ∅ 0 (mkState searchWorld []) = Some ((Ok tree, visited'), s') /\
    exists entries,
      ReadDir searchWorld "/root" = Ok entries /\
      map entryLabel tree
      = map labelOf (List.filter (listed (pathValidator rootOps) searchWorld "/root") entries) /\
      forallb entryShape tree = true.
Proof.
  assert (Hsome : is_Some (treeOf (buildTree rootOps "/root" ∅ 0 (mkState searchWorld []))))
    by (vm_compute; eauto).
  destruct (buildTree rootOps "/root" ∅ 0 (mkState searchWorld []))
    as [[[[tree|err] visited'] s']|] eqn:Hrun;
    [|exfalso; destruct Hsome as [x Hx]; discriminate Hx ..].
  exists tree, visited', s'. split; [reflexivity|].
  apply (X14_tree_lists_the_directory rootOps "/root" ∅ visited' 0%Z
           (mkState searchWorld []) s' tree).
  - apply not_elem_of_empty.
  - exact Hrun.
Defined.

(** ** The directories of the command line *)

Lemma validateDirsFrom_length (w : World) (rest checked : list string) :
  length (validateDirsFrom w checked rest).2 = length checked + length rest.
Proof.
  revert checked. induction rest as [|given rest IH]; intros checked; simpl; [lia|].
  destruct (Abs w (ExpandHomePath w given)) as [absDir|err]; simpl.
  - destruct (Stat w absDir) as [info|err]; simpl.
    + destruct (IsDir info); simpl.
      * rewrite IH, length_app. simpl. lia.
      * rewrite length_app. simpl. lia.
    + rewrite length_app. simpl. lia.
  - rewrite length_app. simpl. lia.
Qed.

Lemma validateDirsFrom_ok (w : World) (rest checked dirs' : list string) :
  validateDirsFrom w checked rest = (None, dirs') ->
  exists added,
    dirs' = checked ++ added /\
    Forall2 (fun given dir =>
               Abs w (ExpandHomePath w given) = Ok dir /\
               exists info, Stat w dir = Ok info /\ IsDir info = true)
      rest added.
Proof.
  revert checked. induction rest as [|given rest IH]; intros checked H; simpl in H.
  - injection H as <-. exists []. rewrite app_nil_r. split; [reflexivity | constructor].
  - destruct (Abs w (ExpandHomePath w given)) as [absDir|err] eqn:Habs; [|discriminate].
    destruct (Stat w absDir) as [info|err] eqn:Hst; [|discriminate].
    destruct (IsDir info) eqn:Hd; [|discriminate]. cbn [negb] in H.
    apply IH in H as (added & -> & Hall). exists (absDir :: added).
    rewrite <- app_assoc. split; [reflexivity|]. constructor; [|exact Hall]. eauto.
Qed.

(** X15: [validateCommandLineDirectories] leaves the configuration with as
    many directories as it had, and the log level as it was.  When it
    reports no error there was at least one directory, and every entry has
    been replaced by the absolute form of its tilde-expanded text, which
    [os.Stat] found to be a directory. *)
Theorem X15_command_line_directories (w : World) (cfg cfg' : Config) (err : option error) :
  validateCommandLineDirectories w (Some cfg) = (err, Some cfg') ->
  LogLevel cfg' = LogLevel cfg /\
  length (AllowedDirectories cfg') = length (AllowedDirectories cfg) /\
  (err = None ->
   AllowedDirectories cfg <> [] /\
   Forall2 (fun given dir =>
              Abs w (ExpandHomePath w given) = Ok dir /\
              exists info, Stat w dir = Ok info /\ IsDir info = true)
     (AllowedDirectories cfg) (AllowedDirectories cfg')).
Proof.
  intros H. unfold validateCommandLineDirectories in H.
  destruct (AllowedDirectories cfg) as [|given dirs] eqn:Hdirs.
  { injection H as <- <-. rewrite Hdirs. repeat split; discriminate. }
  pose proof (validateDirsFrom_length w (given :: dirs) []) as Hlen.
  destruct (validateDirsFrom w [] (given :: dirs)) as [err0 dirs'] eqn:Hrun.
  injection H as <- <-. cbn [LogLevel AllowedDirectories snd] in *.
  split; [reflexivity|]. split; [exact Hlen|]. intros ->. split; [discriminate|].
  apply validateDirsFrom_ok in Hrun as (added & -> & Hall). exact Hall.
Qed.

Lemma X15_command_line_directories_witness :
  LogLevel (mkConfig ["/sandbox"; "/"] "info") = LogLevel (mkConfig ["/sandbox/."; "/sandbox/.."] "info") /\
  length (AllowedDirectories (mkConfig ["/sandbox"; "/"] "info"))
  = length (AllowedDirectories (mkConfig ["/sandbox/."; "/sandbox/.."] "info")) /\
  (@None error = None ->
   AllowedDirectories (mkConfig ["/sandbox/."; "/sandbox/.."] "info") <> [] /\
   Forall2 (fun given dir =>
              Abs helloWorld (ExpandHomePath helloWorld given) = Ok dir /\
              exists info, Stat helloWorld dir = Ok info /\ IsDir info = true)
     (AllowedDirectories (mkConfig ["/sandbox/."; "/sandbox/.."] "info"))
     (AllowedDirectories (mkConfig ["/sandbox"; "/"] "info"))).
Proof.
  apply (X15_command_line_directories helloWorld
           (mkConfig ["/sandbox/."; "/sandbox/.."] "info")
           (mkConfig ["/sandbox"; "/"] "info") None).
  vm_compute. reflexivity.
Defined.

(** ** The containment check, in full *)

Lemma HasPrefix_same_head (a x y : string) :
  HasPrefix (a +:+ x) (a +:+ y) = HasPrefix x y.
Proof.
  induction a as [|c a IH]; [reflexivity|].
  rewrite !append_cons, HasPrefix_cons, Ascii.eqb_refl. exact IH.
Qed.

Lemma HasPrefix_longer (a y : string) : y <> "" -> HasPrefix a (a +:+ y) = false.
Proof.
  intros Hy. induction a as [|c a IH].
  - rewrite append_nil_l. destruct y; [contradiction | reflexivity].
  - rewrite append_cons, HasPrefix_cons, Ascii.eqb_refl. exact IH.
Qed.

Lemma HasPrefix_below (de trem : list string) :
  Forall (fun e => normalElem e = true) de ->
  HasPrefix (keyOf (de ++ trem)) (childKey (keyOf de) "..")
  = match trem with
    | [] => false
    | t :: _ => HasPrefix t ".."
    end.
Proof.
  intros Hd. destruct de as [|e de].
  - change (childKey (keyOf []) "..") with (sep +:+ ".."). cbn [app]. unfold keyOf.
    rewrite HasPrefix_same_head. destruct trem as [|t trem]; [reflexivity|].
    apply HasPrefix_Join_head.
  - assert (He : e <> "").
    { apply Forall_cons in Hd as [He _]. apply normalElem_inv in He. tauto. }
    unfold childKey. rewrite (keyOf_not_root e de He).
    destruct trem as [|t trem].
    + rewrite app_nil_r. apply HasPrefix_longer. discriminate.
    + rewrite keyOf_app by discriminate. rewrite append_assoc, HasPrefix_same_head.
      rewrite HasPrefix_same_head. apply HasPrefix_Join_head.
Qed.

(** X16: on cleaned absolute paths the containment check of the validator
    says yes exactly when the path is the directory or lies below it on a
    separator boundary, and the first element below the directory does not
    begin with two dots. *)
Theorem X16_containment_check (path dir : string) :
  IsAbs path = true -> IsAbs dir = true ->
  isPathUnderDirectory (Clean path) (Clean dir)
  = isContained (Clean path) (Clean dir) &&
    negb (HasPrefix (Clean path) (childKey (Clean dir) "..")).
Proof.
  intros Hp Hd.
  destruct (Clean_abs_key path Hp) as (pe & Hpe & ->).
  destruct (Clean_abs_key dir Hd) as (de & Hde & ->).
  apply eq_true_iff_eq. rewrite andb_true_iff, negb_true_iff.
  rewrite (isPathUnderDirectory_keys de pe Hde Hpe), (isContained_keys de pe Hde Hpe).
  split.
  - intros (trem & -> & Ht). split; [eauto|]. rewrite (HasPrefix_below de trem Hde).
    destruct trem; [reflexivity | exact Ht].
  - intros [(trem & ->) Hn]. exists trem. split; [reflexivity|].
    rewrite (HasPrefix_below de trem Hde) in Hn. destruct trem; [exact I | exact Hn].
Qed.

Lemma X16_containment_check_witness :
  isPathUnderDirectory (Clean "/allowed/./..cache/x") (Clean "/allowed/")
  = isContained (Clean "/allowed/./..cache/x") (Clean "/allowed/") &&
    negb (HasPrefix (Clean "/allowed/./..cache/x") (childKey (Clean "/allowed/") "..")).
Proof.
  apply (X16_containment_check "/allowed/./..cache/x" "/allowed/"); reflexivity.
Defined.

(** ** Arguments past the hundredth *)

(** X17: the argument readers look at the first hundred entries of an
    array only: what comes after them changes nothing, for a required
    list of strings, an optional one, and the list of edits. *)
Theorem X17_entries_past_100_are_ignored (args : gmap string jvalue) (key : string)
    (raw more : list jvalue) :
  100 <= length raw ->
  getRequiredStringSlice (<[key := JArray (raw ++ more)]> args) key
  = getRequiredStringSlice (<[key := JArray raw]> args) key /\
  getOptionalStringSlice (<[key := JArray (raw ++ more)]> args) key
  = getOptionalStringSlice (<[key := JArray raw]> args) key /\
  getEditOperations (<["edits" := JArray (raw ++ more)]> args)
  = getEditOperations (<["edits" := JArray raw]> args).
Proof.
  intros Hlen.
  unfold getRequiredStringSlice, getOptionalStringSlice, getEditOperations, nonEmptyStrings.
  rewrite !lookup_insert_eq, take_app_le by exact Hlen. auto.
Qed.

Lemma X17_entries_past_100_are_ignored_witness :
  getRequiredStringSlice
    (<["paths" := JArray (replicate 100 (JString "a") ++ [JString "b"])]> ∅) "paths"
  = getRequiredStringSlice (<["paths" := JArray (replicate 100 (JString "a"))]> ∅) "paths" /\
  getOptionalStringSlice
    (<["paths" := JArray (replicate 100 (JString "a") ++ [JString "b"])]> ∅) "paths"
  = getOptionalStringSlice (<["paths" := JArray (replicate 100 (JString "a"))]> ∅) "paths" /\
  getEditOperations (<["edits" := JArray (replicate 100 (JString "a") ++ [JString "b"])]> ∅)
  = getEditOperations (<["edits" := JArray (replicate 100 (JString "a"))]> ∅).
Proof.
  apply (X17_entries_past_100_are_ignored ∅ "paths" (replicate 100 (JString "a"))
           [JString "b"]).
  simpl. lia.
Defined.

(** ** Making directories *)

Lemma nodeAt_None (fs : gmap string node) (key : string) :
  nodeAt fs key = None -> fs !! key = None.
Proof. unfold nodeAt. destruct (String.eqb key sep); [discriminate | auto]. Qed.

Lemma mkdirAllFrom_adds (path : string) (rest : list string) :
  forall w cur r w',
    mkdirAllFrom w path cur rest = (r, w') ->
    files w ⊆ files w' /\
    forall key n, files w' !! key = Some n -> files w !! key = None -> n = Directory.
Proof.
  induction rest as [|e rest IH]; intros w cur r w' H; cbn [mkdirAllFrom] in H.
  - injection H as _ <-. split; [reflexivity|]. intros key n Hn Hnone. congruence.
  - assert (Hsame : forall r0, (r0, w) = (r, w') ->
               files w ⊆ files w' /\
               forall key n, files w' !! key = Some n -> files w !! key = None ->
                             n = Directory).
    { intros r0 [= _ <-]. split; [reflexivity|]. intros key n Hn Hnone. congruence. }
    destruct (String.eqb e ".."); [exact (IH _ _ _ _ H)|].
    destruct (resolve w false (childKey cur e)) as [en|key].
    + destruct en; try exact (Hsame _ H).
      destruct (nodeAt (files w) (childKey cur e)) eqn:Hn; [exact (Hsame _ H)|].
      apply nodeAt_None in Hn. apply IH in H as [Hsub Hnew]. cbn [files withFiles] in *.
      split.
      * etransitivity; [apply (insert_subseteq _ _ Directory Hn) | exact Hsub].
      * intros key n Hkey Hnone.
        destruct (decide (key = childKey cur e)) as [->|Hne].
        -- pose proof (lookup_weaken _ _ (childKey cur e) Directory
                         (lookup_insert_eq _ _ _) Hsub) as Hd.
           congruence.
        -- apply (Hnew key n Hkey). rewrite lookup_insert_ne by congruence. exact Hnone.
    + destruct (nodeAt (files w) key) as [[| |]|]; try exact (Hsame _ H).
      exact (IH _ _ _ _ H).
Qed.

(** X18: [CreateDirectory] only adds directories: whatever it returns,
    every entry that was there is there unchanged afterwards, and every
    entry that is new is a directory. *)
Theorem X18_create_directory_only_adds (ops : Operations) (dirPath : string)
    (s s' : State) (r : option error) :
  CreateDirectory ops dirPath s = Some (r, s') ->
  files (world s) ⊆ files (world s') /\
  forall key n,
    files (world s') !! key = Some n -> files (world s) !! key = None -> n = Directory.
Proof.
  intros H. unfold CreateDirectory in H.
  rewrite (bind_Some _ _ _ _ _ (emit_run _ _)) in H.
  destruct (String.eqb dirPath "").
  { injection H as _ <-. split; [reflexivity|]. intros key n Hn Hnone. cbn [world] in *.
    congruence. }
  rewrite (bind_Some _ _ _ _ _ (sysWrite_run _ _ _ _)) in H. cbn [world trace] in H.
  destruct (MkdirAll (world s) dirPath) as [err w'] eqn:Hmk. cbn [fst snd] in H.
  assert (Hw : world s' = w') by (destruct err; injection H as _ <-; reflexivity).
  rewrite Hw. exact (mkdirAllFrom_adds _ _ _ _ _ _ Hmk).
Qed.

Lemma X18_create_directory_only_adds_witness :
  exists r s',
    CreateDirectory sandboxOps "/sandbox/a/b" (mkState helloWorld []) = Some (r, s') /\
    files helloWorld ⊆ files (world s') /\
    forall key n,
      files (world s') !! key = Some n -> files helloWorld !! key = None -> n = Directory.
Proof.
  assert (Hran : ran (CreateDirectory sandboxOps "/sandbox/a/b" (mkState helloWorld []))
                 = true) by (vm_compute; reflexivity).
  destruct (CreateDirectory sandboxOps "/sandbox/a/b" (mkState helloWorld []))
    as [[r s']|] eqn:Hrun; [|discriminate Hran].
  exists r, s'. split; [reflexivity|].
  exact (X18_create_directory_only_adds sandboxOps "/sandbox/a/b" (mkState helloWorld []) s' r
           Hrun).
Defined.

(** ** A move that fails *)

Lemma walkLinks_errno (fs : gmap string node) (create : bool) (links : nat)
    (cur rest : list string) :
  walkLinks fs create links cur rest <> inl EXDEV.
Proof.
  apply (walkLinks_cases fs create (fun _ _ _ r => r <> inl EXDEV)); clear; intros;
    try assumption; try discriminate.
  - destruct rest; [destruct create|]; discriminate.
  - destruct rest; discriminate.
Qed.

Lemma resolveNoFollow_errno (w : World) (path : string) :
  resolveNoFollow w path <> inl EXDEV.
Proof.
  unfold resolveNoFollow. destruct (String.eqb (Clean path) sep); [discriminate|].
  unfold resolve. destruct (String.eqb (Dir (Clean path)) ""); [discriminate|].
  pose proof (walkLinks_errno (files w) false maxLinks (startOf w (Dir (Clean path)))
                (Split (Dir (Clean path)) Separator)) as Hw.
  destruct (walkLinks _ _ _ _ _) as [en|elems]; [congruence|].
  destruct (nodeAt (files w) (keyOf elems)) as [[| |]|]; discriminate.
Qed.

Lemma Rename_result (w w' : World) (oldpath newpath : string) (r : option error) :
  Rename w oldpath newpath = (r, w') ->
  r = None \/
  exists en, r = Some (LinkError "rename" oldpath newpath en) /\ w' = w /\
             (mounts w = [] -> en <> EXDEV).
Proof.
  intros H. unfold Rename in H.
  assert (Hfail : forall en, (mounts w = [] -> en <> EXDEV) ->
             (Some (LinkError "rename" oldpath newpath en), w) = (r, w') ->
             r = None \/
             exists en, r = Some (LinkError "rename" oldpath newpath en) /\ w' = w /\
                        (mounts w = [] -> en <> EXDEV)).
  { intros en Hen [= <- <-]. right. eauto. }
  assert (Hok : forall w0, (@None error, w0) = (r, w') ->
             r = None \/
             exists en, r = Some (LinkError "rename" oldpath newpath en) /\ w' = w /\
                        (mounts w = [] -> en <> EXDEV)).
  { intros w0 [= <- _]. left. reflexivity. }
  pose proof (resolveNoFollow_errno w oldpath) as Ho.
  pose proof (resolveNoFollow_errno w newpath) as Hn.
  destruct (resolveNoFollow w oldpath) as [en|ok]; [apply (Hfail en); [congruence | exact H]|].
  destruct (resolveNoFollow w newpath) as [en|nk]; [apply (Hfail en); [congruence | exact H]|].
  destruct (nodeAt (files w) ok) as [on|]; [|apply (Hfail ENOENT); [discriminate | exact H]].
  destruct (String.eqb ok sep); [apply (Hfail EINVAL); [discriminate | exact H]|].
  destruct (bool_decide (deviceOf w ok = deviceOf w nk)) eqn:Hdev; cbn [negb] in H.
  2:{ apply (Hfail EXDEV); [|exact H]. intros Hm. exfalso.
      apply bool_decide_eq_false in Hdev. apply Hdev. unfold deviceOf. rewrite Hm.
      reflexivity. }
  destruct (String.eqb ok nk); [exact (Hok _ H)|].
  destruct (isUnder nk ok); [apply (Hfail EINVAL); [discriminate | exact H]|].
  destruct (nodeAt (files w) nk) as [[| |]|].
  - destruct (isDirNode on); [apply (Hfail ENOTDIR); [discriminate | exact H]|].
    exact (Hok _ H).
  - destruct (isDirNode on); cbn [negb] in H;
      [|apply (Hfail EISDIR); [discriminate | exact H]].
    destruct (hasEntries (files w) nk); [apply (Hfail ENOTEMPTY); [discriminate | exact H]|].
    exact (Hok _ H).
  - destruct (isDirNode on); [apply (Hfail ENOTDIR); [discriminate | exact H]|].
    exact (Hok _ H).
  - exact (Hok _ H).
Qed.

(** X19: where everything is on one device, a move that [MoveFile] reports
    as failed has changed nothing: the rename is all or nothing, and the
    copy that stands in for it across devices is not tried. *)
Theorem X19_failed_move_changes_nothing (ops : Operations) (sourcePath destPath : string)
    (s s' : State) (err : error) :
  mounts (world s) = [] ->
  MoveFile ops sourcePath destPath s = Some (Some err, s') ->
  world s' = world s.
Proof.
  intros Hm H. unfold MoveFile in H.
  rewrite (bind_Some _ _ _ _ _ (emit_run _ _)) in H.
  destruct (String.eqb sourcePath ""); [injection H as _ <-; reflexivity|].
  destruct (String.eqb destPath ""); [injection H as _ <-; reflexivity|].
  rewrite (bind_Some _ _ _ _ _ (sysRead_run _ _ _ _)) in H. cbn [world trace] in H.
  destruct (Stat (world s) destPath) as [info|serr]; [injection H as _ <-; reflexivity|].
  destruct (IsNotExist serr); cbn [negb] in H; [|injection H as _ <-; reflexivity].
  rewrite (bind_Some _ _ _ _ _ (sysWrite_run _ _ _ _)) in H. cbn [world trace] in H.
  destruct (Rename (world s) sourcePath destPath) as [r w'] eqn:Hren. cbn [fst snd] in H.
  apply Rename_result in Hren as [->|(en & -> & -> & Hen)]; [discriminate H|].
  specialize (Hen Hm). destruct en; try contradiction; injection H as _ <-; reflexivity.
Qed.

Lemma X19_failed_move_changes_nothing_witness :
  exists err s',
    MoveFile sandboxOps "/sandbox/none.txt" "/sandbox/new.txt" (mkState twoFilesWorld [])
    = Some (Some err, s') /\
    world s' = twoFilesWorld.
Proof.
  assert (Hfails : match MoveFile sandboxOps "/sandbox/none.txt" "/sandbox/new.txt"
                           (mkState twoFilesWorld []) with
                   | Some (Some _, _) => true
                   | _ => false
                   end = true) by (vm_compute; reflexivity).
  destruct (MoveFile sandboxOps "/sandbox/none.txt" "/sandbox/new.txt"
              (mkState twoFilesWorld [])) as [[[err|] s']|] eqn:Hrun;
    [|discriminate Hfails ..].
  exists err, s'. split; [reflexivity|].
  apply (X19_failed_move_changes_nothing sandboxOps "/sandbox/none.txt" "/sandbox/new.txt"
           (mkState twoFilesWorld []) s' err).
  - reflexivity.
  - exact Hrun.
Defined.

(** ** A link to nowhere *)

Lemma walkLinks_realDir (fs : gmap string node) (create : bool) (links : nat)
    (dirs rest : list string) :
  Forall (fun e => normalElem e = true) dirs ->
  forall cur,
    realDirFrom fs cur dirs = true ->
    walkLinks fs create links cur (dirs ++ rest)
    = walkLinks fs create links (cur ++ dirs) rest.
Proof.
  induction 1 as [|e dirs He _ IH]; intros cur Hreal.
  - rewrite app_nil_r. reflexivity.
  - cbn [realDirFrom] in Hreal.
    destruct (nodeAt fs (keyOf (cur ++ [e]))) as [[| |]|] eqn:Hn; try discriminate Hreal.
    cbn [app]. rewrite walkLinks_cons, (normalElem_kept e He). cbn [negb].
    apply normalElem_inv in He as (_ & _ & Hdd & _). apply String.eqb_neq in Hdd.
    rewrite Hdd, Hn, (IH _ Hreal), <- app_assoc. reflexivity.
Qed.

Lemma Split_keyOf_snoc (l : list string) (name : string) :
  Forall (fun e => normalElem e = true) (l ++ [name]) ->
  Split (keyOf (l ++ [name])) Separator = "" :: l ++ [name].
Proof.
  intros H. rewrite (Split_keyOf _ H).
  destruct (l ++ [name]) eqn:Hl; [|reflexivity]. destruct l; discriminate Hl.
Qed.

(** The walk to a real directory ends there. *)
Lemma resolve_realDir (w : World) (create : bool) (dirs : list string) :
  Forall (fun e => normalElem e = true) dirs ->
  realDir (files w) dirs = true ->
  resolve w create (keyOf dirs) = inr (keyOf dirs).
Proof.
  intros Hn Hreal. unfold resolve, startOf. rewrite keyOf_not_empty, keyOf_abs.
  rewrite (Split_keyOf dirs Hn), walkLinks_cons. change (keptElem "") with false. cbn [negb].
  destruct dirs as [|e dirs].
  - rewrite walkLinks_cons, walkLinks_nil. reflexivity.
  - rewrite <- (app_nil_r (e :: dirs)) at 1.
    rewrite (walkLinks_realDir _ _ _ _ [] Hn [] Hreal), walkLinks_nil. reflexivity.
Qed.

(** The walk through a link, in a real directory, to a name that a real
    directory does not hold. *)
Lemma resolve_dangling (w : World) (create : bool) (dirs targetDirs : list string)
    (name targetName : string) :
  Forall (fun e => normalElem e = true) (dirs ++ [name]) ->
  Forall (fun e => normalElem e = true) (targetDirs ++ [targetName]) ->
  realDir (files w) dirs = true ->
  realDir (files w) targetDirs = true ->
  nodeAt (files w) (keyOf (dirs ++ [name]))
  = Some (Symlink (keyOf (targetDirs ++ [targetName]))) ->
  nodeAt (files w) (keyOf (targetDirs ++ [targetName])) = None ->
  resolve w create (keyOf (dirs ++ [name]))
  = if create then inr (keyOf (targetDirs ++ [targetName])) else inl ENOENT.
Proof.
  intros Hn Ht Hreal Htreal Hlink Hnone.
  assert (Hstep : forall links elems last,
             Forall (fun e => normalElem e = true) (elems ++ [last]) ->
             realDir (files w) elems = true ->
             walkLinks (files w) create links [] (Split (keyOf (elems ++ [last])) Separator)
             = walkLinks (files w) create links elems [last]).
  { intros links elems last Hall Hr.
    rewrite (Split_keyOf_snoc _ _ Hall), walkLinks_cons.
    change (keptElem "") with false. cbn [negb].
    apply Forall_app in Hall as [Hall _].
    exact (walkLinks_realDir _ _ _ _ [last] Hall [] Hr). }
  assert (Hlast : forall elems last,
             Forall (fun e => normalElem e = true) (elems ++ [last]) ->
             keptElem last = true /\ String.eqb last ".." = false).
  { intros elems last Hall. apply Forall_app in Hall as [_ Hall].
    apply Forall_cons in Hall as [Hl _]. split; [exact (normalElem_kept _ Hl)|].
    apply normalElem_inv in Hl as (_ & _ & Hdd & _). apply String.eqb_neq. exact Hdd. }
  unfold resolve, startOf. rewrite keyOf_not_empty, keyOf_abs.
  change maxLinks with (S 254). rewrite (Hstep _ _ _ Hn Hreal), walkLinks_cons.
  destruct (Hlast _ _ Hn) as [-> ->]. cbn [negb]. rewrite Hlink, keyOf_abs, app_nil_r.
  rewrite (Hstep _ _ _ Ht Htreal), walkLinks_cons.
  destruct (Hlast _ _ Ht) as [-> ->]. cbn [negb]. rewrite Hnone.
  destruct create; reflexivity.
Qed.

Lemma Contains_sep_middle (s t : string) : Contains (s +:+ sep +:+ t) sep = true.
Proof.
  induction s as [|a s IH].
  - rewrite append_nil_l. unfold sep at 1. rewrite append_cons, Contains_sep_cons.
    reflexivity.
  - rewrite append_cons, Contains_sep_cons, IH. apply orb_true_r.
Qed.

Lemma uptoLastSep_last (s name : string) :
  Contains name sep = false -> uptoLastSep (s +:+ sep +:+ name) = s +:+ sep.
Proof.
  intros Hname. induction s as [|a s IH].
  - rewrite !append_nil_l. unfold sep at 1. rewrite append_cons, append_nil_l.
    cbn [uptoLastSep]. rewrite Hname. reflexivity.
  - rewrite !append_cons. cbn [uptoLastSep]. rewrite Contains_sep_middle, IH. reflexivity.
Qed.

Lemma Dir_keyOf_snoc (l : list string) (name : string) :
  Forall (fun e => normalElem e = true) (l ++ [name]) ->
  Dir (keyOf (l ++ [name])) = keyOf l.
Proof.
  intros H. apply Forall_app in H as [Hl Hname]. apply Forall_cons in Hname as [Hname _].
  apply normalElem_inv in Hname as (_ & _ & _ & Hsep). unfold Dir.
  destruct l as [|e l].
  - change (keyOf ([] ++ [name])) with ("" +:+ sep +:+ name).
    rewrite (uptoLastSep_last _ _ Hsep). reflexivity.
  - replace (keyOf ((e :: l) ++ [name])) with (keyOf (e :: l) +:+ sep +:+ name).
    2:{ unfold keyOf. rewrite Join_snoc by discriminate. rewrite !append_assoc. reflexivity. }
    rewrite (uptoLastSep_last _ _ Hsep). unfold Clean.
    assert (Hne : String.eqb (keyOf (e :: l) +:+ sep) "" = false) by reflexivity.
    assert (Habs : IsAbs (keyOf (e :: l) +:+ sep) = true).
    { rewrite keyOf_cons, append_cons. unfold IsAbs, sep.
      rewrite HasPrefix_cons, HasPrefix_nil. reflexivity. }
    rewrite Hne, Habs. change sep with (String Separator "") at 2.
    rewrite Split_app, (Split_keyOf _ Hl). cbn [Split app].
    change (List.filter keptElem ("" :: e :: l ++ [""]))
      with (List.filter keptElem ((e :: l) ++ [""])).
    rewrite List.filter_app, (filter_kept_normal _ Hl). cbn [List.filter keptElem].
    change (keptElem "") with false. rewrite app_nil_r.
    rewrite (cleanElems_plain true [] _ Hl). reflexivity.
Qed.

(** X20: validation does not keep a write inside the allowed directories.
    Let [dirs/name] be a link inside a real directory [dirs], and let its
    target [targetDirs/targetName] be a name that the real directory
    [targetDirs] does not hold yet.  If the validator allows [dirs] and
    [dirs/name], it lets the path [dirs/name] through as it is (the link
    cannot be resolved, and its parent is allowed), and [handleWriteFile]
    then reports success and has put the content into the target of the
    link, wherever that is: nothing asks whether the validator allows
    the target. *)
Theorem X20_write_through_dangling_link (th : ToolHandlers) (s : State)
    (dirs targetDirs : list string) (name targetName content : string) :
  content <> "" ->
  Forall (fun e => normalElem e = true) (dirs ++ [name]) ->
  Forall (fun e => normalElem e = true) (targetDirs ++ [targetName]) ->
  realDir (files (world s)) dirs = true ->
  realDir (files (world s)) targetDirs = true ->
  nodeAt (files (world s)) (keyOf (dirs ++ [name]))
  = Some (Symlink (keyOf (targetDirs ++ [targetName]))) ->
  nodeAt (files (world s)) (keyOf (targetDirs ++ [targetName])) = None ->
  isPathAllowed (thValidator th) (keyOf dirs) = true ->
  isPathAllowed (thValidator th) (keyOf (dirs ++ [name])) = true ->
  ValidatePath (thValidator th) (world s) (keyOf (dirs ++ [name]))
  = Ok (keyOf (dirs ++ [name])) /\
  exists s',
    handleWriteFile th (writeRequest (keyOf (dirs ++ [name])) content) s
    = Some (NewToolResultText ("Successfully wrote to " +:+ keyOf (dirs ++ [name])), s') /\
    world s'
    = withFiles (world s)
        (<[keyOf (targetDirs ++ [targetName]) := File content]> (files (world s))).
Proof.
  intros Hc Hn Ht Hreal Htreal Hlink Hnone Hdir Hpath.
  set (path := keyOf (dirs ++ [name])) in *.
  assert (Hvalid : ValidatePath (thValidator th) (world s) path = Ok path).
  { unfold ValidatePath. subst path. rewrite keyOf_not_empty.
    rewrite (ExpandHomePath_abs _ _ (keyOf_abs _)), keyOf_abs, (Clean_keyOf _ Hn), Hpath.
    cbn [negb]. unfold validateRealPath, EvalSymlinks.
    rewrite (resolve_dangling _ false _ _ _ _ Hn Ht Hreal Htreal Hlink Hnone).
    rewrite (Dir_keyOf_snoc _ _ Hn).
    apply Forall_app in Hn as [Hd _].
    rewrite (resolve_realDir _ false _ Hd Hreal), Hdir. reflexivity. }
  split; [exact Hvalid|].
  unfold handleWriteFile, withPath, getArguments, writeRequest, getRequiredString.
  cbn [Arguments]. rewrite lookup_insert_eq.
  assert (Hp : String.eqb path "" = false) by reflexivity. rewrite Hp. cbn [negb].
  rewrite lookup_insert_ne by discriminate. rewrite lookup_singleton_eq.
  apply String.eqb_neq in Hc. rewrite Hc. cbn [negb].
  unfold withValidPath. rewrite (bind_Some _ _ _ _ _ (validate_run _ _ _)). rewrite Hvalid.
  unfold WriteFile. unfold bind at 1.
  rewrite (bind_Some _ _ _ _ _ (emit_run _ _)), Hp.
  rewrite (bind_Some _ _ _ _ _ (sysWrite_run _ _ _ _)). cbn [world trace].
  unfold WriteFileSys. subst path.
  rewrite (resolve_dangling _ true _ _ _ _ Hn Ht Hreal Htreal Hlink Hnone), Hnone.
  cbn [fst snd]. eexists. split; reflexivity.
Qed.

Lemma X20_write_through_dangling_link_witness :
  ValidatePath sandboxValidator danglingWorld "/sandbox/link" = Ok "/sandbox/link" /\
  exists s',
    handleWriteFile sandboxHandlers (writeRequest "/sandbox/link" "0 * * * * root sh")
      (mkState danglingWorld [])
    = Some (NewToolResultText "Successfully wrote to /sandbox/link", s') /\
    world s'
    = withFiles danglingWorld (<["/etc/cron" := File "0 * * * * root sh"]> (files danglingWorld)).
Proof.
  apply (X20_write_through_dangling_link sandboxHandlers (mkState danglingWorld [])
           ["sandbox"] ["etc"] "link" "cron" "0 * * * * root sh").
  - discriminate.
  - vm_compute. repeat constructor.
  - vm_compute. repeat constructor.
  - reflexivity.
  - reflexivity.
  - reflexivity.
  - reflexivity.
  - reflexivity.
  - reflexivity.
Defined.
